(** * zauberhaus/config: path index, key resolution and layered loading

    A shallow embedding of the Go packages [index], [env], [flags] and
    [config].  Go strings are byte strings and are modelled by [string];
    a Go [map[string]V] is a [gmap string V]; [reflect.Type] is the
    inductive [rtype] of finite type shapes. *)

From Stdlib Require Import Ascii String List Bool Arith Lia Sorting.Sorted Sorting.Permutation.
From stdpp Require Import base option list sorting strings gmap fin_maps.

Local Open Scope string_scope.

(** ** Results and errors *)

(** The error values the packages produce or pass on: [lookup.NotFoundError],
    a formatted message ([errors.New], [fmt.Errorf]), and an error of a
    collaborator (codec, file system, value coercion) kept opaque. *)
Inductive error : Type :=
| NotFoundError (Name : string)
| Errorf (msg : string)
| Foreign (what : string).

(** What a Go call yields: a value, an error, or a run-time panic. *)
Inductive outcome (A : Type) : Type :=
| Ok (a : A)
| Err (e : error)
| Panic.
Arguments Ok {A} a.
Arguments Err {A} e.
Arguments Panic {A}.

(** Sequencing with early return: the [if err != nil { return ..., err }]
    idiom.  stdpp's [x ← c; k] notation is used for it. *)
#[global] Instance outcome_bind : MBind outcome := fun A B k x =>
  match x with
  | Ok a => k a
  | Err e => Err e
  | Panic => Panic
  end.
#[global] Instance outcome_ret : MRet outcome := fun A a => Ok a.

(** ** The part of Go's [strings] package the code uses *)

Module strings.

Abbreviation is_lbracket c := (Ascii.eqb c "["%char).
Abbreviation is_rbracket c := (Ascii.eqb c "]"%char).

Definition is_lower (c : ascii) : bool :=
  let n := nat_of_ascii c in (97 <=? n)%nat && (n <=? 122)%nat.
Definition is_upper (c : ascii) : bool :=
  let n := nat_of_ascii c in (65 <=? n)%nat && (n <=? 90)%nat.

Definition upper_char (c : ascii) : ascii :=
  if is_lower c then ascii_of_nat (nat_of_ascii c - 32) else c.
Definition lower_char (c : ascii) : ascii :=
  if is_upper c then ascii_of_nat (nat_of_ascii c + 32) else c.

Fixpoint map_chars (f : ascii -> ascii) (s : string) : string :=
  match s with
  | EmptyString => EmptyString
  | String c s' => String (f c) (map_chars f s')
  end.

(** [strings.ToUpper] and [strings.ToLower] on ASCII text. *)
Definition ToUpper : string -> string := map_chars upper_char.
Definition ToLower : string -> string := map_chars lower_char.

(** [strings.Join(elems, sep)]. *)
Definition Join (elems : list string) (sep : string) : string :=
  String.concat sep elems.

Fixpoint HasPrefix (s pre : string) {struct pre} : bool :=
  match pre, s with
  | EmptyString, _ => true
  | String _ _, EmptyString => false
  | String a pre', String b s' => Ascii.eqb b a && HasPrefix s' pre'
  end.

Fixpoint drop (n : nat) (s : string) : string :=
  match n, s with
  | O, _ => s
  | S _, EmptyString => EmptyString
  | S k, String _ s' => drop k s'
  end.

Definition TrimPrefix (s pre : string) : string :=
  if HasPrefix s pre then drop (String.length pre) s else s.

Definition HasSuffix (s suf : string) : bool :=
  HasPrefix (String.rev s) (String.rev suf).

Fixpoint Contains (s sub : string) : bool :=
  HasPrefix s sub ||
  match s with
  | EmptyString => false
  | String _ s' => Contains s' sub
  end.

Fixpoint mem_char (c : ascii) (cutset : string) : bool :=
  match cutset with
  | EmptyString => false
  | String d r => Ascii.eqb c d || mem_char c r
  end.

Fixpoint TrimLeft (s cutset : string) : string :=
  match s with
  | EmptyString => EmptyString
  | String c s' => if mem_char c cutset then TrimLeft s' cutset else s
  end.

Definition TrimRight (s cutset : string) : string :=
  String.rev (TrimLeft (String.rev s) cutset).

(** [strings.Trim(s, cutset)]: drop leading and trailing bytes of the cutset. *)
Definition Trim (s cutset : string) : string :=
  TrimRight (TrimLeft s cutset) cutset.

(** [strings.Index(s, "=")] splits an environment entry at its first "=". *)
Fixpoint cut_at (c : ascii) (s : string) : option (string * string) :=
  match s with
  | EmptyString => None
  | String d s' =>
      if Ascii.eqb d c then Some (EmptyString, s')
      else match cut_at c s' with
           | Some (k, v) => Some (String d k, v)
           | None => None
           end
  end.

(** [strings.Replace(s, old, new, 1)]: the first occurrence only. *)
Fixpoint ReplaceFirst (s old new : string) : string :=
  if HasPrefix s old then new ++ drop (String.length old) s
  else match s with
       | EmptyString => EmptyString
       | String c s' => String c (ReplaceFirst s' old new)
       end.

(** [strings.Replace(s, old, new, -1)] for a non-empty [old]: every
    non-overlapping occurrence, left to right.  [skip] counts the bytes of
    the occurrence being consumed. *)
Fixpoint ReplaceAll_go (s old new : string) (skip : nat) : string :=
  match s with
  | EmptyString => EmptyString
  | String c s' =>
      match skip with
      | S k => ReplaceAll_go s' old new k
      | O =>
          if HasPrefix s old
          then new ++ ReplaceAll_go s' old new (String.length old - 1)
          else String c (ReplaceAll_go s' old new 0)
      end
  end.

(** With an empty [old], Go inserts [new] before every byte and at the end. *)
Fixpoint intersperse (s new : string) : string :=
  match s with
  | EmptyString => new
  | String c s' => new ++ String c (intersperse s' new)
  end.

Definition ReplaceAll (s old new : string) : string :=
  match old with
  | EmptyString => intersperse s new
  | _ => ReplaceAll_go s old new 0
  end.

End strings.

(** ** Package [index] *)

Module index.

(** *** [reflect.Type], as far as [collect] inspects it

    A finite tree of kinds.  [tu] on a non-pointer type [T] records whether
    [*T] has [UnmarshalText] in its method set.  A struct field carries what
    [reflect.StructField] exposes to [collect]: its name, its [PkgPath]
    (empty exactly for exported fields) and the value of its [env] tag
    ([Tag.Get("env")], empty when the tag is absent).  Recursive Go types
    have no finite tree and are outside the model, as [collect] does not
    terminate on them. *)
Inductive rtype : Type :=
| Leaf (kind : string) (tu : bool)
| Pointer (elem : rtype)
| Array (tu : bool) (len : nat) (elem : rtype)
| Slice (tu : bool) (elem : rtype)
| Map (tu : bool) (key elem : rtype)
| Struct (tu : bool) (fields : list StructField)
with StructField : Type :=
| Field (Name PkgPath env : string) (Type_ : rtype).

Definition IsExported (f : StructField) : bool :=
  match f with Field _ pkg _ _ => String.eqb pkg "" end.

(** [t.Implements(tm)] for the pointer types [collect] asks about: the
    method set of [*T] for a non-pointer [T]; a pointer to a pointer has no
    methods. *)
Definition Implements_tm (t : rtype) : bool :=
  match t with
  | Pointer (Leaf _ tu) | Pointer (Array tu _ _) | Pointer (Slice tu _)
  | Pointer (Map tu _ _) | Pointer (Struct tu _) => tu
  | _ => false
  end.

Record Item : Type := mkItem {
  Path : string;
  Type_of : rtype;
  Optional : bool
}.

(** [type Index map[string]Item] *)
Abbreviation Index := (gmap string Item).

(** *** The regular expression [braces]

    An opening bracket, any bytes other than a closing bracket (captured),
    a closing bracket.

    Leftmost, non-overlapping matches: a match starts at a "[" that has a
    "]" somewhere after it and ends at the first such "]".  The scan cuts
    the input into literal bytes and matched groups; an opening bracket that
    is never closed stays literal text. *)
Inductive piece : Type :=
| Lit (c : ascii)
| Group (content : string).

Fixpoint lits (s : string) : list piece :=
  match s with
  | EmptyString => []
  | String c s' => Lit c :: lits s'
  end.

Fixpoint braces_scan (s : string) (pending : option string) : list piece :=
  match s with
  | EmptyString =>
      match pending with
      | None => []
      | Some acc => Lit "["%char :: lits acc
      end
  | String c s' =>
      match pending with
      | None =>
          if strings.is_lbracket c then braces_scan s' (Some EmptyString)
          else Lit c :: braces_scan s' None
      | Some acc =>
          if strings.is_rbracket c then Group acc :: braces_scan s' None
          else braces_scan s' (Some (acc ++ String c EmptyString))
      end
  end.

(** [m[1]] for every [m] of [braces.FindAllStringSubmatch(name, -1)]. *)
Fixpoint submatches (ps : list piece) : list string :=
  match ps with
  | [] => []
  | Lit _ :: r => submatches r
  | Group g :: r => g :: submatches r
  end.

Definition braces_FindAllStringSubmatch (name : string) : list string :=
  submatches (braces_scan name None).

(** [braces.ReplaceAllString(name, repl)] for a [repl] without "$". *)
Fixpoint render (repl : string) (ps : list piece) : string :=
  match ps with
  | [] => EmptyString
  | Lit c :: r => String c (render repl r)
  | Group _ :: r => repl ++ render repl r
  end.

Definition braces_ReplaceAllString (name repl : string) : string :=
  render repl (braces_scan name None).

(** *** [Index.Find], [Index.Exists], [Index.PathExists] *)

(** The loop [for _, p := range params { r.Path = strings.Replace(r.Path,
    "[]", "["+p+"]", 1) }]. *)
Definition substitute (path : string) (params : list string) : string :=
  fold_left (fun acc p => strings.ReplaceFirst acc "[]" ("[" ++ p ++ "]")) params path.

Definition Find (v : Index) (name : string) : string * bool :=
  let params := braces_FindAllStringSubmatch name in
  let name := braces_ReplaceAllString name "[]" in
  match v !! name with
  | Some r => (substitute (Path r) params, true)
  | None => (EmptyString, false)
  end.

Definition Exists (v : Index) (name : string) : bool :=
  let name := braces_ReplaceAllString name "[]" in
  existsb (fun kv => String.eqb name (fst kv)) (map_to_list v).

Definition PathExists (v : Index) (name : string) : bool :=
  let name := braces_ReplaceAllString name "[]" in
  existsb (fun kv => String.eqb name (Path (snd kv))) (map_to_list v).

(** *** [SnakeCase] and [collect] *)

(** The field rename table [d map[string]string], listed in the order in
    which [range d] visits it. *)
Abbreviation Replacer := (list (string * string)).

(** [tag[len(tag)-1] += "[]"]: panics on an empty slice. *)
Fixpoint append_to_last (l : list string) (suffix : string) : option (list string) :=
  match l with
  | [] => None
  | [x] => Some [x ++ suffix]
  | x :: r => cons x <$> append_to_last r suffix
  end.

Section Collect.

(** [stringy.New(s).SnakeCase("?", "").ToUpper()] of github.com/gobeam/stringy,
    a dependency that is not part of the repository. *)
Variable stringy_SnakeCase_ToUpper : string -> string.

Definition SnakeCase (s : string) : string :=
  if String.eqb (strings.ToUpper s) s || String.eqb (strings.ToLower s) s then s
  else stringy_SnakeCase_ToUpper s.

(** [env = field.Name; for k, v := range d { env = strings.Replace(env, k, v, -1) }] *)
Definition rename (d : Replacer) (name : string) : string :=
  fold_left (fun env kv => strings.ReplaceAll env (fst kv) (snd kv)) d name.

(** The key token of a field that is neither excluded nor flattened. *)
Definition token (d : Replacer) (name env : string) : string :=
  SnakeCase (if (String.length env =? 0)%nat then rename d name else env).

Definition skip_error (path : list string) : error :=
  Errorf ("can't skip slice, array or map: " ++ strings.Join path ".").

(** One iteration of [for i := 0; i < v.NumField(); i++] in [collect], on
    field [f], with [m] the map built so far and [rec] the recursive call
    [collect(field.Type, ...)].  Only exported fields are visited; the tag
    "--" excludes the field with its subtree; "-" walks the field's type
    under the parent's key prefix ([skip = true]). *)
Definition field_step
    (rec : rtype -> list string -> list string -> bool -> outcome Index)
    (tag path : list string) (d : Replacer) (f : StructField) (m : Index)
  : outcome Index :=
  match f with
  | Field name pkg env ty =>
      if String.eqb pkg "" then
        if String.eqb env "--" then Ok m
        else if String.eqb env "-" then
          tmp ← rec ty tag (path ++ [strings.ToLower name])%list true;
          Ok (tmp ∪ m)
        else
          tmp ← rec ty (tag ++ [token d name env])%list
                   (path ++ [strings.ToLower name])%list false;
          Ok (tmp ∪ m)
      else Ok m
  end.

Fixpoint fields_loop
    (rec : rtype -> list string -> list string -> bool -> outcome Index)
    (tag path : list string) (d : Replacer) (fs : list StructField) (m : Index)
  : outcome Index :=
  match fs with
  | [] => Ok m
  | f :: fs' => m' ← field_step rec tag path d f m; fields_loop rec tag path d fs' m'
  end.

(** The [case reflect.Array, reflect.Slice, reflect.Map] branch of
    [collect], for the collection type [v] with element type [e]; [ma]
    tells whether the element decodes from text, [e1] is the element type
    with one pointer level removed and [rec] the recursive call on it. *)
Definition collection_case (isPtr : bool) (v e1 : rtype) (ma : bool)
    (rec : list string -> list string -> bool -> outcome Index)
    (tag path : list string) (skip : bool) : outcome Index :=
  if negb skip then
    let m : Index :=
      {[ strings.Join tag "_" := mkItem (strings.Join path ".") v isPtr ]} in
    match append_to_last tag "[]", append_to_last path "[]" with
    | Some tag', Some path' =>
        if ma then
          Ok (<[ strings.Join tag' "_" := mkItem (strings.Join path' ".") e1 isPtr ]> m)
        else tmp ← rec tag' path' false; Ok (tmp ∪ m)
    | _, _ => Panic
    end
  else if negb ma then
    tmp ← rec tag path skip;
    if (0 <? size tmp)%nat then Err (skip_error path) else Ok ∅
  else Ok ∅.

(** [e.Implements(tm)] for a pointer element, [reflect.New(e).Type().Implements(tm)]
    otherwise. *)
Definition elem_unmarshals (e : rtype) : bool :=
  match e with
  | Pointer _ => Implements_tm e
  | _ => Implements_tm (Pointer e)
  end.

Definition elem_deref (e : rtype) : rtype :=
  match e with
  | Pointer e' => e'
  | _ => e
  end.

(** [collect].  The leading [for v.Kind() == reflect.Pointer] loop is the
    [Pointer] case, which carries [isPtr = true] on; a call of the Go
    function is [collect_loop false].  [tag] and [path] are Go slices that
    the callee extends with [append] and whose last element it rewrites in
    place; no caller reads its slice again after the call that rewrites it,
    so immutable lists give the same maps.  [maps.Insert(m, maps.All(tmp))]
    lets [tmp] win on equal keys: [tmp ∪ m]. *)
Fixpoint collect_loop (isPtr : bool) (v : rtype) (tag path : list string)
    (skip : bool) (d : Replacer) {struct v} : outcome Index :=
  let collection (e : rtype) : outcome Index :=
    collection_case isPtr v (elem_deref e) (elem_unmarshals e)
      (fun tag path skip =>
         match e with
         | Pointer e' => collect_loop false e' tag path skip d
         | _ => collect_loop false e tag path skip d
         end) tag path skip in
  match v with
  | Pointer e => collect_loop true e tag path skip d
  | Array _ _ e => collection e
  | Slice _ e => collection e
  | Map _ _ e => collection e
  | Struct _ fields =>
      let m : Index :=
        if negb skip && (0 <? length path)%nat
        then {[ strings.Join tag "_" := mkItem (strings.Join path ".") v isPtr ]}
        else ∅ in
      fields_loop (fun ty tag path skip => collect_loop false ty tag path skip d)
        tag path d fields m
  | Leaf _ _ =>
      if negb skip
      then Ok {[ strings.Join tag "_" := mkItem (strings.Join path ".") v isPtr ]}
      else Ok ∅
  end.

Definition collect (v : rtype) (tag path : list string) (skip : bool) (d : Replacer)
  : outcome Index :=
  collect_loop false v tag path skip d.

Fixpoint strip_pointers (v : rtype) : rtype :=
  match v with
  | Pointer e => strip_pointers e
  | _ => v
  end.

(** [New[T](d)], with [v] the [reflect.Type] of [T].  For a type that is
    not a struct it returns a nil map and no error; a nil map reads as an
    empty one. *)
Definition New (v : rtype) (d : Replacer) : outcome Index :=
  match strip_pointers v with
  | Struct _ _ as s => collect s [] [] false d
  | _ => Ok ∅
  end.

End Collect.

(** *** Vocabulary of the specification about keys and paths *)

Import strings (is_lbracket, is_rbracket).

(** The number of "[]" placeholders occurring in a key or a path. *)
Fixpoint count_placeholders (s : string) : nat :=
  match s with
  | EmptyString => 0
  | String a r =>
      match r with
      | EmptyString => 0
      | String b r' =>
          if is_lbracket a && is_rbracket b
          then S (count_placeholders r')
          else count_placeholders r
      end
  end.

(** [fill s ps]: the text [s] with its placeholders, from left to right,
    replaced by the bracketed contents [ps]; placeholders beyond the
    contents stay, contents beyond the placeholders are not used. *)
Fixpoint fill (s : string) (ps : list string) {struct s} : string :=
  match ps with
  | [] => s
  | p :: ps' =>
      match s with
      | EmptyString => EmptyString
      | String a r =>
          match r with
          | EmptyString => s
          | String b r' =>
              if is_lbracket a && is_rbracket b
              then "[" ++ p ++ "]" ++ fill r' ps'
              else String a (fill r ps)
          end
      end
  end.

(** Brackets occur in [s] only as "[]" placeholders. *)
Fixpoint placeholder_shaped (s : string) : bool :=
  match s with
  | EmptyString => true
  | String a r =>
      if is_lbracket a then
        match r with
        | String b r' => is_rbracket b && placeholder_shaped r'
        | EmptyString => false
        end
      else negb (is_rbracket a) && placeholder_shaped r
  end.

(** Neither bracket occurs in [s]. *)
Fixpoint bracket_free (s : string) : bool :=
  match s with
  | EmptyString => true
  | String a r => negb (is_lbracket a) && negb (is_rbracket a) && bracket_free r
  end.

(** A bracket content that a runtime key can carry and that [Find] puts
    back in place: not empty, without "]", not ending in "[". *)
Fixpoint content_ok (p : string) : bool :=
  match p with
  | EmptyString => false
  | String a r =>
      negb (is_rbracket a) &&
      match r with
      | EmptyString => negb (is_lbracket a)
      | _ => content_ok r
      end
  end.

(** No "]" occurs in [p]: what the capture group of [braces] can hold. *)
Fixpoint no_rbracket (p : string) : bool :=
  match p with
  | EmptyString => true
  | String a r => negb (is_rbracket a) && no_rbracket r
  end.

(** [x] contains no placeholder and does not end in "[": text that cannot
    form a placeholder with what follows it. *)
Fixpoint closed_text (x : string) : bool :=
  match x with
  | EmptyString => true
  | String a r =>
      match r with
      | EmptyString => negb (is_lbracket a)
      | String b _ => negb (is_lbracket a && is_rbracket b) && closed_text r
      end
  end.

(** The placeholders of all segments of a tag or path slice. *)
Definition placeholders_in (l : list string) : nat :=
  foldr (fun s n => count_placeholders s + n) 0 l.

(** [s] holds no placeholder. *)
Definition no_placeholder (s : string) : bool := (count_placeholders s =? 0)%nat.

(** A tag slice of placeholder-shaped segments that carries as many
    placeholders as the path slice. *)
Definition shaped_balanced (tag path : list string) : Prop :=
  Forall (fun s => placeholder_shaped s = true) tag /\
  placeholders_in tag = placeholders_in path.

Definition field_type (f : StructField) : rtype :=
  match f with Field _ _ _ t => t end.

(** The induction principle of [rtype], with the hypothesis for every field
    of a struct. *)
Section rtype_induction.
Variable P : rtype -> Prop.
Hypothesis HLeaf : forall kind tu, P (Leaf kind tu).
Hypothesis HPointer : forall e, P e -> P (Pointer e).
Hypothesis HArray : forall tu n e, P e -> P (Array tu n e).
Hypothesis HSlice : forall tu e, P e -> P (Slice tu e).
Hypothesis HMap : forall tu k e, P e -> P (Map tu k e).
Hypothesis HStruct : forall tu fs, Forall (fun f => P (field_type f)) fs -> P (Struct tu fs).

Fixpoint rtype_nested_ind (v : rtype) : P v :=
  match v with
  | Leaf kind tu => HLeaf kind tu
  | Pointer e => HPointer e (rtype_nested_ind e)
  | Array tu n e => HArray tu n e (rtype_nested_ind e)
  | Slice tu e => HSlice tu e (rtype_nested_ind e)
  | Map tu k e => HMap tu k e (rtype_nested_ind e)
  | Struct tu fs =>
      HStruct tu fs
        ((fix go (fs : list StructField) : Forall (fun f => P (field_type f)) fs :=
            match fs return Forall (fun f => P (field_type f)) fs with
            | [] => @List.Forall_nil _ _
            | f :: r =>
                @List.Forall_cons _ _ f r
                  (match f return P (field_type f) with
                   | Field _ _ _ t => rtype_nested_ind t
                   end) (go r)
            end) fs)
  end.
End rtype_induction.

Section Fields.

Variable stringy_SnakeCase_ToUpper : string -> string.

(** [tokens_ok P d v]: every key token that [collect] derives while walking
    [v] satisfies [P], and so does every path segment (lower-cased field
    name).  Unexported fields and fields tagged "--" are not walked. *)
Fixpoint tokens_ok (P : string -> bool) (d : Replacer) (v : rtype) {struct v} : bool :=
  match v with
  | Leaf _ _ => true
  | Pointer e => tokens_ok P d e
  | Array _ _ e => tokens_ok P d e
  | Slice _ e => tokens_ok P d e
  | Map _ _ e => tokens_ok P d e
  | Struct _ fields =>
      forallb (fun f =>
        match f with
        | Field name pkg env ty =>
            if String.eqb pkg "" && negb (String.eqb env "--") then
              P (strings.ToLower name) &&
              (String.eqb env "-" || P (token stringy_SnakeCase_ToUpper d name env)) &&
              tokens_ok P d ty
            else true
        end) fields
  end.

End Fields.

(** No slice, array or map anywhere in the type. *)
Fixpoint no_collections (v : rtype) : bool :=
  match v with
  | Leaf _ _ => true
  | Pointer e => no_collections e
  | Array _ _ _ | Slice _ _ | Map _ _ _ => false
  | Struct _ fields => forallb (fun f => no_collections (field_type f)) fields
  end.

(** Walking [v] in flattened mode ([skip = true]) adds at least one entry:
    scalars and collections add none, a record adds the entries of its
    walked fields. *)
Fixpoint flat_entries (v : rtype) : bool :=
  match v with
  | Leaf _ _ => false
  | Pointer e => flat_entries e
  | Array _ _ _ | Slice _ _ | Map _ _ _ => false
  | Struct _ fields =>
      existsb (fun f =>
        match f with
        | Field _ pkg env ty =>
            String.eqb pkg "" && negb (String.eqb env "--") &&
            (negb (String.eqb env "-") || flat_entries ty)
        end) fields
  end.

(** The walk of [v] in mode [skip] reaches a flattened collection whose
    elements do not decode from text and would add entries. *)
Fixpoint flatten_conflict (skip : bool) (v : rtype) {struct v} : bool :=
  match v with
  | Leaf _ _ => false
  | Pointer e => flatten_conflict skip e
  | Array _ _ e | Slice _ e | Map _ _ e =>
      negb (elem_unmarshals e) &&
      (match e with
       | Pointer e' => flatten_conflict skip e' || (skip && flat_entries e')
       | _ => flatten_conflict skip e || (skip && flat_entries e)
       end)
  | Struct _ fields =>
      existsb (fun f =>
        match f with
        | Field _ pkg env ty =>
            String.eqb pkg "" && negb (String.eqb env "--") &&
            flatten_conflict (String.eqb env "-") ty
        end) fields
  end.

(** [New] walks the type only when it is a record behind its pointers. *)
Definition root_conflict (v : rtype) : bool :=
  match strip_pointers v with
  | Struct _ _ as s => flatten_conflict false s
  | _ => false
  end.

(** The conditions of [flatten_conflict] and [flat_entries] on one field. *)
Definition field_conflict (f : StructField) : bool :=
  match f with
  | Field _ pkg env ty =>
      String.eqb pkg "" && negb (String.eqb env "--") &&
      flatten_conflict (String.eqb env "-") ty
  end.

Definition field_contributes (f : StructField) : bool :=
  match f with
  | Field _ pkg env ty =>
      String.eqb pkg "" && negb (String.eqb env "--") &&
      (negb (String.eqb env "-") || flat_entries ty)
  end.

(** What the walk of [v] yields when it does not start from empty slices
    in indexing mode. *)
Definition outcome_ok (snake : string -> string) (d : Replacer) (v : rtype) : Prop :=
  forall isPtr tag path skip,
    skip = true \/ (tag <> [] /\ path <> []) ->
    if flatten_conflict skip v
    then exists p, collect_loop snake isPtr v tag path skip d = Err (skip_error p)
    else exists m, collect_loop snake isPtr v tag path skip d = Ok m /\
                   (m = ∅ <-> skip = true /\ flat_entries v = false).

(** Every key of [m] is the join of a tag slice and its path the join of a
    path slice that are related by [Q]. *)
Definition entries_ok (Q : list string -> list string -> Prop) (m : gmap string Item)
  : Prop :=
  forall k it, m !! k = Some it ->
    exists tag path,
      k = strings.Join tag "_" /\ Path it = strings.Join path "." /\ Q tag path.

(** Walking [v] from slices related by [Q] yields such entries only; with
    [collections = false] the type is promised to hold no collection. *)
Definition walk_ok (snake : string -> string) (d : Replacer) (P : string -> bool)
    (Q : list string -> list string -> Prop) (collections : bool) (v : rtype) : Prop :=
  forall isPtr tag path skip m,
    tokens_ok snake P d v = true ->
    collections = true \/ no_collections v = true ->
    Q tag path ->
    collect_loop snake isPtr v tag path skip d = Ok m -> entries_ok Q m.

(** *** Further vocabulary: scanned text, walked fields, sorted keys *)

(** The pieces a scan can end with after an opening bracket that is never
    closed: literal bytes other than "]". *)
Definition open_tail (ps : list piece) : bool :=
  forallb (fun p => match p with Lit c => negb (is_rbracket c) | Group _ => false end) ps.

(** The shape of a scan's result: literal bytes other than "[" and groups,
    and after a literal "[" only an open tail. *)
Fixpoint scanned (ps : list piece) : bool :=
  match ps with
  | [] => true
  | Group _ :: r => scanned r
  | Lit c :: r => if is_lbracket c then open_tail r else scanned r
  end.

(** A group with its content dropped. *)
Definition blank (p : piece) : piece :=
  match p with
  | Lit c => Lit c
  | Group _ => Group EmptyString
  end.

(** The field is walked by [collect]: exported and not tagged "--". *)
Definition walked (f : StructField) : bool :=
  match f with
  | Field _ pkg env _ => String.eqb pkg "" && negb (String.eqb env "--")
  end.

(** [Index.Keys]: [slices.Collect(maps.Keys(d))] and [sort.Strings], the
    keys in ascending byte-wise order. *)
Definition Keys (d : Index) : list string :=
  merge_sort String.le (map_to_list d).*1.

(** Every path of [m] is the join of a path slice with the property [R]. *)
Definition paths_ok (R : list string -> Prop) (m : gmap string Item) : Prop :=
  forall k it, m !! k = Some it -> exists path, Path it = strings.Join path "." /\ R path.

(** Walking [v] from a path slice with the property [R] yields such paths
    only. *)
Definition paths_walk (snake : string -> string) (d : Replacer)
    (R : list string -> Prop) (v : rtype) : Prop :=
  forall isPtr tag path skip m,
    R path -> collect_loop snake isPtr v tag path skip d = Ok m -> paths_ok R m.

End index.

(** ** A model of [stringy]'s snake case, for running examples

    The theorems below hold for every function put in its place; this one
    is what the examples and the repository's own test tables are run
    with.  It follows the library on ASCII input: a space is put between a
    lower-case and an upper-case letter that are adjacent, "?" is removed,
    ".", "_" and "-" become spaces, and the words are joined by "_" and
    upper-cased. *)
Module stringy.

Fixpoint split_caps (s : string) : string :=
  match s with
  | EmptyString => EmptyString
  | String a r =>
      match r with
      | String b _ =>
          if strings.is_lower a && strings.is_upper b
          then String a (String " "%char (split_caps r))
          else String a (split_caps r)
      | EmptyString => String a EmptyString
      end
  end.

Fixpoint apply_rules (s : string) : string :=
  match s with
  | EmptyString => EmptyString
  | String c r =>
      if Ascii.eqb c "?"%char then apply_rules r
      else if Ascii.eqb c "."%char || Ascii.eqb c "_"%char || Ascii.eqb c "-"%char
           then String " "%char (apply_rules r)
           else String c (apply_rules r)
  end.

Definition SnakeCase_ToUpper (s : string) : string :=
  strings.ToUpper (strings.Join (String.words (apply_rules (split_caps s))) "_").

End stringy.

(** ** Package [env] *)

Module env.

Record EnvOptions : Type := mkEnvOptions {
  Prefix : string;
  Strict : bool;
  Index : gmap string index.Item;
  Replacer : list (string * string)
}.

(** The [Option] interface, a [Set] method on a pointer to [EnvOptions]:
    an option updates the options it is applied to. *)
Definition Option : Type := EnvOptions -> EnvOptions.

Definition WithName (val : string) : Option := fun o =>
  let val :=
    if negb (String.length val =? 0)%nat
    then strings.ReplaceAll
           (strings.ReplaceAll (strings.ToUpper val) "." "_") "-" "_"
    else val in
  if (0 <? String.length val)%nat
  then mkEnvOptions (val ++ "_") (Strict o) (Index o) (Replacer o)
  else mkEnvOptions "" (Strict o) (Index o) (Replacer o).

Definition WithStrict (val : bool) : Option := fun o =>
  mkEnvOptions (Prefix o) val (Index o) (Replacer o).

(** [var Strict = optionFunc(...)] (the record field has the name). *)
Definition StrictOption : Option := WithStrict true.

Definition WithIndex (val : gmap string index.Item) : Option := fun o =>
  mkEnvOptions (Prefix o) (Strict o) val (Replacer o).

Definition WithReplacer (val : list (string * string)) : Option := fun o =>
  mkEnvOptions (Prefix o) (Strict o) (Index o) val.

(** [&EnvOptions{}] with every option applied in turn. *)
Definition apply_options (options : list Option) : EnvOptions :=
  fold_left (fun o opt => opt o) options (mkEnvOptions "" false ∅ []).

(** The cutsets ["_ \n\r\t"] and [" \n\r\t"]. *)
Definition blank_cutset : string :=
  String " " (String "010" (String "013" (String "009" EmptyString))).
Definition key_cutset : string := String "_" blank_cutset.

(** What one entry of [os.Environ()] asks of the first loop of [Set]. *)
Inductive entry_action : Type :=
| Ignore                              (* no "=", or the prefix does not match *)
| Unresolved (key : string)           (* the normalised key is not in the index *)
| Assign (path : string) (value : string).

(** The normalised key of an entry that passes the prefix filter. *)
Definition surviving_key (prefix envVar : string) : option string :=
  match strings.cut_at "="%char envVar with
  | None => None
  | Some (key, _) =>
      if (0 <? String.length prefix)%nat && negb (strings.HasPrefix key prefix)
      then None
      else
        let key := if (0 <? String.length prefix)%nat
                   then strings.TrimPrefix key prefix else key in
        Some (strings.ToUpper (strings.Trim key key_cutset))
  end.

Definition classify (o : EnvOptions) (envVar : string) : entry_action :=
  match surviving_key (Prefix o) envVar, strings.cut_at "="%char envVar with
  | Some key, Some (_, value) =>
      match index.Find (Index o) key with
      | (k, true) => Assign k (strings.Trim value blank_cutset)
      | (_, false) => Unresolved key
      end
  | _, _ => Ignore
  end.

(** The loop [for _, envVar := range os.Environ()] filling [m]. *)
Fixpoint scan (o : EnvOptions) (environ : list string) (m : gmap string string)
  : outcome (gmap string string) :=
  match environ with
  | [] => Ok m
  | envVar :: rest =>
      match classify o envVar with
      | Ignore => scan o rest m
      | Unresolved key =>
          if negb (Strict o) then scan o rest m
          else Err (NotFoundError key)
      | Assign k value => scan o rest (<[k := value]> m)
      end
  end.

(** [sort.Strings]: the keys in ascending byte-wise order ([String.le] is
    the order of [String.leb]).  Every sorting algorithm gives the same
    list; stdpp's merge sort stands for Go's. *)
Definition sort_Strings (l : list string) : list string :=
  merge_sort String.le l.

(** Byte-wise [s1 < s2], Go's [<] on strings. *)
Definition string_lt (s1 s2 : string) : Prop := String.ltb s1 s2 = true.

(** The entry passes the prefix filter and its key is not in the index. *)
Definition is_unresolved (o : EnvOptions) (envVar : string) : bool :=
  match classify o envVar with
  | Unresolved _ => true
  | _ => false
  end.

(** The entry assigns to some path. *)
Definition is_assign (o : EnvOptions) (envVar : string) : bool :=
  match classify o envVar with
  | Assign _ _ => true
  | _ => false
  end.

Section EnvSet.

Context {T V : Type}.

(** Collaborators: [lookup.Set(value, k, v)] of github.com/zauberhaus/lookup,
    as the record after the update or the error (a failed call is taken to
    leave the record as it was); the conversion of a Go string to [any];
    the snake case of [stringy]. *)
Variable lookup_Set : T -> string -> V -> outcome T.
Variable StringValue : string -> V.
Variable stringy_SnakeCase_ToUpper : string -> string.

(** The loop [for _, k := range keys] applying [m] to the record. *)
Fixpoint apply_keys (strict : bool) (m : gmap string string) (value : T)
    (keys : list string) : outcome T :=
  match keys with
  | [] => Ok value
  | k :: rest =>
      let v := default EmptyString (m !! k) in
      match lookup_Set value k (StringValue v) with
      | Ok value' => apply_keys strict m value' rest
      | Err (NotFoundError n) =>
          if negb strict then apply_keys strict m value rest
          else Err (NotFoundError n)
      | Err e => Err e
      | Panic => Panic
      end
  end.

(** The head of [Set]: the options applied, and the index built from the
    type when none was given. *)
Definition resolve_options (ty : index.rtype) (options : list Option)
  : outcome EnvOptions :=
  let o := apply_options options in
  if (size (Index o) =? 0)%nat then
    d ← index.New stringy_SnakeCase_ToUpper ty (Replacer o);
    Ok (WithIndex d o)
  else Ok o.

(** [Set[T](value, options...)], with [ty] the [reflect.Type] of [T] and
    [environ] the result of [os.Environ()].  On an error the Go function
    returns the zero [T]. *)
Definition Set_ (ty : index.rtype) (environ : list string) (value : T)
    (options : list Option) : outcome T :=
  o ← resolve_options ty options;
  m ← scan o environ ∅;
  let keys := sort_Strings (map_to_list m).*1 in
  apply_keys (Strict o) m value keys.

End EnvSet.

(** The byte [WithName] puts in the prefix for a byte of the name. *)
Definition prefix_char (c : ascii) : ascii :=
  if Ascii.eqb c "."%char || Ascii.eqb c "-"%char then "_"%char else strings.upper_char c.

(** The entry has a "=" and its name carries the prefix. *)
Definition passes_filter (prefix envVar : string) : bool :=
  match surviving_key prefix envVar with
  | Some _ => true
  | None => false
  end.

End env.

(** ** Package [flags] *)

Module flags.

(** What the code reads of a [*pflag.Flag]: its name, whether it was set
    explicitly, and the [Type()] and [String()] of its value. *)
Record pflag_Flag : Type := mkPFlag {
  Name : string;
  Changed : bool;
  ValueType : string;
  ValueString : string
}.

(** A [*pflag.FlagSet], read through [Lookup]: its flags by name. *)
Abbreviation FlagSet := (gmap string pflag_Flag).

(** A [*cobra.Command], as far as [BindCmdFlag] reads it. *)
Record Command : Type := mkCommand {
  Use : string;
  PersistentFlags : FlagSet;
  LocalFlags : FlagSet            (* [cmd.Flags()] *)
}.

Record Flag : Type := mkFlag {
  fs : FlagSet;
  flag : pflag_Flag;
  parent : string;
  persistent : bool
}.

Record Flags : Type := mkFlags {
  flags : gmap string Flag;
  dict : gmap string index.Item
}.

Definition NewFlagList (dict : gmap string index.Item) : Flags :=
  mkFlags ∅ dict.

Definition dquote : string := String "034"%char EmptyString.

(** The tail of [BindCmdFlag]: the target is resolved against the index when
    the flag list has a non-empty one, and only lower-cased otherwise. *)
Definition resolve_target (dict : gmap string index.Item) (target : string)
  : outcome string :=
  if (0 <? size dict)%nat then
    match index.Find dict target with
    | (t, true) => Ok t
    | (_, false) =>
        let t := strings.ToLower target in
        if negb (index.PathExists dict t)
        then Err (Errorf ("target field not found: " ++ target))
        else Ok t
    end
  else Ok (strings.ToLower target).

(** [BindCmdFlag]; a nil [cmd] is [None].  The updated flag list is the
    result. *)
Definition BindCmdFlag (f : Flags) (cmd : option Command) (target source : string)
  : outcome Flags :=
  if (String.length target =? 0)%nat then Err (Errorf "empty target name")
  else match cmd with
  | None => Err (Errorf "bind command is nil")
  | Some cmd =>
      let found :=
        match PersistentFlags cmd !! source with
        | Some val => Some (PersistentFlags cmd, val, true)
        | None =>
            match LocalFlags cmd !! source with
            | Some val => Some (LocalFlags cmd, val, false)
            | None => None
            end
        end in
      match found with
      | None =>
          Err (Errorf ("source flag not found: " ++ source ++ " -> " ++ target))
      | Some (fs, flag, persistent) =>
          target ← resolve_target (dict f) target;
          Ok (mkFlags (<[target := mkFlag fs flag (Use cmd) persistent]> (flags f))
                      (dict f))
      end
  end.

(** [BindFlag]; a nil [flag] is [None]. *)
Definition BindFlag (f : Flags) (fs : FlagSet) (target : string)
    (flag : option pflag_Flag) : outcome Flags :=
  if (String.length target =? 0)%nat then Err (Errorf "empty target name")
  else match flag with
  | None => Err (Errorf ("flag " ++ dquote ++ target ++ dquote ++ " not found"))
  | Some flag =>
      let target := strings.ToLower target in
      Ok (mkFlags (<[target := mkFlag fs flag "" false]> (flags f)) (dict f))
  end.

(** The value kinds [getValue] reads through a typed accessor. *)
Definition typed_kinds : list string :=
  [ "string"; "bool"; "int"; "stringSlice"; "boolSlice"; "intSlice";
    "durationSlice"; "ipSlice"; "int8"; "int16"; "int32"; "int64"; "uint";
    "uint8"; "uint16"; "uint32"; "uint64"; "float32"; "float64"; "duration";
    "ip" ].

(** The entry's flag was set explicitly. *)
Definition is_changed (kv : string * Flag) : bool :=
  Changed (flag (snd kv)).

Section SetFlags.

Context {T V : Type}.

(** Collaborators: [lookup.Set]; the typed accessors of pflag
    ([fs.GetString(name)], [fs.GetInt(name)], ...), by kind; the conversion
    of a Go string to [any]. *)
Variable lookup_Set : T -> string -> V -> outcome T.
Variable fs_Get : FlagSet -> string -> string -> outcome V.
Variable StringValue : string -> V.

Definition getValue (f : Flag) : outcome V :=
  let kind := ValueType (flag f) in
  if existsb (String.eqb kind) typed_kinds
  then fs_Get (fs f) kind (Name (flag f))
  else Ok (StringValue (ValueString (flag f))).

(** The body of [for k, v := range f.flags], run over the entries in the
    order [entries] in which the map is visited. *)
Fixpoint apply_flags (value : T) (entries : list (string * Flag)) : outcome T :=
  match entries with
  | [] => Ok value
  | (k, v) :: rest =>
      if Changed (flag v) then
        val ← getValue v;
        value' ← lookup_Set value k val;
        apply_flags value' rest
      else apply_flags value rest
  end.

(** [SetFlags(value, f)].  Go visits a map in an unspecified order; [range]
    gives the order of this run, a permutation of the map's entries.  The
    record after the updates stands for the Go result [nil]. *)
Definition SetFlags (range : gmap string Flag -> list (string * Flag))
    (value : T) (f : Flags) : outcome T :=
  apply_flags value (range (flags f)).

End SetFlags.

End flags.

(** ** Package [config] *)

Module config.

Inductive FileType : Type :=
| UnknownFileType
| JSON
| YAML.

Record Extension : Type := mkExtension {
  ExtName : string;
  ExtFileType : FileType
}.

Definition extensions : list Extension :=
  [ mkExtension ".json" JSON; mkExtension ".yaml" YAML; mkExtension ".yml" YAML ].

Record ConfigOptions : Type := mkConfigOptions {
  File : string;
  FileType_ : FileType;
  Name : string;
  Paths : list string;
  Strict : bool;
  Index : gmap string index.Item;
  Flags : option flags.Flags;
  Extensions : list Extension;
  Replacer : list (string * string)
}.

Definition Option : Type := ConfigOptions -> ConfigOptions.

Definition set_File (val : string) (ft : FileType) : Option := fun o =>
  mkConfigOptions val ft (Name o) (Paths o) (Strict o) (Index o) (Flags o)
    (Extensions o) (Replacer o).
Definition WithFile (val : string) : Option := fun o => set_File val (FileType_ o) o.
Definition WithPaths (val : list string) : Option := fun o =>
  mkConfigOptions (File o) (FileType_ o) (Name o) val (Strict o) (Index o) (Flags o)
    (Extensions o) (Replacer o).
Definition WithName (val : string) : Option := fun o =>
  mkConfigOptions (File o) (FileType_ o) val (Paths o) (Strict o) (Index o) (Flags o)
    (Extensions o) (Replacer o).
Definition WithIndex (val : gmap string index.Item) : Option := fun o =>
  mkConfigOptions (File o) (FileType_ o) (Name o) (Paths o) (Strict o) val (Flags o)
    (Extensions o) (Replacer o).
Definition WithReplacer (m : list (string * string)) : Option := fun o =>
  mkConfigOptions (File o) (FileType_ o) (Name o) (Paths o) (Strict o) (Index o)
    (Flags o) (Extensions o) m.
Definition WithFlags (val : flags.Flags) : Option := fun o =>
  mkConfigOptions (File o) (FileType_ o) (Name o) (Paths o) (Strict o) (Index o)
    (Some val) (Extensions o) (Replacer o).
Definition WithExtensions (val : list Extension) : Option := fun o =>
  mkConfigOptions (File o) (FileType_ o) (Name o) (Paths o) (Strict o) (Index o)
    (Flags o) val (Replacer o).
Definition WithExtension (ext : string) (fileType : FileType) : Option :=
  WithExtensions [mkExtension ext fileType].
Definition StrictOption : Option := fun o =>
  mkConfigOptions (File o) (FileType_ o) (Name o) (Paths o) true (Index o) (Flags o)
    (Extensions o) (Replacer o).

Definition apply_options (options : list Option) : ConfigOptions :=
  fold_left (fun o opt => opt o) options
    (mkConfigOptions "" UnknownFileType "" [] false ∅ None [] []).

Definition GetFileType (name : string) (ext : list Extension) : FileType :=
  let ext := if (length ext =? 0)%nat then extensions else ext in
  match List.find (fun v => strings.HasSuffix name (ExtName v)) ext with
  | Some v => ExtFileType v
  | None => UnknownFileType
  end.

(** The process and the file system around one call of [Load]. *)
Record World : Type := mkWorld {
  Environ : list string;                     (* [os.Environ()] *)
  Getenv : string -> string;                 (* [os.Getenv] *)
  Clean : string -> string;                  (* [filepath.Clean] *)
  Abs : string -> outcome string;            (* [filepath.Abs] *)
  (** the search of [findConfigFile] through the working directory, the
      given paths and the home directory for [name] with a known extension;
      finding nothing is [Ok ("", UnknownFileType)] *)
  search : list string -> string -> list Extension -> outcome (string * FileType);
  ReadFile : string -> outcome string        (* [os.ReadFile] *)
}.

(** [findConfigFile(o)]: the options as it leaves them (it fills in
    [Extensions] and [Name]) and its result. *)
Definition findConfigFile (w : World) (o : ConfigOptions)
  : ConfigOptions * outcome (string * FileType) :=
  let o := if (length (Extensions o) =? 0)%nat then WithExtensions extensions o else o in
  let o := if String.eqb (Name o) "" then WithName "config" o else o in
  let tmp := Getenv w "CONFIG" in
  if negb (String.eqb tmp "") then
    if strings.Contains tmp ".."
    then (o, Err (Errorf ("path traversal attempt: '" ++ tmp ++ "'")))
    else
      let fp := Clean w tmp in
      match Abs w fp with
      | Ok name =>
          match GetFileType name (Extensions o) with
          | UnknownFileType => (o, Err (Errorf ("unknown file type: " ++ name)))
          | ft => (o, Ok (name, ft))
          end
      | _ => (o, Err (Errorf ("invalid path '" ++ fp ++ "'")))
      end
  else (o, search w (Paths o) (Name o) (Extensions o)).

(** What [Load] returns: the record and the file used, or the file string
    and the error (the record is then nil). *)
Inductive LoadResult (T : Type) : Type :=
| Loaded (cfg : T) (file : string)
| Failed (file : string) (err : error)
| Panicked.
Arguments Loaded {T} cfg file.
Arguments Failed {T} file err.
Arguments Panicked {T}.

(** [x, err := ...; if err != nil { return nil, file, err }] *)
Definition try {A T : Type} (x : outcome A) (file : string) (k : A -> LoadResult T)
  : LoadResult T :=
  match x with
  | Ok a => k a
  | Err e => Failed file e
  | Panic => Panicked
  end.

(** The value of the highest layer that says something: flag, then
    environment, then file, then default. *)
Definition layered {V : Type} (flag env file dflt : option V) : option V :=
  match flag, env, file with
  | Some v, _, _ => Some v
  | None, Some v, _ => Some v
  | None, None, Some v => Some v
  | None, None, None => dflt
  end.

Section Load.

Context {T V : Type}.

(** The target type: its zero value and its [reflect.Type]. *)
Variable zero : T.
Variable ty : index.rtype.

(** Collaborators, each as the record after the call or the error:
    [defaults.Set], the two codecs, and [lookup.Set], [lookup.Exists],
    [lookup.Create]; further the typed accessors of pflag, the conversion
    of a Go string to [any], the snake case of [stringy], and the orders in
    which this run visits the index and the flag map. *)
Variable defaults_Set : T -> outcome T.
Variable json_Unmarshal : string -> T -> outcome T.
Variable yaml_Unmarshal : string -> T -> outcome T.
Variable lookup_Set : T -> string -> V -> outcome T.
Variable lookup_Exists : T -> string -> outcome bool.
Variable lookup_Create : T -> string -> outcome T.
Variable fs_Get : flags.FlagSet -> string -> string -> outcome V.
Variable StringValue : string -> V.
Variable stringy_SnakeCase_ToUpper : string -> string.
Variable range_index : gmap string index.Item -> list (string * index.Item).
Variable range_flags : gmap string flags.Flag -> list (string * flags.Flag).

(** The [switch o.FileType] around the codecs. *)
Definition unmarshal (o : ConfigOptions) (data : string) (cfg : T) : outcome T :=
  match FileType_ o with
  | JSON => json_Unmarshal data cfg
  | YAML => yaml_Unmarshal data cfg
  | UnknownFileType => Err (Errorf ("unknown file type: " ++ File o))
  end.

(** [for _, v := range o.Index { if v.Optional { optional = append(optional, v.Path) } }] *)
Definition optional_paths (idx : gmap string index.Item) : list string :=
  map (fun kv => index.Path (snd kv))
      (List.filter (fun kv => index.Optional (snd kv)) (range_index idx)).

(** The optional paths that exist on [cfg], in the order of [optional]. *)
Fixpoint changed_paths (cfg : T) (optional : list string) : outcome (list string) :=
  match optional with
  | [] => Ok []
  | v :: rest =>
      ok ← lookup_Exists cfg v;
      changed ← changed_paths cfg rest;
      Ok (if ok : bool then v :: changed else changed)
  end.

Fixpoint create_all (tmp : T) (changed : list string) : outcome T :=
  match changed with
  | [] => Ok tmp
  | v :: rest => tmp' ← lookup_Create tmp v; create_all tmp' rest
  end.

(** Step 1: the file to load, explicit or discovered, and its kind.  An
    explicit file is typed by the built-in [extensions]. *)
Definition resolve_file (w : World) (o : ConfigOptions) : outcome ConfigOptions :=
  if String.eqb (File o) "" then
    match findConfigFile w o with
    | (o, Ok (f, ft)) => Ok (set_File f ft o)
    | (_, Err e) => Err e
    | (_, Panic) => Panic
    end
  else if strings.Contains (File o) ".."
  then Err (Errorf ("path traversal attempt: '" ++ File o ++ "'"))
  else Ok (set_File (File o) (GetFileType (File o) extensions) o).

(** Step 3: the index, built from the type unless one was given. *)
Definition resolve_index (o : ConfigOptions) : outcome ConfigOptions :=
  if (size (Index o) =? 0)%nat then
    d ← index.New stringy_SnakeCase_ToUpper ty (Replacer o);
    Ok (WithIndex d o)
  else Ok o.

(** Steps 5 and 6: read and decode the file, then, when the file brought
    optional substructures into existence, decode it a second time into a
    fresh record with defaults in which those substructures were created. *)
Definition load_file (w : World) (o : ConfigOptions) (optional : list string) (cfg : T)
    (k : T -> LoadResult T) : LoadResult T :=
  try (ReadFile w (File o)) (File o) (fun data =>
  try (unmarshal o data cfg) (File o) (fun cfg =>
  if (0 <? length optional)%nat then
    try (changed_paths cfg optional) "" (fun changed =>
    if (0 <? length changed)%nat then
      try (defaults_Set zero) "" (fun tmp =>
      try (create_all tmp changed) "" (fun tmp =>
      try (unmarshal o data tmp) (File o) (fun tmp =>
      k tmp)))
    else k cfg)
  else k cfg)).

Definition file_layer (w : World) (o : ConfigOptions) (cfg : T)
    (k : T -> LoadResult T) : LoadResult T :=
  if (0 <? String.length (File o))%nat
  then load_file w o (optional_paths (Index o)) cfg k
  else k cfg.

(** The options [Load] hands to [env.Set]. *)
Definition env_options (o : ConfigOptions) : list env.Option :=
  [ env.WithName (Name o); env.WithStrict (Strict o); env.WithIndex (Index o) ].

(** Step 7. *)
Definition env_layer (w : World) (o : ConfigOptions) (cfg : T)
    (k : T -> LoadResult T) : LoadResult T :=
  if (0 <? String.length (Name o))%nat then
    try (env.Set_ lookup_Set StringValue stringy_SnakeCase_ToUpper ty (Environ w) cfg
           (env_options o)) (File o) k
  else k cfg.

(** Steps 8 and 9. *)
Definition flag_layer (o : ConfigOptions) (cfg : T) : LoadResult T :=
  match Flags o with
  | Some f =>
      try (flags.SetFlags lookup_Set fs_Get StringValue range_flags cfg f) (File o)
          (fun cfg => Loaded cfg (File o))
  | None => Loaded cfg (File o)
  end.

(** [Load[P, T](options...)]. *)
Definition Load (w : World) (options : list Option) : LoadResult T :=
  try (resolve_file w (apply_options options)) "" (fun o =>
  try (defaults_Set zero) "" (fun cfg =>
  try (resolve_index o) "" (fun o =>
  file_layer w o cfg (fun cfg =>
  env_layer w o cfg (fun cfg =>
  flag_layer o cfg))))).

(** *** What the layers say about a path

    The options as [Load] resolves them, the assignments the environment
    layer collects, and the value of the explicitly set flag bound to a
    path. *)
Definition Load_options (w : World) (options : list Option) : outcome ConfigOptions :=
  o ← resolve_file w (apply_options options); resolve_index o.

Definition env_assignments (w : World) (o : ConfigOptions) : gmap string string :=
  if (0 <? String.length (Name o))%nat then
    match eo ← env.resolve_options stringy_SnakeCase_ToUpper ty (env_options o);
          env.scan eo (Environ w) ∅ with
    | Ok m => m
    | _ => ∅
    end
  else ∅.

Definition env_says (w : World) (o : ConfigOptions) (p : string) : option V :=
  StringValue <$> env_assignments w o !! p.

Definition changed_flag (o : ConfigOptions) (p : string) : option flags.Flag :=
  match Flags o with
  | Some f =>
      match flags.flags f !! p with
      | Some fl => if flags.Changed (flags.flag fl) then Some fl else None
      | None => None
      end
  | None => None
  end.

Definition flag_says (o : ConfigOptions) (p : string) : option V :=
  match changed_flag o p with
  | Some fl =>
      match flags.getValue fs_Get StringValue fl with
      | Ok v => Some v
      | _ => None
      end
  | None => None
  end.

(** The environment or an explicitly set flag assigns to the path [q]. *)
Definition touched (w : World) (o : ConfigOptions) (q : string) : Prop :=
  is_Some (env_assignments w o !! q) \/ is_Some (changed_flag o q).

(** *** The record between the layers

    [after_file w o cfg0 cfg1]: the file layer takes [cfg0] to [cfg1], either
    by one decoding, when the file brings no optional path into existence,
    or by the reload on a fresh record [tmp] with defaults in which the
    optional paths [changed], those that exist after the first decoding,
    were created. *)
Definition after_file (w : World) (o : ConfigOptions) (cfg0 cfg1 : T) : Prop :=
  if (0 <? String.length (File o))%nat then
    exists data first,
      ReadFile w (File o) = Ok data /\
      unmarshal o data cfg0 = Ok first /\
      ((cfg1 = first /\
        (optional_paths (Index o) = [] \/
         changed_paths first (optional_paths (Index o)) = Ok [])) \/
       (exists changed tmp base,
          changed_paths first (optional_paths (Index o)) = Ok changed /\
          changed <> [] /\
          defaults_Set zero = Ok tmp /\
          create_all tmp changed = Ok base /\
          unmarshal o data base = Ok cfg1))
  else cfg1 = cfg0.

Definition after_env (w : World) (o : ConfigOptions) (cfg1 cfg2 : T) : Prop :=
  if (0 <? String.length (Name o))%nat then
    env.Set_ lookup_Set StringValue stringy_SnakeCase_ToUpper ty (Environ w) cfg1
      (env_options o) = Ok cfg2
  else cfg2 = cfg1.

Definition after_flags (o : ConfigOptions) (cfg2 cfg : T) : Prop :=
  match Flags o with
  | Some f => flags.SetFlags lookup_Set fs_Get StringValue range_flags cfg2 f = Ok cfg
  | None => cfg = cfg2
  end.

(** *** Contracts of the collaborators, for one path

    [holds t p v]: the field of the record [t] at the path [p] holds the
    value [v] (a text or a typed value, as the path setter coerces it). *)
Variable holds : T -> string -> V -> Prop.

(** The path setter on [p]: a successful call leaves the value in place,
    [p] is a path of the record, and the other paths that the environment
    or a flag assigns to do not overlap [p]. *)
Record path_setter (w : World) (o : ConfigOptions) (p : string) : Prop := {
  setter_holds : forall t v t', lookup_Set t p v = Ok t' -> holds t' p v;
  setter_found : forall t v n, lookup_Set t p v <> Err (NotFoundError n);
  setter_frame : forall q, q <> p -> touched w o q ->
    forall t x t' v, lookup_Set t q x = Ok t' -> holds t p v -> holds t' p v
}.

(** The default setter, the path creator and the codec on [p], a path
    outside the optional substructures, with [default_says] its default
    literal and [file_says] the value the resolved file gives it, if any. *)
Record lower_layers (w : World) (o : ConfigOptions) (p : string)
    (default_says file_says : option V) : Prop := {
  default_holds : forall v t,
    default_says = Some v -> defaults_Set zero = Ok t -> holds t p v;
  create_frame : forall q t t' v,
    q ∈ optional_paths (Index o) ->
    lookup_Create t q = Ok t' -> holds t p v -> holds t' p v;
  file_loaded : forall v,
    file_says = Some v -> (0 <? String.length (File o))%nat = true;
  file_holds : forall v data t t',
    file_says = Some v -> ReadFile w (File o) = Ok data ->
    unmarshal o data t = Ok t' -> holds t' p v;
  file_frame : forall data t t' v,
    file_says = None -> ReadFile w (File o) = Ok data ->
    unmarshal o data t = Ok t' -> holds t p v -> holds t' p v
}.

(** An optional substructure [s] that no layer mentions: the default
    setter does not allocate it, and neither do the codec on the resolved
    file, the creation of a substructure that can exist while [s] is nil,
    or the path setter on the paths the environment and the flags assign
    to. *)
Record untouched_optional (w : World) (o : ConfigOptions) (s : string) : Prop := {
  nil_default : forall t, defaults_Set zero = Ok t -> lookup_Exists t s = Ok false;
  nil_file : forall data t t',
    ReadFile w (File o) = Ok data -> unmarshal o data t = Ok t' ->
    lookup_Exists t s = Ok false -> lookup_Exists t' s = Ok false;
  nil_create : forall q first t t',
    lookup_Exists first q = Ok true -> lookup_Exists first s = Ok false ->
    lookup_Create t q = Ok t' ->
    lookup_Exists t s = Ok false -> lookup_Exists t' s = Ok false;
  nil_set : forall q, touched w o q ->
    forall t x t', lookup_Set t q x = Ok t' ->
    lookup_Exists t s = Ok false -> lookup_Exists t' s = Ok false
}.

(** An optional substructure [s] that the resolved file populates, and a
    field [q] of it: the default setter leaves [s] nil; decoding the file
    brings [s] into existence; creating an optional path on a record where
    [s] is nil either leaves it nil or leaves [q] at its default literal,
    the latter when the path is [s] itself; creating one where [q] holds a
    value keeps it; the codec gives [q] the file's value or leaves it. *)
Record populated_optional (w : World) (o : ConfigOptions) (s q : string)
    (default_says file_says : option V) : Prop := {
  pop_optional : s ∈ optional_paths (Index o);
  pop_file : (0 <? String.length (File o))%nat = true;
  pop_default_nil : forall t, defaults_Set zero = Ok t -> lookup_Exists t s = Ok false;
  pop_decoded : forall data t t',
    ReadFile w (File o) = Ok data -> unmarshal o data t = Ok t' ->
    lookup_Exists t' s = Ok true;
  pop_create_self : forall t t' v,
    default_says = Some v -> lookup_Exists t s = Ok false ->
    lookup_Create t s = Ok t' -> holds t' q v;
  pop_create_other : forall q' t t' v,
    q' ∈ optional_paths (Index o) -> q' <> s -> default_says = Some v ->
    lookup_Exists t s = Ok false -> lookup_Create t q' = Ok t' ->
    lookup_Exists t' s = Ok false \/ holds t' q v;
  pop_create_frame : forall q' t t' v,
    q' ∈ optional_paths (Index o) ->
    lookup_Create t q' = Ok t' -> holds t q v -> holds t' q v;
  pop_file_holds : forall v data t t',
    file_says = Some v -> ReadFile w (File o) = Ok data ->
    unmarshal o data t = Ok t' -> holds t' q v;
  pop_file_frame : forall data t t' v,
    file_says = None -> ReadFile w (File o) = Ok data ->
    unmarshal o data t = Ok t' -> holds t q v -> holds t' q v
}.

End Load.

End config.

(** ** Types and indexes of the repository's tests, and small ones *)

Module examples.
Import index.

Definition t_string : rtype := Leaf "string" false.
Definition t_int : rtype := Leaf "int" false.
Definition t_bool : rtype := Leaf "bool" false.
(** [net.IP]: a byte slice whose pointer type decodes from text. *)
Definition t_IP : rtype := Slice true (Leaf "uint8" false).

Definition plain (name : string) (t : rtype) : StructField := Field name "" "" t.

(** [IndexTestConfig] of index_test.go. *)
Definition IndexTestConfig : rtype :=
  Struct false
    [ plain "Server" (Struct false
        [ plain "Host" t_string;
          plain "Port" t_int;
          Field "WhiteList" "" "WL" (Slice false t_IP);
          plain "Route" (Map false t_int t_IP);
          plain "Flags" (Array false 2 t_bool);
          plain "VeryLongName" t_bool;
          plain "APIUrl" t_string;
          plain "Settings" (Slice false (Struct false
            [ plain "Name" t_string;
              plain "Value" t_int;
              plain "Tags" (Map false t_string t_string) ]));
          Field "Settings2" "" "-" (Struct false [ plain "Name" t_string ]);
          Field "Settings3" "" "--" (Struct false [ plain "Name" t_string ]);
          Field "hidden" "index_test" "" t_string;
          Field "Hidden" "" "-" t_string ]);
      plain "Db" (Struct false
        [ plain "User" t_string;
          plain "Tags" (Map false t_string t_string) ]) ].

Definition IndexTestConfig_index : gmap string Item :=
  match New stringy.SnakeCase_ToUpper IndexTestConfig [("API", "Api")] with
  | Ok m => m
  | _ => ∅
  end.

(** [InvalidConfig] of [TestNewIndex_Error]: a flattened slice of records. *)
Definition InvalidConfig : rtype :=
  Struct false
    [ plain "Top" (Struct false
        [ Field "Nested" "" "-" (Slice false (Struct false [ plain "Name" t_string ])) ]) ].

(** [struct { Hidden []string `env:"-"` }]: a flattened slice of scalars. *)
Definition FlattenedStrings : rtype :=
  Struct false [ Field "Hidden" "" "-" (Slice false t_string) ].

(** [struct { F int `env:"F[]"` }] *)
Definition TaggedPlaceholder : rtype :=
  Struct false [ Field "F" "" "F[]" t_int ].

(** [struct { G int `env:"A[X]"` }] *)
Definition TaggedGroup : rtype :=
  Struct false [ Field "G" "" "A[X]" t_int ].

(** Two hand-written indexes whose keys and paths disagree on the number
    of placeholders. *)
Definition surplus_index : gmap string Item :=
  {[ "A[][]" := mkItem "a[]" t_int false ]}.
Definition deficit_index : gmap string Item :=
  {[ "A[]" := mkItem "a[].b[]" t_int false ]}.

(** [TestLoadConfig] of config_test.go. *)
Definition TestLoadConfig : rtype :=
  Struct false
    [ plain "Host" t_string;
      plain "Port" t_int;
      plain "Enabled" t_bool;
      plain "Sub" (Struct false [ plain "Name" t_string ]);
      plain "Sub2" (Pointer (Struct false [ plain "Name" t_string; plain "Other" t_string ]));
      plain "Slice" (Slice false t_string) ].

Definition TestLoadConfig_index : gmap string Item :=
  match New stringy.SnakeCase_ToUpper TestLoadConfig [] with
  | Ok m => m
  | _ => ∅
  end.

(** *** Stand-ins for the collaborators, on [TestLoadConfig]

    A record is seen through its paths: the text each leaf holds (an absent
    leaf is zero), and the key "sub2" present exactly when the pointer
    [Sub2] is allocated.  Values of type [any] are texts.  A file is a list
    of [path=value] entries separated by ";". *)

Definition leaves : list string :=
  [ "host"; "port"; "enabled"; "sub.name"; "sub2.name"; "sub2.other"; "slice" ].

Definition is_leaf (p : string) : bool := existsb (String.eqb p) leaves.

Definition in_sub2 (p : string) : bool := strings.HasPrefix p "sub2.".

(** Fill a leaf that is still zero. *)
Definition set_default (p v : string) (t : gmap string string) : gmap string string :=
  match t !! p with
  | Some _ => t
  | None => <[p := v]> t
  end.

(** The codecs allocate [Sub2] as a zero record. *)
Definition alloc_raw (t : gmap string string) : gmap string string :=
  set_default "sub2" EmptyString t.

(** The path library allocates it with its default literals. *)
Definition alloc_defaulted (t : gmap string string) : gmap string string :=
  match t !! "sub2" with
  | Some _ => t
  | None => <["sub2.other" := "sub2-default"]> (<["sub2" := EmptyString]> t)
  end.

(** [defaults.Set]: the literals of the leaves that exist; [Sub2] is not
    allocated. *)
Definition store_defaults (t : gmap string string) : outcome (gmap string string) :=
  let t := set_default "host" "localhost" t in
  let t := set_default "port" "8080" t in
  let t := set_default "enabled" "true" t in
  let t := set_default "sub.name" "sub-default" t in
  Ok (if bool_decide (is_Some (t !! "sub2"))
      then set_default "sub2.other" "sub2-default" t else t).

Definition store_Set (t : gmap string string) (p v : string)
  : outcome (gmap string string) :=
  if is_leaf p
  then Ok (<[p := v]> (if in_sub2 p then alloc_defaulted t else t))
  else Err (NotFoundError p).

Definition store_Exists (t : gmap string string) (p : string) : outcome bool :=
  if String.eqb p "sub2" then Ok (bool_decide (is_Some (t !! "sub2")))
  else if is_leaf p then Ok true
  else Err (NotFoundError p).

Definition store_Create (t : gmap string string) (p : string)
  : outcome (gmap string string) :=
  if String.eqb p "sub2" then Ok (alloc_defaulted t)
  else Err (NotFoundError p).

Fixpoint split_on (c : ascii) (s : string) : list string :=
  match s with
  | EmptyString => [EmptyString]
  | String a r =>
      if Ascii.eqb a c then EmptyString :: split_on c r
      else match split_on c r with
           | x :: xs => String a x :: xs
           | [] => [String a EmptyString]
           end
  end.

(** What a file says: its entries, or nothing when an entry is malformed. *)
Fixpoint parse_entries (l : list string) : option (list (string * string)) :=
  match l with
  | [] => Some []
  | e :: r =>
      match strings.cut_at "="%char e, parse_entries r with
      | Some kv, Some kvs => Some (kv :: kvs)
      | _, _ => None
      end
  end.

Definition parse_file (data : string) : option (list (string * string)) :=
  parse_entries (split_on ";"%char data).

Definition assign (t : gmap string string) (kv : string * string)
  : gmap string string :=
  if is_leaf (fst kv)
  then <[fst kv := snd kv]> (if in_sub2 (fst kv) then alloc_raw t else t)
  else t.

(** Both codecs: the entries written over the record, later ones last. *)
Definition store_Unmarshal (data : string) (t : gmap string string)
  : outcome (gmap string string) :=
  match parse_file data with
  | Some kvs => Ok (fold_left assign kvs t)
  | None => Err (Foreign "unexpected end of JSON input")
  end.

(** Typed flag accessors: the flag's text, when the set defines the flag. *)
Definition store_fs_Get (fs : gmap string flags.pflag_Flag) (kind name : string)
  : outcome string :=
  match fs !! name with
  | Some fl => Ok (flags.ValueString fl)
  | None => Err (Foreign "flag accessed but not defined")
  end.

(** The environment of [TestSetEnv_MalformedKey], and the options of its
    strict call with the index resolved. *)
Definition malformed_environ : list string :=
  [ "APP_SERVER_INVALID_FIELD=some_value" ].

Definition IndexTestConfig_plain_index : gmap string Item :=
  match New stringy.SnakeCase_ToUpper IndexTestConfig [] with
  | Ok m => m
  | _ => ∅
  end.

Definition strict_app_options : env.EnvOptions :=
  env.mkEnvOptions "APP_" true IndexTestConfig_plain_index [].

(** An environment for [TestLoadConfig] under the name "app". *)
Definition app_environ : list string :=
  [ "APP_PORT=9999 "; "OTHER=1"; "APP_  sub_NAME  = x "; "APP_HOST=h" ].

Definition app_options : env.EnvOptions :=
  env.mkEnvOptions "APP_" false TestLoadConfig_index [].

Definition app_assignments : gmap string string :=
  {[ "port" := "9999"; "sub.name" := "x"; "host" := "h" ]}.

(** [otherStruct] of [TestFlags_BindCmdFlag], its index, and the command
    and flag of that test. *)
Definition OtherStruct : rtype :=
  Struct false [ plain "SomeOtherKey" t_string ].

Definition OtherStruct_index : gmap string Item :=
  {[ "SOME_OTHER_KEY" := mkItem "someotherkey" t_string false ]}.

Definition source_flag : flags.pflag_Flag :=
  flags.mkPFlag "source-flag" false "string" "default".

Definition test_cmd : flags.Command :=
  flags.mkCommand EmptyString
    {[ "source-flag" := source_flag ]}
    {[ "local-flag" := flags.mkPFlag "local-flag" false "string" "local-default" ]}.

(** *** A world and loads of config_test.go

    The search finds the file [my-app.json] for the name "my-app" (and "sub2.json" for
    "sub2") and nothing for other names; reading gives the file's entries. *)
Definition test_files : list (string * string * string) :=
  [ ("my-app", "/tmp/my-app.json", "host=json.host.com;port=9090;sub.name=json-sub");
    ("sub2", "/tmp/sub2.json", "sub2.name=new name") ].

Definition test_search (paths : list string) (name : string)
    (exts : list config.Extension) : outcome (string * config.FileType) :=
  match List.find (fun f => String.eqb name (fst (fst f))) test_files with
  | Some f => Ok (snd (fst f), config.GetFileType (snd (fst f)) exts)
  | None => Ok (EmptyString, config.UnknownFileType)
  end.

Definition test_ReadFile (file : string) : outcome string :=
  match List.find (fun f => String.eqb file (snd (fst f))) test_files with
  | Some f => Ok (snd f)
  | None => Err (Foreign "no such file or directory")
  end.

Definition test_world (environ : list string) : config.World :=
  config.mkWorld environ (fun _ => EmptyString) (fun s => s) (fun s => Ok s)
    test_search test_ReadFile.

(** [config.Load[*TestLoadConfig]] with the stand-ins; maps are visited in
    the order of [map_to_list]. *)
Definition test_Load (w : config.World) (options : list config.Option)
  : config.LoadResult (gmap string string) :=
  config.Load ∅ TestLoadConfig store_defaults store_Unmarshal store_Unmarshal
    store_Set store_Exists store_Create store_fs_Get id stringy.SnakeCase_ToUpper
    map_to_list map_to_list w options.

(** The flag set and the binding of the test
    "precedence: default < file < env < flag". *)
Definition port_flag (changed : bool) (text : string) : flags.pflag_Flag :=
  flags.mkPFlag "port" changed "int" text.

Definition port_flagset (changed : bool) (text : string) : gmap string flags.pflag_Flag :=
  {[ "port" := port_flag changed text ]}.

Definition port_binding (changed : bool) (text : string) : flags.Flags :=
  match flags.BindFlag (flags.NewFlagList ∅) (port_flagset changed text) "Port"
          (Some (port_flag changed text)) with
  | Ok f => f
  | _ => flags.NewFlagList ∅
  end.

(** The options of a call as [Load] resolves them, and the record it
    returns. *)
Definition resolved (w : config.World) (call : list config.Option)
  : config.ConfigOptions :=
  match config.Load_options TestLoadConfig stringy.SnakeCase_ToUpper w call with
  | Ok o => o
  | _ => config.apply_options call
  end.

Definition loaded (w : config.World) (call : list config.Option) : gmap string string :=
  match test_Load w call with
  | config.Loaded cfg _ => cfg
  | _ => ∅
  end.

(** The loads of "precedence: default < file < env < flag", with the flag
    set explicitly or not, and of "default value for struct pointer". *)
Definition precedence_world : config.World := test_world [ "MY_APP_PORT=9999" ].

Definition precedence_call (changed : bool) : list config.Option :=
  [ config.WithName "my-app"; config.WithFlags (port_binding changed "12345") ].

Definition precedence_options : config.ConfigOptions :=
  resolved precedence_world (precedence_call true).

Definition pointer_world : config.World := test_world [].

Definition pointer_call : list config.Option := [ config.WithName "sub2" ].

Definition pointer_options : config.ConfigOptions := resolved pointer_world pointer_call.

(** The field at the path [p] holds the text [v]; a field of [Sub2] holds
    something only when [Sub2] is allocated. *)
Definition store_holds (t : gmap string string) (p v : string) : Prop :=
  t !! p = Some v /\ (in_sub2 p = true -> is_Some (t !! "sub2")).

(** The flag list of [TestFlags_BindCmdFlag] after "SOME_OTHER_KEY" was
    bound to the flag "source-flag". *)
Definition bound_flags : flags.Flags :=
  flags.mkFlags
    {[ "someotherkey" :=
         flags.mkFlag (flags.PersistentFlags test_cmd) source_flag EmptyString true ]}
    OtherStruct_index.

(** A load from the explicit file [/tmp/my-app.json], and an environment
    that names fields without a prefix. *)
Definition explicit_call : list config.Option := [ config.WithFile "/tmp/my-app.json" ].

Definition bare_environ : list string := [ "PORT=1"; "HOST=x" ].

End examples.

(** * Properties *)

Import index.
Import strings (is_lbracket, is_rbracket).
#[local] Arguments String.append !_ _ / : simpl nomatch.

(** ** Text: placeholders, filling, the [braces] scan *)

Lemma append_assoc (a b c : string) : (a ++ b) ++ c = a ++ (b ++ c).
Proof. induction a as [|x a IH]; [done|]. cbn [String.append]. by rewrite IH. Qed.

Lemma fill_nil s : fill s [] = s.
Proof. by destruct s. Qed.

Lemma ReplaceFirst_fill s p :
  strings.ReplaceFirst s "[]" ("[" ++ p ++ "]") = fill s [p].
Proof.
  induction s as [|a r IH]; [done|].
  cbn [strings.ReplaceFirst fill strings.HasPrefix].
  destruct r as [|b r'].
  - by rewrite andb_false_r.
  - rewrite andb_true_r.
    destruct (is_lbracket a && is_rbracket b) eqn:E.
    + rewrite fill_nil. cbn [strings.drop String.length]. by rewrite !append_assoc.
    + by rewrite IH.
Qed.

Lemma fill_cons_other a r ps :
  (forall b r', r = String b r' -> is_lbracket a && is_rbracket b = false) ->
  fill (String a r) ps = String a (fill r ps).
Proof.
  intros H. destruct ps as [|p ps]; [by rewrite !fill_nil|].
  cbn [fill]. destruct r as [|b r']; [done|].
  by rewrite (H b r' eq_refl).
Qed.

Lemma fill_skip x s ps :
  closed_text x = true -> fill (x ++ s) ps = x ++ fill s ps.
Proof.
  induction x as [|a r IH]; [done|].
  intros Hc. cbn [closed_text] in Hc. cbn [String.append].
  destruct r as [|b r'].
  - cbn [String.append]. apply fill_cons_other. intros b r' _.
    apply negb_true_iff in Hc. by rewrite Hc.
  - apply andb_true_iff in Hc as [Hab Hr]. apply negb_true_iff in Hab.
    rewrite fill_cons_other.
    + by rewrite IH.
    + cbn [String.append]. intros b0 r0 [= <- _]. done.
Qed.

Lemma closed_text_content p :
  content_ok p = true -> closed_text (p ++ "]") = true.
Proof.
  induction p as [|a r IH]; [done|].
  cbn [content_ok]. intros [Ha Hr]%andb_true_iff.
  destruct r as [|b r'].
  - cbn. apply negb_true_iff in Hr. by rewrite Hr.
  - specialize (IH Hr). cbn [String.append closed_text] in *.
    rewrite IH, andb_true_r.
    cbn [content_ok] in Hr. apply andb_true_iff in Hr as [Hb _].
    apply negb_true_iff in Hb. by rewrite Hb, andb_false_r.
Qed.

Lemma closed_text_group p :
  content_ok p = true -> closed_text ("[" ++ p ++ "]") = true.
Proof.
  intros Hp. pose proof (closed_text_content p Hp) as Hc.
  destruct p as [|a r]; [done|].
  change ("[" ++ String a r ++ "]") with (String "[" (String a (r ++ "]"))).
  cbn [closed_text]. cbn [String.append closed_text] in Hc. rewrite Hc.
  cbn [content_ok] in Hp. apply andb_true_iff in Hp as [Ha _].
  apply negb_true_iff in Ha. by rewrite Ha.
Qed.

Lemma fill_group p s ps :
  content_ok p = true ->
  fill ("[" ++ p ++ "]" ++ s) ps = "[" ++ p ++ "]" ++ fill s ps.
Proof.
  intros Hp.
  replace ("[" ++ p ++ "]" ++ s) with (("[" ++ p ++ "]") ++ s)
    by (by rewrite !append_assoc).
  rewrite fill_skip by (by apply closed_text_group).
  by rewrite !append_assoc.
Qed.

Lemma fill_fill s p ps :
  content_ok p = true -> fill (fill s [p]) ps = fill s (p :: ps).
Proof.
  intros Hp. induction s as [|a r IH]; [by destruct ps|].
  cbn [fill]. destruct r as [|b r'].
  - rewrite fill_cons_other; [by destruct ps|]. intros ?? [=].
  - destruct (is_lbracket a && is_rbracket b) eqn:E.
    + rewrite fill_nil. by apply fill_group.
    + rewrite fill_cons_other; [by rewrite IH|].
      intros b0 r0 Hf. destruct (is_lbracket a) eqn:Ea; [|done]. cbn in E |- *.
      (* the next character of [fill (String b r') [p]] is [b] unless it opens a placeholder *)
      cbn [fill] in Hf. destruct r' as [|c r''].
      * injection Hf as <- _. done.
      * destruct (is_lbracket b && is_rbracket c) eqn:E2.
        -- injection Hf as <- _. apply andb_true_iff in E2 as [Hb _].
           apply Ascii.eqb_eq in Hb as ->. done.
        -- injection Hf as <- _. done.
Qed.

Lemma substitute_fill path ps :
  Forall (fun p => content_ok p = true) ps -> substitute path ps = fill path ps.
Proof.
  unfold substitute. intros H. revert path.
  induction H as [|p ps Hp _ IH]; intros path; [by rewrite fill_nil|].
  cbn [fold_left]. rewrite IH, ReplaceFirst_fill. by apply fill_fill.
Qed.

Lemma content_ok_no_rbracket p : content_ok p = true -> no_rbracket p = true.
Proof.
  induction p as [|a r IH]; [done|]. cbn [content_ok no_rbracket].
  intros [-> Hr]%andb_true_iff. destruct r; [done|]. by apply IH.
Qed.

Lemma string_pair_ind (P : string -> Prop) :
  P "" ->
  (forall a r, P r -> (forall b r', r = String b r' -> P r') -> P (String a r)) ->
  forall s, P s.
Proof.
  intros H0 Hs s.
  enough (P s /\ (forall b r', s = String b r' -> P r')) by tauto.
  induction s as [|a r [IH1 IH2]]; [by split|].
  split; [by apply Hs|]. by intros b r' [= _ <-].
Qed.

Lemma append_nil_r (s : string) : s ++ "" = s.
Proof. induction s as [|a s IH]; [done|]. cbn. by rewrite IH. Qed.

Lemma scan_group p acc rest :
  no_rbracket p = true ->
  braces_scan (p ++ String "]" rest) (Some acc) =
  Group (acc ++ p) :: braces_scan rest None.
Proof.
  revert acc. induction p as [|a r IH]; intros acc Hp.
  - cbn. by rewrite append_nil_r.
  - cbn [no_rbracket] in Hp. apply andb_true_iff in Hp as [Ha Hr].
    apply negb_true_iff in Ha. cbn [String.append braces_scan]. rewrite Ha.
    rewrite IH by done. by rewrite append_assoc.
Qed.

Lemma scan_filled key : forall ps,
  placeholder_shaped key = true ->
  Forall (fun p => no_rbracket p = true) ps ->
  length ps = count_placeholders key ->
  render "[]" (braces_scan (fill key ps) None) = key /\
  submatches (braces_scan (fill key ps) None) = ps.
Proof.
  induction key as [|a r IHr IHr'] using string_pair_ind; intros ps Hs Hps Hlen.
  - destruct ps; [done|]. discriminate.
  - cbn [placeholder_shaped] in Hs. destruct (is_lbracket a) eqn:Ea.
    + apply Ascii.eqb_eq in Ea as ->. destruct r as [|b r']; [done|].
      apply andb_true_iff in Hs as [Hb Hs]. apply Ascii.eqb_eq in Hb as ->.
      cbn [count_placeholders] in Hlen. cbn in Hlen.
      destruct ps as [|p ps]; [done|]. injection Hlen as Hlen.
      apply Forall_cons in Hps as [Hp Hps].
      destruct (IHr' _ _ eq_refl ps Hs Hps Hlen) as [E1 E2].
      cbn [fill]. cbn. rewrite scan_group by done.
      cbn [render submatches]. rewrite E1, E2. done.
    + apply andb_true_iff in Hs as [Ha Hs]. apply negb_true_iff in Ha.
      assert (count_placeholders (String a r) = count_placeholders r) as Hc.
      { cbn [count_placeholders]. destruct r; [done|]. by rewrite Ea. }
      rewrite Hc in Hlen. destruct (IHr ps Hs Hps Hlen) as [E1 E2].
      rewrite fill_cons_other by (intros; by rewrite Ea).
      cbn [braces_scan]. rewrite Ea. cbn [render submatches]. by rewrite E1, E2.
Qed.

Lemma Find_hit (v : gmap string Item) name r :
  v !! braces_ReplaceAllString name "[]" = Some r ->
  Find v name = (substitute (Path r) (braces_FindAllStringSubmatch name), true).
Proof. unfold Find. by intros ->. Qed.

Lemma Find_filled (v : gmap string Item) key r ps :
  v !! key = Some r ->
  placeholder_shaped key = true ->
  Forall (fun p => content_ok p = true) ps ->
  length ps = count_placeholders key ->
  Find v (fill key ps) = (fill (Path r) ps, true).
Proof.
  intros Hv Hs Hps Hlen.
  assert (Forall (fun p => no_rbracket p = true) ps) as Hps'.
  { eapply Forall_impl; [exact Hps|]. intros p. apply content_ok_no_rbracket. }
  destruct (scan_filled key ps Hs Hps' Hlen) as [E1 E2].
  rewrite (Find_hit v _ r).
  - unfold braces_FindAllStringSubmatch. rewrite E2. by rewrite substitute_fill.
  - unfold braces_ReplaceAllString. by rewrite E1.
Qed.

Lemma count_cons_other a r :
  is_lbracket a = false -> count_placeholders (String a r) = count_placeholders r.
Proof. intros Ea. cbn [count_placeholders]. destruct r; [done|]. by rewrite Ea. Qed.

Lemma count_cons_le a r : count_placeholders r <= count_placeholders (String a r).
Proof.
  cbn [count_placeholders]. destruct r as [|b r']; [done|].
  destruct (is_lbracket a && is_rbracket b) eqn:E; [|done].
  apply andb_true_iff in E as [_ Eb]. apply Ascii.eqb_eq in Eb as ->.
  rewrite count_cons_other by done. lia.
Qed.

Lemma count_app_le x s : count_placeholders s <= count_placeholders (x ++ s).
Proof.
  induction x as [|a x IH]; [done|]. cbn [String.append].
  etrans; [exact IH|apply count_cons_le].
Qed.

Lemma count_cons_nopair a b r :
  is_lbracket a && is_rbracket b = false ->
  count_placeholders (String a (String b r)) = count_placeholders (String b r).
Proof. intros E. cbn [count_placeholders]. by rewrite E. Qed.

Lemma count_cons_pair r :
  count_placeholders (String "[" (String "]" r)) = S (count_placeholders r).
Proof. done. Qed.

Lemma count_fill_one s p :
  count_placeholders s <= S (count_placeholders (fill s [p])).
Proof.
  induction s as [|a r IHr IHr'] using string_pair_ind; [cbn; lia|].
  cbn [fill]. destruct r as [|b r']; [done|].
  destruct (is_lbracket a && is_rbracket b) eqn:E.
  - cbn [count_placeholders]. rewrite E, fill_nil.
    apply le_n_S. change ("[" ++ p ++ "]" ++ r') with (String "[" (p ++ "]" ++ r')).
    etrans; [|apply count_cons_le]. etrans; [|apply count_app_le].
    apply (count_app_le "]").
  - rewrite count_cons_nopair by done.
    etrans; [exact IHr|]. apply le_n_S, count_cons_le.
Qed.

Lemma count_substitute path ps :
  count_placeholders path <= length ps + count_placeholders (substitute path ps).
Proof.
  unfold substitute. revert path. induction ps as [|p ps IH]; intros path; [done|].
  cbn [fold_left length]. specialize (IH (strings.ReplaceFirst path "[]" ("[" ++ p ++ "]"))).
  rewrite ReplaceFirst_fill in *. pose proof (count_fill_one path p). lia.
Qed.

Lemma fill_no_placeholder s ps : count_placeholders s = 0 -> fill s ps = s.
Proof.
  destruct ps as [|p ps]; [by rewrite fill_nil|].
  induction s as [|a r IHr IHr'] using string_pair_ind; [done|].
  intros Hc. cbn [fill]. destruct r as [|b r']; [done|].
  cbn [count_placeholders] in Hc.
  destruct (is_lbracket a && is_rbracket b) eqn:E; [done|].
  by rewrite IHr.
Qed.

Lemma substitute_no_placeholder s ps : count_placeholders s = 0 -> substitute s ps = s.
Proof.
  intros Hc. unfold substitute. induction ps as [|p ps IH]; [done|].
  cbn [fold_left]. rewrite ReplaceFirst_fill, fill_no_placeholder by done. exact IH.
Qed.

Lemma substitute_app s ps extra :
  substitute s (ps ++ extra) = substitute (substitute s ps) extra.
Proof. unfold substitute. by rewrite fold_left_app. Qed.

Lemma count_app_sep c x s :
  is_lbracket c = false -> is_rbracket c = false ->
  count_placeholders (x ++ String c s) = count_placeholders x + count_placeholders s.
Proof.
  intros Hl Hr.
  induction x as [|a r IHr IHr'] using string_pair_ind.
  - cbn [String.append]. by rewrite count_cons_other.
  - destruct r as [|b r'].
    + cbn [String.append]. rewrite count_cons_nopair by (by rewrite Hr, andb_false_r).
      by rewrite count_cons_other.
    + cbn [String.append] in *. destruct (is_lbracket a && is_rbracket b) eqn:E.
      * apply andb_true_iff in E as [->%Ascii.eqb_eq ->%Ascii.eqb_eq].
        rewrite !count_cons_pair. by rewrite (IHr' _ _ eq_refl).
      * rewrite !count_cons_nopair by done. exact IHr.
Qed.

Lemma count_app_placeholder x :
  count_placeholders (x ++ "[]") = S (count_placeholders x).
Proof.
  induction x as [|a r IHr IHr'] using string_pair_ind; [done|].
  destruct r as [|b r'].
  - cbn [String.append]. by rewrite count_cons_nopair by apply andb_false_r.
  - cbn [String.append] in *. destruct (is_lbracket a && is_rbracket b) eqn:E.
    + apply andb_true_iff in E as [->%Ascii.eqb_eq ->%Ascii.eqb_eq].
      rewrite !count_cons_pair. by rewrite (IHr' _ _ eq_refl).
    + rewrite !count_cons_nopair by done. exact IHr.
Qed.

Lemma Join_cons x y l sep :
  strings.Join (x :: y :: l) sep = x ++ sep ++ strings.Join (y :: l) sep.
Proof. done. Qed.

Lemma count_Join c l :
  is_lbracket c = false -> is_rbracket c = false ->
  count_placeholders (strings.Join l (String c "")) = placeholders_in l.
Proof.
  intros Hl Hr. induction l as [|x l IH]; [done|].
  destruct l as [|y l].
  - cbn. lia.
  - rewrite Join_cons. cbn [String.append]. rewrite count_app_sep by done.
    rewrite IH. done.
Qed.

Lemma placeholders_in_app l1 l2 :
  placeholders_in (l1 ++ l2) = placeholders_in l1 + placeholders_in l2.
Proof.
  unfold placeholders_in. induction l1 as [|x l1 IH]; [done|].
  cbn [foldr app]. rewrite IH. lia.
Qed.

Lemma placeholders_in_last l l' :
  append_to_last l "[]" = Some l' -> placeholders_in l' = S (placeholders_in l).
Proof.
  revert l'. induction l as [|x l IH]; intros l'; [done|].
  cbn [append_to_last]. destruct l as [|y l].
  - intros [= <-]. cbn. rewrite count_app_placeholder. lia.
  - destruct (append_to_last (y :: l) "[]") as [r|] eqn:E; [|done].
    intros [= <-]. specialize (IH r eq_refl). unfold placeholders_in in *.
    cbn [foldr] in *. lia.
Qed.

Lemma shaped_app a b :
  placeholder_shaped a = true -> placeholder_shaped b = true ->
  placeholder_shaped (a ++ b) = true.
Proof.
  intros Ha Hb. induction a as [|x r IHr IHr'] using string_pair_ind; [done|].
  cbn [placeholder_shaped String.append] in *.
  destruct (is_lbracket x).
  - destruct r as [|y r']; [done|]. cbn [String.append].
    apply andb_true_iff in Ha as [-> Ha]. by apply (IHr' _ _ eq_refl).
  - apply andb_true_iff in Ha as [-> Ha]. by apply IHr.
Qed.

Lemma shaped_Join c l :
  is_lbracket c = false -> is_rbracket c = false ->
  Forall (fun s => placeholder_shaped s = true) l ->
  placeholder_shaped (strings.Join l (String c "")) = true.
Proof.
  intros Hl Hr. induction 1 as [|x l Hx Hl' IH]; [done|].
  destruct l as [|y l]; [done|].
  rewrite Join_cons. apply shaped_app; [done|].
  cbn [String.append placeholder_shaped]. by rewrite Hl, Hr.
Qed.

Lemma shaped_last l l' :
  Forall (fun s => placeholder_shaped s = true) l ->
  append_to_last l "[]" = Some l' ->
  Forall (fun s => placeholder_shaped s = true) l'.
Proof.
  intros H. revert l'. induction H as [|x l Hx Hl IH]; intros l'; [done|].
  cbn [append_to_last]. destruct l as [|y l].
  - intros [= <-]. constructor; [|done]. by apply shaped_app.
  - destruct (append_to_last (y :: l) "[]") as [r|] eqn:E; [|done].
    intros [= <-]. constructor; [done|]. by apply IH.
Qed.

Lemma bracket_free_shaped s : bracket_free s = true -> placeholder_shaped s = true.
Proof.
  induction s as [|a r IH]; [done|]. cbn [bracket_free placeholder_shaped].
  intros [[Ha Hb]%andb_true_iff Hr]%andb_true_iff.
  apply negb_true_iff in Ha. rewrite Ha, Hb. by apply IH.
Qed.

Lemma bracket_free_count s : bracket_free s = true -> count_placeholders s = 0.
Proof.
  induction s as [|a r IH]; [done|]. cbn [bracket_free].
  intros [[Ha Hb]%andb_true_iff Hr]%andb_true_iff.
  apply negb_true_iff in Ha. rewrite count_cons_other by done. by apply IH.
Qed.

(** ** Induction on type shapes *)


(** Induction that also gives the hypothesis for the element type with one
    pointer level removed, as the collection case of [collect] needs it. *)
Lemma rtype_deref_ind (P : rtype -> Prop) :
  (forall kind tu, P (Leaf kind tu)) ->
  (forall e, P e -> P (Pointer e)) ->
  (forall tu n e, P (elem_deref e) -> P (Array tu n e)) ->
  (forall tu e, P (elem_deref e) -> P (Slice tu e)) ->
  (forall tu k e, P (elem_deref e) -> P (Map tu k e)) ->
  (forall tu fs, Forall (fun f => P (field_type f)) fs -> P (Struct tu fs)) ->
  forall v, P v.
Proof.
  intros HL HP HA HS HM HSt v.
  enough (P v /\ P (elem_deref v)) by tauto.
  induction v using rtype_nested_ind; cbn [elem_deref].
  - split; apply HL.
  - split; [apply HP|]; tauto.
  - split; apply HA; tauto.
  - split; apply HS; tauto.
  - split; apply HM; tauto.
  - assert (P (Struct tu fs)); [|tauto]. apply HSt.
    eapply Forall_impl; [exact H|]. cbn. tauto.
Qed.

Lemma collect_loop_elem snake e tag path skip d :
  match e with
  | Pointer e' => collect_loop snake false e' tag path skip d
  | _ => collect_loop snake false e tag path skip d
  end = collect_loop snake false (elem_deref e) tag path skip d.
Proof. by destruct e. Qed.

Lemma collect_loop_collection snake isPtr v e tag path skip d :
  (exists tu n, v = Array tu n e) \/ (exists tu, v = Slice tu e) \/ (exists tu k, v = Map tu k e) ->
  collect_loop snake isPtr v tag path skip d =
  collection_case isPtr v (elem_deref e) (elem_unmarshals e)
    (fun tag path skip => collect_loop snake false (elem_deref e) tag path skip d)
    tag path skip.
Proof.
  intros [(tu & n & ->)|[(tu & ->)|(tu & k & ->)]]; cbn [collect_loop];
    f_equal; by destruct e.
Qed.

(** ** What every entry of [collect] looks like

    Every key is the join of a tag slice and every path the join of a path
    slice that [collect] can reach, stated for any relation [Q] on the two
    slices that the three ways of extending them preserve.  With
    [collections = false] the walk is promised to meet no collection. *)

Section collect_invariant.
Variable snake : string -> string.
Variable d : list (string * string).
Variable P : string -> bool.
Variable Q : list string -> list string -> Prop.
Hypothesis Q_field : forall tag path tok nm,
  Q tag path -> P tok = true -> P nm = true -> Q (tag ++ [tok])%list (path ++ [nm])%list.
Hypothesis Q_skip : forall tag path nm,
  Q tag path -> P nm = true -> Q tag (path ++ [nm])%list.
Variable collections : bool.
Hypothesis Q_elem : forall tag path tag' path',
  collections = true ->
  Q tag path -> append_to_last tag "[]" = Some tag' ->
  append_to_last path "[]" = Some path' -> Q tag' path'.

#[local] Abbreviation entries_ok := (index.entries_ok Q).
#[local] Abbreviation walk_ok := (index.walk_ok snake d P Q collections).

Lemma entries_ok_empty : entries_ok ∅.
Proof. intros k it. by rewrite lookup_empty. Qed.

Lemma entries_ok_singleton tag path t b :
  Q tag path ->
  entries_ok {[ strings.Join tag "_" := mkItem (strings.Join path ".") t b ]}.
Proof.
  intros HQ k it [<- <-]%lookup_singleton_Some. by exists tag, path.
Qed.

Lemma entries_ok_union m1 m2 : entries_ok m1 -> entries_ok m2 -> entries_ok (m1 ∪ m2).
Proof.
  intros H1 H2 k it [?|[_ ?]]%lookup_union_Some_raw; eauto.
Qed.

Lemma entries_ok_insert tag path t b m :
  Q tag path -> entries_ok m ->
  entries_ok (<[ strings.Join tag "_" := mkItem (strings.Join path ".") t b ]> m).
Proof.
  intros HQ Hm k it [[<- <-]|[_ ?]]%lookup_insert_Some; [by exists tag, path|eauto].
Qed.

Lemma fields_loop_entries fs : forall tag path m m',
  Forall (fun f => walk_ok (field_type f)) fs ->
  tokens_ok snake P d (Struct false fs) = true ->
  collections = true \/ no_collections (Struct false fs) = true ->
  Q tag path -> entries_ok m ->
  fields_loop snake (fun ty tag path skip => collect_loop snake false ty tag path skip d)
    tag path d fs m = Ok m' ->
  entries_ok m'.
Proof.
  induction fs as [|f fs IH]; intros tag path m m' Hw Htok Hcol HQ Hm Hrun.
  - cbn in Hrun. by injection Hrun as <-.
  - apply Forall_cons in Hw as [Hf Hw].
    cbn [tokens_ok forallb] in Htok. apply andb_true_iff in Htok as [Hcond Htok].
    assert (collections = true \/ no_collections (field_type f) = true) as Hcf.
    { destruct Hcol as [?|[? _]%andb_true_iff]; auto. }
    assert (collections = true \/ no_collections (Struct false fs) = true) as Hcr.
    { destruct Hcol as [?|[_ ?]%andb_true_iff]; auto. }
    cbn [fields_loop] in Hrun.
    destruct (field_step _ _ tag path d f m) as [m1| |] eqn:Hstep; try discriminate.
    cbn in Hrun. refine (IH tag path m1 m' Hw Htok Hcr HQ _ Hrun).
    destruct f as [name pkg env ty]. cbn [field_step field_type] in *.
    destruct (String.eqb pkg "") eqn:Epkg; [|by injection Hstep as <-].
    destruct (String.eqb env "--") eqn:Eex; [by injection Hstep as <-|].
    cbn in Hcond. apply andb_true_iff in Hcond as [Hcond Hty].
    apply andb_true_iff in Hcond as [Hnm Htk].
    destruct (String.eqb env "-") eqn:Eskip.
    + destruct (collect_loop _ _ ty _ _ true d) as [tmp| |] eqn:Hc; try discriminate.
      cbn in Hstep. injection Hstep as <-. apply entries_ok_union; [|done].
      eapply Hf; [done|done| |exact Hc]. by apply Q_skip.
    + destruct (collect_loop _ _ ty _ _ false d) as [tmp| |] eqn:Hc; try discriminate.
      cbn in Hstep. injection Hstep as <-. apply entries_ok_union; [|done].
      eapply Hf; [done|done| |exact Hc]. apply Q_field; done.
Qed.

Lemma collection_case_entries isPtr v e1 ma rec tag path skip m :
  collections = true ->
  (forall tag path skip m, Q tag path -> rec tag path skip = Ok m -> entries_ok m) ->
  Q tag path ->
  collection_case isPtr v e1 ma rec tag path skip = Ok m -> entries_ok m.
Proof.
  intros Hcol Hrec HQ. unfold collection_case. destruct skip; cbn [negb].
  - destruct ma; cbn [negb]; [intros [= <-]; apply entries_ok_empty|].
    destruct (rec tag path true) as [tmp| |]; cbn [mbind outcome_bind]; try discriminate.
    destruct (0 <? size tmp)%nat; [discriminate|].
    intros [= <-]; apply entries_ok_empty.
  - destruct (append_to_last tag "[]") as [tag'|] eqn:Et; [|discriminate].
    destruct (append_to_last path "[]") as [path'|] eqn:Ep; [|discriminate].
    assert (Q tag' path') as HQ' by eauto.
    destruct ma.
    + intros [= <-]. apply entries_ok_insert; [done|]. by apply entries_ok_singleton.
    + destruct (rec tag' path' false) as [tmp| |] eqn:Hr; cbn [mbind outcome_bind]; try discriminate.
      intros [= <-]. apply entries_ok_union; [eauto|]. by apply entries_ok_singleton.
Qed.

Lemma tokens_ok_deref e :
  tokens_ok snake P d e = true -> tokens_ok snake P d (elem_deref e) = true.
Proof. by destruct e. Qed.

Lemma collect_entries v : walk_ok v.
Proof.
  induction v as [kind tu|e IH|tu n e IH|tu e IH|tu k e IH|tu fs IH]
    using rtype_deref_ind; intros isPtr tag path skip m Htok Hcol HQ Hrun.
  - cbn in Hrun. destruct skip; injection Hrun as <-;
      [apply entries_ok_empty|by apply entries_ok_singleton].
  - cbn [collect_loop tokens_ok] in *. eauto.
  - rewrite (collect_loop_collection _ _ _ e) in Hrun by eauto.
    destruct Hcol as [Hcol|?]; [|done].
    eapply collection_case_entries; [exact Hcol| |exact HQ|exact Hrun].
    intros ???? HQ'. apply IH; [|by left|done]. by apply tokens_ok_deref.
  - rewrite (collect_loop_collection _ _ _ e) in Hrun by eauto.
    destruct Hcol as [Hcol|?]; [|done].
    eapply collection_case_entries; [exact Hcol| |exact HQ|exact Hrun].
    intros ???? HQ'. apply IH; [|by left|done]. by apply tokens_ok_deref.
  - rewrite (collect_loop_collection _ _ _ e) in Hrun by eauto 6.
    destruct Hcol as [Hcol|?]; [|done].
    eapply collection_case_entries; [exact Hcol| |exact HQ|exact Hrun].
    intros ???? HQ'. apply IH; [|by left|done]. by apply tokens_ok_deref.
  - cbn [collect_loop] in Hrun.
    eapply fields_loop_entries; [exact IH|exact Htok|exact Hcol|exact HQ| |exact Hrun].
    destruct (negb skip && _); [by apply entries_ok_singleton|apply entries_ok_empty].
Qed.
End collect_invariant.

(** ** The entries of an index built by [New] *)

Lemma New_collect snake v d m :
  New snake v d = Ok m ->
  m = ∅ \/ exists tu fs, collect snake (Struct tu fs) [] [] false d = Ok m
                         /\ strip_pointers v = Struct tu fs.
Proof.
  unfold New. destruct (strip_pointers v) eqn:E; try (intros [= <-]; by left).
  intros H. right. eauto.
Qed.

Lemma tokens_ok_strip snake P d v :
  tokens_ok snake P d v = true -> tokens_ok snake P d (strip_pointers v) = true.
Proof. induction v; cbn [strip_pointers tokens_ok]; auto. Qed.

Lemma no_collections_strip v :
  no_collections v = true -> no_collections (strip_pointers v) = true.
Proof. induction v; cbn [strip_pointers no_collections]; auto. Qed.

Lemma New_counts snake d v idx key item :
  tokens_ok snake no_placeholder d v = true ->
  New snake v d = Ok idx ->
  idx !! key = Some item ->
  count_placeholders key = count_placeholders (Path item).
Proof.
  intros Htok Hnew Hkey.
  apply New_collect in Hnew as [->|(tu & fs & Hc & Hs)]; [by rewrite lookup_empty in Hkey|].
  apply tokens_ok_strip in Htok. rewrite Hs in Htok.
  destruct (collect_entries snake d no_placeholder
    (fun tag path => placeholders_in tag = placeholders_in path)) with
    (collections := true) (v := Struct tu fs) (isPtr := false) (tag := @nil string)
    (path := @nil string) (skip := false) (m := idx) (k := key) (it := item)
    as (tag & path & -> & -> & HQ); auto.
  { intros tag path tok nm HQ Ht%Nat.eqb_eq Hn%Nat.eqb_eq.
    rewrite !placeholders_in_app, HQ. cbn. lia. }
  { intros tag path nm HQ Hn%Nat.eqb_eq. rewrite placeholders_in_app, HQ. cbn. lia. }
  { intros tag path tag' path' _ HQ Ht Hp.
    rewrite (placeholders_in_last _ _ Ht), (placeholders_in_last _ _ Hp). lia. }
  by rewrite (count_Join "_"), (count_Join "."), HQ.
Qed.

Lemma New_shaped snake d v idx key item :
  tokens_ok snake bracket_free d v = true ->
  New snake v d = Ok idx ->
  idx !! key = Some item ->
  placeholder_shaped key = true /\
  count_placeholders key = count_placeholders (Path item).
Proof.
  intros Htok Hnew Hkey.
  apply New_collect in Hnew as [->|(tu & fs & Hc & Hs)]; [by rewrite lookup_empty in Hkey|].
  apply tokens_ok_strip in Htok. rewrite Hs in Htok.
  destruct (collect_entries snake d bracket_free shaped_balanced) with
    (collections := true) (v := Struct tu fs) (isPtr := false) (tag := @nil string)
    (path := @nil string) (skip := false) (m := idx) (k := key) (it := item)
    as (tag & path & -> & -> & HF & HQ); auto.
  { intros tag path tok nm [HF HQ] Ht Hn. split.
    - apply Forall_app. split; [done|]. constructor; [by apply bracket_free_shaped|done].
    - rewrite !placeholders_in_app, HQ. cbn.
      rewrite (bracket_free_count _ Ht), (bracket_free_count _ Hn). lia. }
  { intros tag path nm [HF HQ] Hn. split; [done|].
    rewrite placeholders_in_app, HQ. cbn. rewrite (bracket_free_count _ Hn). lia. }
  { intros tag path tag' path' _ [HF HQ] Ht Hp. split; [by eapply shaped_last|].
    rewrite (placeholders_in_last _ _ Ht), (placeholders_in_last _ _ Hp). lia. }
  { by split. }
  split; [by apply (shaped_Join "_")|].
  by rewrite (count_Join "_"), (count_Join "."), HQ.
Qed.

Lemma New_no_collections snake d v idx key item :
  tokens_ok snake bracket_free d v = true ->
  no_collections v = true ->
  New snake v d = Ok idx ->
  idx !! key = Some item ->
  count_placeholders key = 0.
Proof.
  intros Htok Hnc Hnew Hkey.
  apply New_collect in Hnew as [->|(tu & fs & Hc & Hs)]; [by rewrite lookup_empty in Hkey|].
  apply tokens_ok_strip in Htok. apply no_collections_strip in Hnc. rewrite Hs in Htok, Hnc.
  destruct (collect_entries snake d bracket_free
    (fun tag _ => placeholders_in tag = 0)) with
    (collections := false) (v := Struct tu fs) (isPtr := false) (tag := @nil string)
    (path := @nil string) (skip := false) (m := idx) (k := key) (it := item)
    as (tag & path & -> & _ & HQ); auto.
  { intros tag path tok nm HQ Ht Hn. rewrite placeholders_in_app, HQ. cbn.
    rewrite (bracket_free_count _ Ht). lia. }
  { intros tag path tag' path' [=]. }
  by rewrite (count_Join "_").
Qed.

(** ** Claims about the key resolver and the index builder *)

(** C10.  Whenever the canonical form of an observed key (every bracket
    group replaced by "[]") is a key of the index, [Find] reports a hit, also
    when the key carries more or fewer bracket groups than the stored path has
    placeholders: the contents left over once no placeholder remains are
    dropped (the path is returned as substituted so far), and with fewer
    groups than placeholders the returned path still holds a placeholder. *)
Theorem Find_tolerates_group_mismatch (idx : gmap string Item) (key : string) (item : Item) :
  idx !! braces_ReplaceAllString key "[]" = Some item ->
  snd (Find idx key) = true /\
  (forall used extra,
     braces_FindAllStringSubmatch key = (used ++ extra)%list ->
     count_placeholders (substitute (Path item) used) = 0 ->
     fst (Find idx key) = substitute (Path item) used) /\
  (length (braces_FindAllStringSubmatch key) < count_placeholders (Path item) ->
   0 < count_placeholders (fst (Find idx key))).
Proof.
  intros Hhit. rewrite (Find_hit idx key item Hhit). cbn [fst snd].
  split; [done|]. split.
  - intros used extra -> Hnone.
    by rewrite substitute_app, substitute_no_placeholder.
  - intros Hfew.
    pose proof (count_substitute (Path item) (braces_FindAllStringSubmatch key)). lia.
Qed.

(** On the index with key "A[][]" and path "a[]", the key "A[1][2]" resolves
    to "a[1]": the second content is dropped. *)
Lemma Find_tolerates_group_mismatch_witness :
  examples.surplus_index !! braces_ReplaceAllString "A[1][2]" "[]"
    = Some (mkItem "a[]" examples.t_int false) /\
  Find examples.surplus_index "A[1][2]" = ("a[1]", true).
Proof.
  split; [reflexivity|].
  destruct (Find_tolerates_group_mismatch examples.surplus_index "A[1][2]"
              (mkItem "a[]" examples.t_int false) eq_refl) as (Hfound & Hdrop & _).
  specialize (Hdrop ["1"] ["2"] eq_refl eq_refl).
  destruct (Find examples.surplus_index "A[1][2]") as [path found].
  cbn [fst snd] in *. by rewrite Hfound, Hdrop.
Defined.

(** C9, as amended.  For a record type whose key tokens and field names
    hold no "[]", every entry of the index [New] builds has as many
    placeholders in its key as in its path. *)
Theorem New_placeholders_balanced (snake : string -> string) (d : list (string * string))
    (v : rtype) (idx : gmap string Item) (key : string) (item : Item) :
  tokens_ok snake no_placeholder d v = true ->
  New snake v d = Ok idx ->
  idx !! key = Some item ->
  count_placeholders key = count_placeholders (Path item).
Proof. apply New_counts. Qed.

Lemma New_placeholders_balanced_witness :
  tokens_ok stringy.SnakeCase_ToUpper no_placeholder [("API", "Api")]
    examples.IndexTestConfig = true /\
  New stringy.SnakeCase_ToUpper examples.IndexTestConfig [("API", "Api")]
    = Ok examples.IndexTestConfig_index /\
  examples.IndexTestConfig_index !! "SERVER_SETTINGS[]_TAGS[]"
    = Some (mkItem "server.settings[].tags[]" examples.t_string false) /\
  count_placeholders "SERVER_SETTINGS[]_TAGS[]"
    = count_placeholders "server.settings[].tags[]".
Proof.
  split; [reflexivity|]. split; [reflexivity|]. split; [reflexivity|].
  exact (New_placeholders_balanced stringy.SnakeCase_ToUpper [("API", "Api")]
           examples.IndexTestConfig examples.IndexTestConfig_index
           "SERVER_SETTINGS[]_TAGS[]"
           (mkItem "server.settings[].tags[]" examples.t_string false)
           eq_refl eq_refl eq_refl).
Defined.

(** C9 as stated fails: the tag of [struct { F int `env:"F[]"` }] is taken
    as it is, so the entry has the key "F[]", with one placeholder, and the
    path "f", with none. *)
Lemma New_key_tag_with_placeholder :
  New stringy.SnakeCase_ToUpper examples.TaggedPlaceholder []
    = Ok {[ "F[]" := mkItem "f" examples.t_int false ]} /\
  count_placeholders "F[]" = 1 /\
  count_placeholders (Path (mkItem "f" examples.t_int false)) = 0.
Proof. repeat split. Qed.

(** C3, as amended.  For a record type whose key tokens and field names
    hold no bracket, and every key of the index [New] builds: with bracket
    contents that are not empty, hold no "]" and do not end in "[" put into
    the key's placeholders, one per placeholder, [Find] reports a hit and
    returns the entry's path with the same contents put into its
    placeholders from left to right, of which it has exactly as many; and
    when the type has no collections, [Find] on the key itself returns the
    entry's path unchanged. *)
Theorem Find_resolves_filled_key (snake : string -> string) (d : list (string * string))
    (v : rtype) (idx : gmap string Item) (key : string) (item : Item) (ps : list string) :
  tokens_ok snake bracket_free d v = true ->
  New snake v d = Ok idx ->
  idx !! key = Some item ->
  Forall (fun p => content_ok p = true) ps ->
  length ps = count_placeholders key ->
  Find idx (fill key ps) = (fill (Path item) ps, true) /\
  count_placeholders (Path item) = length ps /\
  (no_collections v = true -> Find idx key = (Path item, true)).
Proof.
  intros Htok Hnew Hkey Hps Hlen.
  destruct (New_shaped snake d v idx key item Htok Hnew Hkey) as [Hshape Hcount].
  split; [by apply Find_filled|]. split; [lia|].
  intros Hnc.
  pose proof (New_no_collections snake d v idx key item Htok Hnc Hnew Hkey) as H0.
  rewrite <- (fill_nil key), <- (fill_nil (Path item)).
  apply Find_filled; [done|done|constructor|by rewrite H0].
Qed.

(** The resolution checked by [Test_Index]: "SERVER_SETTINGS[1]_TAGS[abc]". *)
Lemma Find_resolves_filled_key_witness :
  tokens_ok stringy.SnakeCase_ToUpper bracket_free [("API", "Api")]
    examples.IndexTestConfig = true /\
  Forall (fun p => content_ok p = true) ["1"; "abc"] /\
  Find examples.IndexTestConfig_index "SERVER_SETTINGS[1]_TAGS[abc]"
    = ("server.settings[1].tags[abc]", true).
Proof.
  split; [reflexivity|].
  assert (Forall (fun p => content_ok p = true) ["1"; "abc"]) as Hps
    by (repeat constructor).
  split; [exact Hps|].
  exact (proj1 (Find_resolves_filled_key stringy.SnakeCase_ToUpper [("API", "Api")]
           examples.IndexTestConfig examples.IndexTestConfig_index
           "SERVER_SETTINGS[]_TAGS[]"
           (mkItem "server.settings[].tags[]" examples.t_string false)
           ["1"; "abc"] eq_refl eq_refl eq_refl Hps eq_refl)).
Defined.

(** C3 as stated fails: [struct { G int `env:"A[X]"` }] has no collections,
    its index has the key "A[X]", and [Find] on that key looks up "A[]" and
    finds nothing. *)
Lemma Find_misses_bracketed_tag :
  New stringy.SnakeCase_ToUpper examples.TaggedGroup []
    = Ok {[ "A[X]" := mkItem "g" examples.t_int false ]} /\
  no_collections examples.TaggedGroup = true /\
  Find {[ "A[X]" := mkItem "g" examples.t_int false ]} "A[X]" = (EmptyString, false).
Proof. repeat split. Qed.

(** ** When [collect] fails *)

Lemma union_empty_iff (m1 m2 : gmap string Item) : m1 ∪ m2 = ∅ <-> m1 = ∅ /\ m2 = ∅.
Proof.
  split.
  - intros H. split; apply map_empty; intros i;
      apply (f_equal (fun m => m !! i)) in H;
      rewrite lookup_empty in H; apply lookup_union_None in H; tauto.
  - intros [-> ->]. apply map_empty_union.
Qed.

Lemma size_pos_iff (m : gmap string Item) : (0 <? size m)%nat = true <-> m <> ∅.
Proof.
  rewrite Nat.ltb_lt, <- map_size_non_empty_iff. lia.
Qed.

Lemma append_to_last_some l suffix :
  l <> [] -> exists l', append_to_last l suffix = Some l' /\ l' <> [].
Proof.
  induction l as [|x l IH]; [done|]. intros _. cbn [append_to_last].
  destruct l as [|y l]; [by eexists|].
  destruct IH as (r & -> & _); [done|]. by eexists.
Qed.

Lemma flatten_conflict_collection skip v e :
  (exists tu n, v = Array tu n e) \/ (exists tu, v = Slice tu e) \/ (exists tu k, v = Map tu k e) ->
  flatten_conflict skip v =
  negb (elem_unmarshals e) &&
  (flatten_conflict skip (elem_deref e) || (skip && flat_entries (elem_deref e))) /\
  flat_entries v = false.
Proof.
  intros [(tu & n & ->)|[(tu & ->)|(tu & k & ->)]]; cbn [flatten_conflict flat_entries];
    by destruct e.
Qed.

Section collect_outcome.
Variable snake : string -> string.
Variable d : list (string * string).

#[local] Abbreviation outcome_ok := (index.outcome_ok snake d).

Lemma collection_case_outcome isPtr v e1 ma rec tag path skip :
  (forall tag path skip,
     skip = true \/ (tag <> [] /\ path <> []) ->
     if flatten_conflict skip e1
     then exists p, rec tag path skip = Err (skip_error p)
     else exists m, rec tag path skip = Ok m /\
                    (m = ∅ <-> skip = true /\ flat_entries e1 = false)) ->
  skip = true \/ (tag <> [] /\ path <> []) ->
  if negb ma && (flatten_conflict skip e1 || (skip && flat_entries e1))
  then exists p, collection_case isPtr v e1 ma rec tag path skip = Err (skip_error p)
  else exists m, collection_case isPtr v e1 ma rec tag path skip = Ok m /\
                 (m = ∅ <-> skip = true).
Proof.
  intros Hrec Hpre. unfold collection_case. destruct skip; cbn [negb andb].
  - destruct ma; cbn [negb andb]; [by exists ∅|].
    specialize (Hrec tag path true (or_introl eq_refl)).
    destruct (flatten_conflict true e1); cbn [orb].
    + destruct Hrec as [p ->]. by exists p.
    + destruct Hrec as (tmp & -> & Hempty). cbn [mbind outcome_bind].
      destruct (flat_entries e1) eqn:Hflat.
      * assert ((0 <? size tmp)%nat = true) as ->; [|by eexists].
        apply size_pos_iff. intros Htmp. apply Hempty in Htmp as [_ [=]].
      * assert ((0 <? size tmp)%nat = false) as ->; [|by exists ∅].
        apply not_true_iff_false. rewrite size_pos_iff.
        intros Hne. apply Hne, Hempty. done.
  - destruct Hpre as [[=]|[Htag Hpath]].
    destruct (append_to_last_some tag "[]" Htag) as (tag' & -> & Htag').
    destruct (append_to_last_some path "[]" Hpath) as (path' & -> & Hpath').
    rewrite orb_false_r.
    destruct ma; cbn [negb andb].
    + eexists. split; [done|]. split; [|done]. intros H. by apply insert_non_empty in H.
    + specialize (Hrec tag' path' false (or_intror (conj Htag' Hpath'))).
      destruct (flatten_conflict false e1).
      * destruct Hrec as [p ->]. by exists p.
      * destruct Hrec as (tmp & -> & Hempty). cbn [mbind outcome_bind].
        eexists. split; [done|]. split; [|done].
        intros [_ H]%union_empty_iff. by apply map_non_empty_singleton in H.
Qed.

Lemma flatten_conflict_struct skip tu fs :
  flatten_conflict skip (Struct tu fs) = existsb field_conflict fs.
Proof. done. Qed.

Lemma flat_entries_struct tu fs :
  flat_entries (Struct tu fs) = existsb field_contributes fs.
Proof. done. Qed.

Lemma fields_loop_outcome fs : forall tag path m0,
  Forall (fun f => outcome_ok (field_type f)) fs ->
  if existsb field_conflict fs
  then exists p,
    fields_loop snake (fun ty tag path skip => collect_loop snake false ty tag path skip d)
      tag path d fs m0 = Err (skip_error p)
  else exists m,
    fields_loop snake (fun ty tag path skip => collect_loop snake false ty tag path skip d)
      tag path d fs m0 = Ok m /\
    (m = ∅ <-> m0 = ∅ /\ existsb field_contributes fs = false).
Proof.
  induction fs as [|f fs IH]; intros tag path m0 Hw.
  - cbn. exists m0. tauto.
  - apply Forall_cons in Hw as [Hf Hw]. cbn [existsb fields_loop].
    destruct f as [name pkg env ty]. cbn [field_conflict field_contributes field_step field_type] in *.
    destruct (String.eqb pkg "") eqn:Epkg; cbn [andb orb];
      [|cbn [mbind outcome_bind]; apply (IH tag path m0 Hw)].
    destruct (String.eqb env "--") eqn:Eex; cbn [negb andb orb];
      [cbn [mbind outcome_bind]; apply (IH tag path m0 Hw)|].
    destruct (String.eqb env "-") eqn:Eskip; cbn [negb andb orb].
    + specialize (Hf false tag (path ++ [strings.ToLower name])%list true (or_introl eq_refl)).
      destruct (flatten_conflict true ty); cbn [orb].
      * destruct Hf as [p ->]. by exists p.
      * destruct Hf as (tmp & -> & Hempty). cbn [mbind outcome_bind].
        specialize (IH tag path (tmp ∪ m0) Hw).
        destruct (existsb field_conflict fs); [done|].
        destruct IH as (m & -> & Hm). exists m. split; [done|].
        rewrite Hm, union_empty_iff, Hempty, orb_false_iff. tauto.
    + assert ((tag ++ [token snake d name env])%list <> [] /\
              (path ++ [strings.ToLower name])%list <> []) as Hne.
      { split; intros H; by apply app_eq_nil in H as [_ [=]]. }
      specialize (Hf false _ _ false (or_intror Hne)).
      destruct (flatten_conflict false ty); cbn [orb].
      * destruct Hf as [p ->]. by exists p.
      * destruct Hf as (tmp & -> & Hempty). cbn [mbind outcome_bind].
        specialize (IH tag path (tmp ∪ m0) Hw).
        destruct (existsb field_conflict fs); [done|].
        destruct IH as (m & -> & Hm). exists m. split; [done|].
        rewrite Hm, union_empty_iff, Hempty. split; [|intros [_ [=]]].
        intros [[[[=] _] _] _].
Qed.

Lemma collect_outcome v : outcome_ok v.
Proof.
  induction v as [kind tu|e IH|tu n e IH|tu e IH|tu k e IH|tu fs IH]
    using rtype_deref_ind; intros isPtr tag path skip Hpre.
  - cbn [flatten_conflict collect_loop flat_entries]. destruct skip; cbn [negb].
    + by exists ∅.
    + eexists. split; [done|]. split; [|by intros [[=] _]].
      intros H. by apply map_non_empty_singleton in H.
  - cbn [flatten_conflict collect_loop flat_entries]. by apply IH.
  - destruct (flatten_conflict_collection skip (Array tu n e) e) as [-> ->]; [eauto|].
    rewrite (collect_loop_collection _ _ _ e) by eauto.
    pose proof (collection_case_outcome isPtr (Array tu n e) (elem_deref e)
      (elem_unmarshals e) _ tag path skip (IH false) Hpre) as H.
    destruct (negb _ && _); [done|]. destruct H as (m & -> & Hm). exists m. split; [done|]. tauto.
  - destruct (flatten_conflict_collection skip (Slice tu e) e) as [-> ->]; [eauto|].
    rewrite (collect_loop_collection _ _ _ e) by eauto.
    pose proof (collection_case_outcome isPtr (Slice tu e) (elem_deref e)
      (elem_unmarshals e) _ tag path skip (IH false) Hpre) as H.
    destruct (negb _ && _); [done|]. destruct H as (m & -> & Hm). exists m. split; [done|]. tauto.
  - destruct (flatten_conflict_collection skip (Map tu k e) e) as [-> ->]; [eauto 6|].
    rewrite (collect_loop_collection _ _ _ e) by eauto 6.
    pose proof (collection_case_outcome isPtr (Map tu k e) (elem_deref e)
      (elem_unmarshals e) _ tag path skip (IH false) Hpre) as H.
    destruct (negb _ && _); [done|]. destruct H as (m & -> & Hm). exists m. split; [done|]. tauto.
  - rewrite flatten_conflict_struct, flat_entries_struct. cbn [collect_loop].
    pose proof (fields_loop_outcome fs tag path
      (if negb skip && (0 <? length path)%nat
       then {[ strings.Join tag "_" := mkItem (strings.Join path ".") (Struct tu fs) isPtr ]}
       else ∅) IH) as H.
    destruct (existsb field_conflict fs); [done|].
    destruct H as (m & -> & Hm). exists m. split; [done|].
    rewrite Hm.
    destruct skip; cbn [negb andb].
    + tauto.
    + destruct Hpre as [[=]|[_ Hpath]].
      destruct path; [done|]. cbn.
      split; [intros [H _]; by apply map_non_empty_singleton in H|by intros [[=] _]].
Qed.

End collect_outcome.

(** C4, as amended.  [New] fails exactly when the walk of the record type
    reaches, in a field tagged "-", a slice, array or map whose elements do
    not decode from text and, walked in flattened mode, would add an entry
    (or hold such a collection themselves); the error is then the
    "can't skip slice, array or map" error for some path.  In every other
    case, a flattened collection of scalars or of text-decoding elements
    among them, [New] returns an index: it raises no other error and does
    not panic. *)
Theorem New_fails_exactly (snake : string -> string) (d : list (string * string)) (v : rtype) :
  if root_conflict v
  then exists p, New snake v d = Err (skip_error p)
  else exists idx, New snake v d = Ok idx.
Proof.
  unfold root_conflict, New.
  destruct (strip_pointers v) as [| | | | |tu fs]; try by exists ∅.
  rewrite flatten_conflict_struct. unfold collect. cbn [collect_loop].
  pose proof (fields_loop_outcome snake d fs [] [] ∅) as H.
  cbn [negb andb length Nat.ltb Nat.leb].
  destruct (existsb field_conflict fs).
  - apply H. apply Forall_forall. intros f _. apply collect_outcome.
  - destruct H as (m & -> & _); [|by exists m].
    apply Forall_forall. intros f _. apply collect_outcome.
Qed.

(** C4 as stated fails: [struct { Hidden []string `env:"-"` }] has a field
    tagged "-" whose type is a slice, and [New] returns an empty index for
    it, without error. *)
Lemma New_accepts_flattened_scalars :
  examples.FlattenedStrings
    = Struct false [ Field "Hidden" EmptyString "-" (Slice false examples.t_string) ] /\
  New stringy.SnakeCase_ToUpper examples.FlattenedStrings [] = Ok ∅.
Proof. split; reflexivity. Qed.

(** The failure checked by [TestNewIndex_Error]. *)
Example New_rejects_flattened_records :
  New stringy.SnakeCase_ToUpper examples.InvalidConfig []
    = Err (Errorf "can't skip slice, array or map: top.nested").
Proof. reflexivity. Qed.

(** ** The environment layer *)

Lemma classify_unresolved o envVar key :
  env.surviving_key (env.Prefix o) envVar = Some key ->
  snd (index.Find (env.Index o) key) = false ->
  env.classify o envVar = env.Unresolved key.
Proof.
  unfold env.classify, env.surviving_key. intros Hkey Hfind.
  destruct (strings.cut_at "=" envVar) as [[k v]|]; [|done].
  destruct (_ && _); [done|]. injection Hkey as Hkey. rewrite Hkey.
  destruct (index.Find (env.Index o) key) as [path []]; [done|]. done.
Qed.

Lemma scan_app o l1 l2 m :
  env.scan o (l1 ++ l2) m = m' ← env.scan o l1 m; env.scan o l2 m'.
Proof.
  revert m. induction l1 as [|e l1 IH]; intros m; [done|].
  cbn [app env.scan]. destruct (env.classify o e); [apply IH| |apply IH].
  destruct (negb (env.Strict o)); [apply IH|done].
Qed.

Lemma scan_resolved o l m :
  Forall (fun e => env.is_unresolved o e = false) l -> exists m', env.scan o l m = Ok m'.
Proof.
  intros H. revert m. induction H as [|e l He _ IH]; intros m; [by exists m|].
  cbn [env.scan]. unfold env.is_unresolved in He.
  destruct (env.classify o e); [apply IH|done|apply IH].
Qed.

Lemma scan_strict_first o pre e post key m :
  env.Strict o = true ->
  Forall (fun e => env.is_unresolved o e = false) pre ->
  env.classify o e = env.Unresolved key ->
  env.scan o (pre ++ e :: post) m = Err (NotFoundError key).
Proof.
  intros Hs Hpre He. rewrite scan_app.
  destruct (scan_resolved o pre m Hpre) as [m' ->]. cbn [mbind outcome_bind env.scan].
  by rewrite He, Hs.
Qed.

Lemma scan_strict_some o l m :
  env.Strict o = true ->
  List.Exists (fun e => env.is_unresolved o e = true) l ->
  exists e key, e ∈ l /\ env.classify o e = env.Unresolved key /\
                env.scan o l m = Err (NotFoundError key).
Proof.
  intros Hs H. revert m. induction l as [|e l IH]; intros m; [by apply Exists_nil in H|].
  cbn [env.scan]. destruct (env.classify o e) as [|key|path value] eqn:Hc.
  - apply Exists_cons in H as [H|H]; [unfold env.is_unresolved in H; by rewrite Hc in H|].
    destruct (IH H m) as (e' & key & ? & ? & ?). exists e', key. set_solver.
  - exists e, key. rewrite Hs. set_solver.
  - apply Exists_cons in H as [H|H]; [unfold env.is_unresolved in H; by rewrite Hc in H|].
    destruct (IH H (<[path:=value]> m)) as (e' & key & ? & ? & ?). exists e', key. set_solver.
Qed.

Lemma scan_skips_unresolved o pre e post key m :
  env.Strict o = false ->
  env.classify o e = env.Unresolved key ->
  env.scan o (pre ++ e :: post) m = env.scan o (pre ++ post) m.
Proof.
  intros Hs He. rewrite !scan_app. destruct (env.scan o pre m); [|done..].
  cbn [mbind outcome_bind env.scan]. by rewrite He, Hs.
Qed.

Lemma scan_no_assign o l m :
  env.Strict o = false ->
  Forall (fun e => env.is_assign o e = false) l ->
  env.scan o l m = Ok m.
Proof.
  intros Hs H. induction H as [|e l He _ IH]; [done|].
  cbn [env.scan]. unfold env.is_assign in He. rewrite Hs.
  by destruct (env.classify o e).
Qed.

(** C5.  An environment entry that passes the prefix filter and whose
    normalised key [Find] does not resolve: in strict mode [Set] fails with
    a not-found error that names the key of such an entry, the key of this
    one when no entry before it is unresolved, and returns no record; in
    non-strict mode [Set] returns what it returns without the entry, and
    the record as it was given when no other entry assigns anything. *)
Theorem Set_unresolved_key {T V : Type}
    (lookup_Set : T -> string -> V -> outcome T) (StringValue : string -> V)
    (snake : string -> string) (ty : index.rtype) (value : T)
    (options : list env.Option) (o : env.EnvOptions)
    (pre post : list string) (envVar key : string) :
  env.resolve_options snake ty options = Ok o ->
  env.surviving_key (env.Prefix o) envVar = Some key ->
  snd (index.Find (env.Index o) key) = false ->
  (env.Strict o = true ->
     (exists e key',
        e ∈ (pre ++ envVar :: post)%list /\ env.classify o e = env.Unresolved key' /\
        env.Set_ lookup_Set StringValue snake ty (pre ++ envVar :: post) value options
          = Err (NotFoundError key')) /\
     (Forall (fun e => env.is_unresolved o e = false) pre ->
      env.Set_ lookup_Set StringValue snake ty (pre ++ envVar :: post) value options
        = Err (NotFoundError key))) /\
  (env.Strict o = false ->
     env.Set_ lookup_Set StringValue snake ty (pre ++ envVar :: post) value options
       = env.Set_ lookup_Set StringValue snake ty (pre ++ post) value options /\
     (Forall (fun e => env.is_assign o e = false) (pre ++ post) ->
      env.Set_ lookup_Set StringValue snake ty (pre ++ envVar :: post) value options
        = Ok value)).
Proof.
  intros Ho Hkey Hfind.
  pose proof (classify_unresolved o envVar key Hkey Hfind) as Hc.
  unfold env.Set_. rewrite Ho. cbn [mbind outcome_bind]. split.
  - intros Hs. split.
    + destruct (scan_strict_some o (pre ++ envVar :: post) ∅ Hs) as (e & key' & ? & ? & ->).
      { apply Exists_app. right. apply Exists_cons_hd. unfold env.is_unresolved. by rewrite Hc. }
      by exists e, key'.
    + intros Hpre. by rewrite (scan_strict_first o pre envVar post key).
  - intros Hs. rewrite (scan_skips_unresolved o pre envVar post key) by done.
    split; [done|]. intros Hnone. by rewrite (scan_no_assign o (pre ++ post) ∅).
Qed.

(** The strict call of [TestSetEnv_MalformedKey]. *)
Lemma Set_unresolved_key_witness :
  env.resolve_options stringy.SnakeCase_ToUpper examples.IndexTestConfig
    [env.WithName "APP"; env.StrictOption] = Ok examples.strict_app_options /\
  env.surviving_key "APP_" "APP_SERVER_INVALID_FIELD=some_value"
    = Some "SERVER_INVALID_FIELD" /\
  env.Set_ examples.store_Set id stringy.SnakeCase_ToUpper examples.IndexTestConfig
    examples.malformed_environ ∅ [env.WithName "APP"; env.StrictOption]
    = Err (NotFoundError "SERVER_INVALID_FIELD").
Proof.
  split; [reflexivity|]. split; [reflexivity|].
  refine (proj2 (proj1 (Set_unresolved_key examples.store_Set id
    stringy.SnakeCase_ToUpper examples.IndexTestConfig ∅
    [env.WithName "APP"; env.StrictOption] examples.strict_app_options [] []
    "APP_SERVER_INVALID_FIELD=some_value" "SERVER_INVALID_FIELD"
    eq_refl eq_refl eq_refl) eq_refl) _).
  constructor.
Defined.

Lemma scan_nonstrict o l m : env.Strict o = false -> exists m', env.scan o l m = Ok m'.
Proof.
  intros Hs. revert m. induction l as [|e l IH]; intros m; [by exists m|].
  cbn [env.scan]. rewrite Hs. destruct (env.classify o e); apply IH.
Qed.

Lemma scan_ok_strict o l m m' :
  env.scan o l m = Ok m' -> env.Strict o = true ->
  Forall (fun e => env.is_unresolved o e = false) l.
Proof.
  intros H Hs. revert m H. induction l as [|e l IH]; intros m H; [constructor|].
  cbn [env.scan] in H. unfold env.is_unresolved. rewrite Hs in H.
  destruct (env.classify o e) eqn:Hc; [| done |].
  - constructor; [by rewrite Hc|eauto].
  - constructor; [by rewrite Hc|eauto].
Qed.

Lemma scan_ok_Permutation o l l' m m1 :
  env.scan o l m = Ok m1 -> l' ≡ₚ l -> exists m2, env.scan o l' m = Ok m2.
Proof.
  intros H Hperm. destruct (env.Strict o) eqn:Hs; [|by apply scan_nonstrict].
  apply scan_resolved. rewrite Hperm. by eapply scan_ok_strict.
Qed.

Lemma scan_dom o l : forall m m',
  env.scan o l m = Ok m' ->
  forall k, is_Some (m' !! k) <->
            is_Some (m !! k) \/ exists e v, e ∈ l /\ env.classify o e = env.Assign k v.
Proof.
  induction l as [|e l IH]; intros m m' H k.
  - injection H as <-. split; [tauto|]. intros [?|(e & v & He & _)]; [done|].
    by apply elem_of_nil in He.
  - cbn [env.scan] in H. destruct (env.classify o e) as [|key|path value] eqn:Hc.
    + rewrite (IH _ _ H k). split; (intros [?|(e' & v & He & Hv)]; [tauto|right]).
      * exists e', v. split; [by apply elem_of_cons; right|done].
      * apply elem_of_cons in He as [->|He]; [congruence|eauto].
    + destruct (negb (env.Strict o)); [|done].
      rewrite (IH _ _ H k). split; (intros [?|(e' & v & He & Hv)]; [tauto|right]).
      * exists e', v. split; [by apply elem_of_cons; right|done].
      * apply elem_of_cons in He as [->|He]; [congruence|eauto].
    + rewrite (IH _ _ H k). rewrite lookup_insert_is_Some. split.
      * intros [[->|[_ ?]]|(e' & v & He & Hv)]; [right|tauto|right].
        -- exists e, value. split; [by apply elem_of_cons; left|done].
        -- exists e', v. split; [by apply elem_of_cons; right|done].
      * intros [?|(e' & v & He & Hv)].
        -- destruct (decide (path = k)); [left; by left|left; right; tauto].
        -- apply elem_of_cons in He as [->|He].
           ++ rewrite Hc in Hv. injection Hv as -> _. left. by left.
           ++ right. eauto.
Qed.

Lemma le_ne_lt (a b : string) : String.le a b -> a <> b -> env.string_lt a b.
Proof.
  unfold String.le, env.string_lt, String.leb, String.ltb. intros Hle Hne.
  destruct (String.compare a b) eqn:Hc; [|done|done].
  by apply String.compare_eq_iff in Hc.
Qed.

Lemma StronglySorted_strict (l : list string) :
  StronglySorted String.le l -> NoDup l -> StronglySorted env.string_lt l.
Proof.
  induction 1 as [|x l Hl IH Hx]; intros Hnd; [constructor|].
  apply NoDup_cons in Hnd as [Hx' Hnd]. constructor; [by apply IH|].
  apply Forall_forall. intros y Hy. apply le_ne_lt.
  - by apply (proj1 (Forall_forall _ _) Hx).
  - intros ->. done.
Qed.

Lemma keys_sorted (m : gmap string string) :
  StronglySorted env.string_lt (env.sort_Strings (map_to_list m).*1).
Proof.
  unfold env.sort_Strings. apply StronglySorted_strict.
  - apply (StronglySorted_merge_sort String.le).
  - rewrite merge_sort_Permutation. apply NoDup_fst_map_to_list.
Qed.

Lemma elem_of_keys (m : gmap string string) k :
  k ∈ env.sort_Strings (map_to_list m).*1 <-> is_Some (m !! k).
Proof.
  unfold env.sort_Strings. rewrite merge_sort_Permutation, list_elem_of_fmap. split.
  - intros ([k' v] & -> & H%elem_of_map_to_list). by exists v.
  - intros [v Hv]. exists (k, v). split; [done|]. by apply elem_of_map_to_list.
Qed.

Lemma keys_unique (m1 m2 : gmap string string) :
  (forall k, is_Some (m1 !! k) <-> is_Some (m2 !! k)) ->
  env.sort_Strings (map_to_list m1).*1 = env.sort_Strings (map_to_list m2).*1.
Proof.
  intros Hdom. unfold env.sort_Strings.
  apply (StronglySorted_unique String.le);
    [apply (StronglySorted_merge_sort String.le)..|].
  rewrite !merge_sort_Permutation.
  apply NoDup_Permutation; [apply NoDup_fst_map_to_list..|].
  intros k. pose proof (elem_of_keys m1 k) as H1. pose proof (elem_of_keys m2 k) as H2.
  unfold env.sort_Strings in *. rewrite merge_sort_Permutation in H1, H2.
  rewrite H1, H2. apply Hdom.
Qed.

(** C6.  When the scan of the environment succeeds, [Set] applies the
    collected entries by calling the path setter along the list of their
    resolved paths in strictly ascending byte-wise order; the list holds
    exactly the paths some entry assigns to, and it is the same for every
    reordering of the environment. *)
Theorem Set_applies_in_path_order {T V : Type}
    (lookup_Set : T -> string -> V -> outcome T) (StringValue : string -> V)
    (snake : string -> string) (ty : index.rtype) (value : T)
    (options : list env.Option) (o : env.EnvOptions)
    (environ : list string) (m : gmap string string) :
  env.resolve_options snake ty options = Ok o ->
  env.scan o environ ∅ = Ok m ->
  let keys := env.sort_Strings (map_to_list m).*1 in
  env.Set_ lookup_Set StringValue snake ty environ value options
    = env.apply_keys lookup_Set StringValue (env.Strict o) m value keys /\
  StronglySorted env.string_lt keys /\
  (forall k, k ∈ keys <-> exists e v, e ∈ environ /\ env.classify o e = env.Assign k v) /\
  (forall environ', environ' ≡ₚ environ ->
     exists m', env.scan o environ' ∅ = Ok m' /\
                env.sort_Strings (map_to_list m').*1 = keys).
Proof.
  intros Ho Hscan keys. split; [|split; [|split]].
  - unfold env.Set_. rewrite Ho. cbn [mbind outcome_bind]. by rewrite Hscan.
  - apply keys_sorted.
  - intros k. unfold keys. rewrite elem_of_keys, (scan_dom _ _ _ _ Hscan k).
    rewrite lookup_empty. split; [intros [[? [=]]|?]; done|tauto].
  - intros environ' Hperm.
    destruct (scan_ok_Permutation o environ environ' ∅ m Hscan Hperm) as [m' Hm'].
    exists m'. split; [done|]. apply keys_unique. intros k.
    rewrite (scan_dom _ _ _ _ Hscan k), (scan_dom _ _ _ _ Hm' k).
    by setoid_rewrite Hperm.
Qed.

Lemma Set_applies_in_path_order_witness :
  env.resolve_options stringy.SnakeCase_ToUpper examples.TestLoadConfig
    [env.WithName "app"] = Ok examples.app_options /\
  env.scan examples.app_options examples.app_environ ∅ = Ok examples.app_assignments /\
  env.sort_Strings (map_to_list examples.app_assignments).*1
    = ["host"; "port"; "sub.name"] /\
  StronglySorted env.string_lt (env.sort_Strings (map_to_list examples.app_assignments).*1).
Proof.
  split; [reflexivity|]. split; [reflexivity|]. split; [reflexivity|].
  exact (proj1 (proj2 (Set_applies_in_path_order examples.store_Set id
    stringy.SnakeCase_ToUpper examples.TestLoadConfig ∅ [env.WithName "app"]
    examples.app_options examples.app_environ examples.app_assignments
    eq_refl eq_refl))).
Defined.

(** ** The flag layer *)

Import flags (is_changed).

Section flag_layer.
Context {T V : Type}.
Variable lookup_Set : T -> string -> V -> outcome T.
Variable fs_Get : gmap string flags.pflag_Flag -> string -> string -> outcome V.
Variable StringValue : string -> V.

Lemma apply_flags_changed_only (entries : list (string * flags.Flag)) : forall value,
  flags.apply_flags lookup_Set fs_Get StringValue value entries =
  flags.apply_flags lookup_Set fs_Get StringValue value (List.filter is_changed entries).
Proof.
  induction entries as [|[k v] entries IH]; intros value; [done|].
  cbn [flags.apply_flags List.filter]. unfold is_changed at 1. cbn [snd].
  destruct (flags.Changed (flags.flag v)) eqn:Hc; [|apply IH].
  cbn [flags.apply_flags]. rewrite Hc.
  destruct (flags.getValue fs_Get StringValue v); [|done..]. cbn [mbind outcome_bind].
  destruct (lookup_Set value k a); [|done..]. cbn [mbind outcome_bind]. apply IH.
Qed.

Lemma apply_flags_unchanged (entries : list (string * flags.Flag)) value :
  Forall (fun kv => is_changed kv = false) entries ->
  flags.apply_flags lookup_Set fs_Get StringValue value entries = Ok value.
Proof.
  induction 1 as [|[k v] entries Hkv _ IH]; [done|].
  cbn [flags.apply_flags]. unfold is_changed in Hkv. cbn [snd] in Hkv. by rewrite Hkv.
Qed.

End flag_layer.

(** C7.  [SetFlags] returns what applying only the explicitly set flags
    returns: a bound flag whose [Changed] is false is never read nor handed
    to the path setter, whatever its default value, and when no bound flag
    is set the record is returned as it was given. *)
Theorem SetFlags_skips_unchanged {T V : Type}
    (lookup_Set : T -> string -> V -> outcome T)
    (fs_Get : gmap string flags.pflag_Flag -> string -> string -> outcome V)
    (StringValue : string -> V)
    (range : gmap string flags.Flag -> list (string * flags.Flag))
    (value : T) (f : flags.Flags) :
  flags.SetFlags lookup_Set fs_Get StringValue range value f
    = flags.apply_flags lookup_Set fs_Get StringValue value
        (List.filter is_changed (range (flags.flags f))) /\
  (Forall (fun kv => is_changed kv = false) (range (flags.flags f)) ->
   flags.SetFlags lookup_Set fs_Get StringValue range value f = Ok value).
Proof.
  unfold flags.SetFlags. split.
  - apply apply_flags_changed_only.
  - apply apply_flags_unchanged.
Qed.

(** X13.  [BindFlag] fails exactly on an empty target or a nil flag: it does
    not look at the index of the flag list. *)
Lemma BindFlag_error_iff (f : flags.Flags) (fs : gmap string flags.pflag_Flag)
    (target : string) (flag : option flags.pflag_Flag) :
  (exists e, flags.BindFlag f fs target flag = Err e) <-> target = "" \/ flag = None.
Proof.
  unfold flags.BindFlag. destruct target as [|a r]; cbn [String.length Nat.eqb].
  - split; [by left|eauto].
  - destruct flag; split; try (intros [e [=]]); try (intros [[=]|[=]]); eauto.
Qed.

(** X12.  [BindCmdFlag] fails exactly on an empty target, a nil command, a
    source flag the command does not define, or, with a non-empty index, a
    target that neither resolves as a key nor, lower-cased, is a path of it. *)
Lemma BindCmdFlag_error_iff (f : flags.Flags) (cmd : option flags.Command)
    (target source : string) :
  (exists e, flags.BindCmdFlag f cmd target source = Err e) <->
  target = "" \/ cmd = None \/
  (exists c, cmd = Some c /\ flags.PersistentFlags c !! source = None /\
             flags.LocalFlags c !! source = None) \/
  ((0 < size (flags.dict f))%nat /\ snd (index.Find (flags.dict f) target) = false /\
   index.PathExists (flags.dict f) (strings.ToLower target) = false).
Proof.
  unfold flags.BindCmdFlag. destruct target as [|a r]; cbn [String.length Nat.eqb].
  { split; [by left|eauto]. }
  destruct cmd as [c|]; [|split; [by right; left|eauto]].
  assert (forall fs fl p,
    (exists e, (target ← flags.resolve_target (flags.dict f) (String a r);
               Ok (flags.mkFlags (<[target := flags.mkFlag fs fl (flags.Use c) p]> (flags.flags f))
                     (flags.dict f))) = Err e) <->
    ((0 < size (flags.dict f))%nat /\ snd (index.Find (flags.dict f) (String a r)) = false /\
     index.PathExists (flags.dict f) (strings.ToLower (String a r)) = false)) as Hres.
  { intros fs fl p. unfold flags.resolve_target.
    destruct (0 <? size (flags.dict f))%nat eqn:Hsz.
    - apply Nat.ltb_lt in Hsz.
      destruct (index.Find (flags.dict f) (String a r)) as [t []]; cbn [snd mbind outcome_bind].
      + split; [intros [e [=]]|intros (_ & [=] & _)].
      + destruct (index.PathExists _ _); cbn [negb mbind outcome_bind].
        * split; [intros [e [=]]|intros (_ & _ & [=])].
        * split; [done|eauto].
    - apply Nat.ltb_ge in Hsz. cbn [mbind outcome_bind].
      split; [intros [e [=]]|intros (? & _); lia]. }
  destruct (flags.PersistentFlags c !! source) as [fl|] eqn:Hp.
  - rewrite Hres. split; [tauto|].
    intros [[=]|[[=]|[(c' & [= <-] & ? & _)|?]]]; [congruence|done].
  - destruct (flags.LocalFlags c !! source) as [fl|] eqn:Hl.
    + rewrite Hres. split; [tauto|].
      intros [[=]|[[=]|[(c' & [= <-] & _ & ?)|?]]]; [congruence|done].
    + split; [|eauto]. intros _. right; right; left. by exists c.
Qed.

(** C8: the code at the failing input.  With the index of [otherStruct]
    supplied and the target "NON_EXISTENT_TARGET", which is neither a key
    nor, lower-cased, a path of that index, [BindCmdFlag] fails as claimed
    while [BindFlag] succeeds and records the lower-cased target. *)
Theorem BindFlag_ignores_index :
  index.New stringy.SnakeCase_ToUpper examples.OtherStruct []
    = Ok examples.OtherStruct_index /\
  index.Find examples.OtherStruct_index "NON_EXISTENT_TARGET" = (EmptyString, false) /\
  index.PathExists examples.OtherStruct_index "non_existent_target" = false /\
  flags.BindCmdFlag (flags.NewFlagList examples.OtherStruct_index)
    (Some examples.test_cmd) "NON_EXISTENT_TARGET" "source-flag"
    = Err (Errorf "target field not found: NON_EXISTENT_TARGET") /\
  flags.BindFlag (flags.NewFlagList examples.OtherStruct_index)
    (flags.PersistentFlags examples.test_cmd) "NON_EXISTENT_TARGET"
    (Some examples.source_flag)
    = Ok (flags.mkFlags
            {[ "non_existent_target" :=
                 flags.mkFlag (flags.PersistentFlags examples.test_cmd)
                   examples.source_flag EmptyString false ]}
            examples.OtherStruct_index).
Proof. repeat split. Qed.

(** ** The layered loader *)

Section load_layers.
Context {T V : Type}.
Variable zero : T.
Variable ty : index.rtype.
Variable defaults_Set : T -> outcome T.
Variable json_Unmarshal yaml_Unmarshal : string -> T -> outcome T.
Variable lookup_Set : T -> string -> V -> outcome T.
Variable lookup_Exists : T -> string -> outcome bool.
Variable lookup_Create : T -> string -> outcome T.
Variable fs_Get : gmap string flags.pflag_Flag -> string -> string -> outcome V.
Variable StringValue : string -> V.
Variable snake : string -> string.
Variable range_index : gmap string index.Item -> list (string * index.Item).
Variable range_flags : gmap string flags.Flag -> list (string * flags.Flag).

#[local] Abbreviation Load :=
  (config.Load zero ty defaults_Set json_Unmarshal yaml_Unmarshal lookup_Set
     lookup_Exists lookup_Create fs_Get StringValue snake range_index range_flags).
#[local] Abbreviation Load_options := (config.Load_options ty snake).
#[local] Abbreviation unmarshal := (config.unmarshal json_Unmarshal yaml_Unmarshal).
#[local] Abbreviation optional_paths := (config.optional_paths range_index).
#[local] Abbreviation changed_paths := (config.changed_paths lookup_Exists).
#[local] Abbreviation create_all := (config.create_all lookup_Create).
#[local] Abbreviation after_file :=
  (config.after_file zero defaults_Set json_Unmarshal yaml_Unmarshal lookup_Exists
     lookup_Create range_index).
#[local] Abbreviation after_env := (config.after_env ty lookup_Set StringValue snake).
#[local] Abbreviation after_flags :=
  (config.after_flags lookup_Set fs_Get StringValue range_flags).
#[local] Abbreviation env_assignments := (config.env_assignments ty snake).
#[local] Abbreviation env_says := (config.env_says ty StringValue snake).
#[local] Abbreviation flag_says := (config.flag_says fs_Get StringValue).
#[local] Abbreviation touched := (config.touched ty snake).
#[local] Abbreviation apply_keys := (env.apply_keys lookup_Set StringValue).
#[local] Abbreviation apply_flags := (flags.apply_flags lookup_Set fs_Get StringValue).

Lemma try_Loaded {A} (x : outcome A) file (k : A -> config.LoadResult T) cfg f :
  config.try x file k = config.Loaded cfg f -> exists a, x = Ok a /\ k a = config.Loaded cfg f.
Proof. destruct x; [eauto|done..]. Qed.

Lemma load_file_Loaded w o cfg0 k cfg f :
  config.load_file zero defaults_Set json_Unmarshal yaml_Unmarshal lookup_Exists
    lookup_Create w o (optional_paths (config.Index o)) cfg0 k = config.Loaded cfg f ->
  (0 <? String.length (config.File o))%nat = true ->
  exists cfg1, after_file w o cfg0 cfg1 /\ k cfg1 = config.Loaded cfg f.
Proof.
  unfold config.load_file, config.after_file. intros H ->.
  apply try_Loaded in H as (data & Hdata & H).
  apply try_Loaded in H as (first & Hfirst & H).
  destruct (optional_paths (config.Index o)) as [|q qs] eqn:Hopt.
  - exists first. split; [|done]. exists data, first. eauto 10.
  - cbn [length Nat.ltb Nat.leb] in H.
    apply try_Loaded in H as (changed & Hch & H).
    destruct changed as [|c cs].
    + exists first. split; [|done]. exists data, first. eauto 10.
    + cbn [length Nat.ltb Nat.leb] in H.
      apply try_Loaded in H as (tmp & Htmp & H).
      apply try_Loaded in H as (base & Hbase & H).
      apply try_Loaded in H as (cfg1 & Hcfg1 & H).
      exists cfg1. split; [|done]. exists data, first.
      split; [done|]. split; [done|]. right. exists (c :: cs), tmp, base. done.
Qed.

Lemma Load_Loaded w options cfg file :
  Load w options = config.Loaded cfg file ->
  exists o cfg0 cfg1 cfg2,
    Load_options w options = Ok o /\
    defaults_Set zero = Ok cfg0 /\
    after_file w o cfg0 cfg1 /\
    after_env w o cfg1 cfg2 /\
    after_flags o cfg2 cfg /\
    file = config.File o.
Proof.
  unfold config.Load, config.Load_options. intros H.
  apply try_Loaded in H as (o1 & Ho1 & H).
  apply try_Loaded in H as (cfg0 & Hcfg0 & H).
  apply try_Loaded in H as (o & Ho & H).
  rewrite Ho1. cbn [mbind outcome_bind]. exists o, cfg0.
  unfold config.file_layer in H.
  assert (exists cfg1, after_file w o cfg0 cfg1 /\
            config.env_layer ty lookup_Set StringValue snake w o cfg1
              (config.flag_layer lookup_Set fs_Get StringValue range_flags o)
            = config.Loaded cfg file) as (cfg1 & Hf & H1).
  { destruct (0 <? String.length (config.File o))%nat eqn:Hfile.
    - by apply load_file_Loaded.
    - exists cfg0. split; [|done]. unfold config.after_file. by rewrite Hfile. }
  clear H. exists cfg1. unfold config.env_layer in H1.
  assert (exists cfg2, after_env w o cfg1 cfg2 /\
            config.flag_layer lookup_Set fs_Get StringValue range_flags o cfg2
            = config.Loaded cfg file) as (cfg2 & He & H2).
  { unfold config.after_env. destruct (0 <? String.length (config.Name o))%nat.
    - apply try_Loaded in H1 as (cfg2 & ? & ?). eauto.
    - eauto. }
  clear H1. exists cfg2. unfold config.flag_layer in H2. unfold config.after_flags.
  destruct (config.Flags o) as [f|].
  - apply try_Loaded in H2 as (c & ? & [= <- <-]). done.
  - injection H2 as <- <-. done.
Qed.

(** *** The two loops over paths *)

Lemma apply_keys_preserves (I : T -> Prop) strict (m : gmap string string) keys :
  forall value value',
  (forall q, q ∈ keys -> forall t x t', lookup_Set t q x = Ok t' -> I t -> I t') ->
  I value -> apply_keys strict m value keys = Ok value' -> I value'.
Proof.
  induction keys as [|k keys IH]; intros value value' Hq Hv Hrun.
  - by injection Hrun as <-.
  - cbn [env.apply_keys] in Hrun.
    assert (forall q, q ∈ keys ->
              forall t x t', lookup_Set t q x = Ok t' -> I t -> I t') as Hq'.
    { intros q Hin. apply Hq. by apply elem_of_cons; right. }
    destruct (lookup_Set value k _) as [value1|e|] eqn:Hset; [| |done].
    + apply (IH value1 value' Hq'); [|done].
      eapply Hq; [|exact Hset|exact Hv]. by apply elem_of_cons; left.
    + destruct e as [n| |]; [|done..].
      destruct (negb strict); [|done]. by apply (IH value value' Hq').
Qed.

Lemma apply_keys_establishes (J : T -> Prop) p strict (m : gmap string string) keys :
  forall value value',
  NoDup keys -> p ∈ keys ->
  (forall t x t', lookup_Set t p x = Ok t' ->
     x = StringValue (default EmptyString (m !! p)) -> J t') ->
  (forall t x n, lookup_Set t p x <> Err (NotFoundError n)) ->
  (forall q, q ∈ keys -> q <> p ->
     forall t x t', lookup_Set t q x = Ok t' -> J t -> J t') ->
  apply_keys strict m value keys = Ok value' -> J value'.
Proof.
  induction keys as [|k keys IH]; intros value value' Hnd Hin Hp Hfound Hq Hrun.
  - by apply elem_of_nil in Hin.
  - apply NoDup_cons in Hnd as [Hk Hnd]. cbn [env.apply_keys] in Hrun.
    destruct (decide (k = p)) as [->|Hne].
    + destruct (lookup_Set value p _) as [value1|e|] eqn:Hset; [| |done].
      * apply (apply_keys_preserves J strict m keys value1 value'); [|by eapply Hp|done].
        intros q Hin'. apply Hq; [by apply elem_of_cons; right|]. by intros ->.
      * destruct e as [n| |]; [|done..]. by apply Hfound in Hset.
    + apply elem_of_cons in Hin as [->|Hin]; [done|].
      assert (forall q, q ∈ keys -> q <> p ->
                forall t x t', lookup_Set t q x = Ok t' -> J t -> J t') as Hq'.
      { intros q Hin'. apply Hq. by apply elem_of_cons; right. }
      destruct (lookup_Set value k _) as [value1|e|] eqn:Hset; [| |done].
      * by apply (IH value1 value').
      * destruct e as [n| |]; [|done..].
        destruct (negb strict); [|done]. by apply (IH value value').
Qed.

Lemma apply_flags_preserves (I : T -> Prop) entries :
  forall value value',
  (forall q fl, (q, fl) ∈ entries -> flags.Changed (flags.flag fl) = true ->
     forall t x t', lookup_Set t q x = Ok t' -> I t -> I t') ->
  I value -> apply_flags value entries = Ok value' -> I value'.
Proof.
  induction entries as [|[k fl] entries IH]; intros value value' Hq Hv Hrun.
  - by injection Hrun as <-.
  - cbn [flags.apply_flags] in Hrun.
    assert (forall q fl', (q, fl') ∈ entries -> flags.Changed (flags.flag fl') = true ->
              forall t x t', lookup_Set t q x = Ok t' -> I t -> I t') as Hq'.
    { intros q fl' Hin. apply Hq. by apply elem_of_cons; right. }
    destruct (flags.Changed (flags.flag fl)) eqn:Hc; [|by apply (IH value value')].
    destruct (flags.getValue fs_Get StringValue fl) as [val| |]; [|done..].
    cbn [mbind outcome_bind] in Hrun.
    destruct (lookup_Set value k val) as [value1| |] eqn:Hset; [|done..].
    cbn [mbind outcome_bind] in Hrun. apply (IH value1 value' Hq'); [|done].
    eapply (Hq k fl); [by apply elem_of_cons; left|done|exact Hset|exact Hv].
Qed.

Lemma apply_flags_establishes (J : T -> Prop) p fl entries :
  forall value value',
  NoDup entries.*1 -> (p, fl) ∈ entries ->
  flags.Changed (flags.flag fl) = true ->
  (forall t x t', flags.getValue fs_Get StringValue fl = Ok x ->
     lookup_Set t p x = Ok t' -> J t') ->
  (forall q fl', (q, fl') ∈ entries -> q <> p ->
     flags.Changed (flags.flag fl') = true ->
     forall t x t', lookup_Set t q x = Ok t' -> J t -> J t') ->
  apply_flags value entries = Ok value' -> J value'.
Proof.
  induction entries as [|[k fl0] entries IH]; intros value value' Hnd Hin Hc Hp Hq Hrun.
  - by apply elem_of_nil in Hin.
  - cbn [fmap list_fmap fst] in Hnd. apply NoDup_cons in Hnd as [Hk Hnd].
    cbn [flags.apply_flags] in Hrun.
    assert (forall q fl', (q, fl') ∈ entries -> q <> p ->
              flags.Changed (flags.flag fl') = true ->
              forall t x t', lookup_Set t q x = Ok t' -> J t -> J t') as Hq'.
    { intros q fl' Hin'. apply Hq. by apply elem_of_cons; right. }
    apply elem_of_cons in Hin as [[= <- <-]|Hin].
    + rewrite Hc in Hrun.
      destruct (flags.getValue fs_Get StringValue fl) as [val| |] eqn:Hval; [|done..].
      cbn [mbind outcome_bind] in Hrun.
      destruct (lookup_Set value p val) as [value1| |] eqn:Hset; [|done..].
      cbn [mbind outcome_bind] in Hrun.
      apply (apply_flags_preserves J entries value1 value'); [|by eapply Hp|done].
      intros q fl' Hin' Hc'. apply (Hq' q fl'); [done| |done].
      intros ->. apply Hk. apply list_elem_of_fmap. by exists (p, fl').
    + assert (k <> p) as Hne.
      { intros ->. apply Hk. apply list_elem_of_fmap. by exists (p, fl). }
      destruct (flags.Changed (flags.flag fl0)) eqn:Hc0; [|by apply (IH value value')].
      destruct (flags.getValue fs_Get StringValue fl0) as [val| |]; [|done..].
      cbn [mbind outcome_bind] in Hrun.
      destruct (lookup_Set value k val) as [value1| |] eqn:Hset; [|done..].
      cbn [mbind outcome_bind] in Hrun. apply (IH value1 value'); try done.
Qed.

Lemma apply_flags_reads p fl entries : forall value value',
  (p, fl) ∈ entries -> flags.Changed (flags.flag fl) = true ->
  apply_flags value entries = Ok value' ->
  exists x, flags.getValue fs_Get StringValue fl = Ok x.
Proof.
  induction entries as [|[k fl0] entries IH]; intros value value' Hin Hc Hrun.
  - by apply elem_of_nil in Hin.
  - cbn [flags.apply_flags] in Hrun. apply elem_of_cons in Hin as [[= <- <-]|Hin].
    + rewrite Hc in Hrun.
      destruct (flags.getValue fs_Get StringValue fl) as [x| |]; [by exists x|done..].
    + destruct (flags.Changed (flags.flag fl0)); [|by apply (IH value value')].
      destruct (flags.getValue fs_Get StringValue fl0) as [val| |]; [|done..].
      cbn [mbind outcome_bind] in Hrun.
      destruct (lookup_Set value k val) as [value1| |]; [|done..].
      cbn [mbind outcome_bind] in Hrun. by apply (IH value1 value').
Qed.

(** *** The environment and flag layers as loops over paths *)

Lemma after_env_keys w o cfg1 cfg2 :
  after_env w o cfg1 cfg2 ->
  exists strict keys,
    apply_keys strict (env_assignments w o) cfg1 keys = Ok cfg2 /\
    NoDup keys /\
    (forall q, q ∈ keys <-> is_Some (env_assignments w o !! q)).
Proof.
  unfold config.after_env, config.env_assignments.
  destruct (0 <? String.length (config.Name o))%nat.
  - unfold env.Set_.
    destruct (env.resolve_options snake ty (config.env_options o)) as [eo| |]; [|done..].
    cbn [mbind outcome_bind].
    destruct (env.scan eo (config.Environ w) ∅) as [m| |]; [|done..].
    cbn [mbind outcome_bind]. intros Hrun.
    exists (env.Strict eo), (env.sort_Strings (map_to_list m).*1).
    split; [done|]. split; [|apply elem_of_keys].
    unfold env.sort_Strings. rewrite merge_sort_Permutation. apply NoDup_fst_map_to_list.
  - intros ->. exists false, []. split; [done|]. split; [constructor|].
    intros q. rewrite lookup_empty. split; [by intros ?%elem_of_nil|by intros [? [=]]].
Qed.

Hypothesis range_flags_enumerates : forall m, range_flags m ≡ₚ map_to_list m.

Lemma after_flags_entries o cfg2 cfg :
  after_flags o cfg2 cfg ->
  exists entries,
    apply_flags cfg2 entries = Ok cfg /\
    NoDup entries.*1 /\
    (forall q fl, (q, fl) ∈ entries ->
       flags.Changed (flags.flag fl) = true -> config.changed_flag o q = Some fl) /\
    (forall q fl, config.changed_flag o q = Some fl -> (q, fl) ∈ entries /\
       flags.Changed (flags.flag fl) = true).
Proof.
  unfold config.after_flags, config.changed_flag.
  destruct (config.Flags o) as [f|].
  - unfold flags.SetFlags. intros Hrun. exists (range_flags (flags.flags f)).
    split; [done|]. split; [|split].
    + rewrite range_flags_enumerates. apply NoDup_fst_map_to_list.
    + intros q fl Hin Hc. rewrite range_flags_enumerates in Hin.
      apply elem_of_map_to_list in Hin. by rewrite Hin, Hc.
    + intros q fl. destruct (flags.flags f !! q) as [fl'|] eqn:Hq; [|done].
      destruct (flags.Changed (flags.flag fl')) eqn:Hc; [|done].
      intros [= <-]. split; [|done].
      rewrite range_flags_enumerates. by apply elem_of_map_to_list.
  - intros ->. exists []. split; [done|]. split; [constructor|].
    split; [by intros ?? ?%elem_of_nil|done].
Qed.

(** *** The optional paths the file brings into existence *)

Lemma changed_paths_elem first optional changed :
  changed_paths first optional = Ok changed ->
  forall x, x ∈ changed <-> x ∈ optional /\ lookup_Exists first x = Ok true.
Proof.
  revert changed. induction optional as [|q optional IH]; intros changed Hrun x.
  - injection Hrun as <-. split; [by intros ?%elem_of_nil|by intros [?%elem_of_nil _]].
  - cbn [config.changed_paths] in Hrun.
    destruct (lookup_Exists first q) as [ok| |] eqn:Hq; [|done..].
    cbn [mbind outcome_bind] in Hrun.
    destruct (changed_paths first optional) as [rest| |]; [|done..].
    cbn [mbind outcome_bind] in Hrun. injection Hrun as <-.
    specialize (IH rest eq_refl x). rewrite elem_of_cons. destruct ok.
    + rewrite elem_of_cons, IH. split; [intros [->|[? ?]]; auto|].
      intros [[->|?] ?]; auto.
    + rewrite IH. split; [intros [? ?]; auto|].
      intros [[->|?] ?]; [congruence|auto].
Qed.

Lemma create_all_preserves (I : T -> Prop) changed : forall tmp base,
  (forall q, q ∈ changed -> forall t t', lookup_Create t q = Ok t' -> I t -> I t') ->
  I tmp -> create_all tmp changed = Ok base -> I base.
Proof.
  induction changed as [|q changed IH]; intros tmp base Hq Htmp Hrun.
  - by injection Hrun as <-.
  - cbn [config.create_all] in Hrun.
    destruct (lookup_Create tmp q) as [tmp1| |] eqn:Hc; [|done..].
    cbn [mbind outcome_bind] in Hrun. apply (IH tmp1 base); [| |done].
    + intros q' Hin. apply Hq. by apply elem_of_cons; right.
    + eapply Hq; [|exact Hc|exact Htmp]. by apply elem_of_cons; left.
Qed.

(** *** The layers on one path *)

Variable holds : T -> string -> V -> Prop.

#[local] Abbreviation path_setter := (config.path_setter ty lookup_Set snake holds).
#[local] Abbreviation lower_layers :=
  (config.lower_layers zero defaults_Set json_Unmarshal yaml_Unmarshal lookup_Create
     range_index holds).
#[local] Abbreviation untouched_optional :=
  (config.untouched_optional zero ty defaults_Set json_Unmarshal yaml_Unmarshal
     lookup_Set lookup_Exists lookup_Create snake).
#[local] Abbreviation populated_optional :=
  (config.populated_optional zero defaults_Set json_Unmarshal yaml_Unmarshal
     lookup_Exists lookup_Create range_index holds).

(** The environment layer on [p]: the environment's value when it assigns
    one, else what the record held. *)
Lemma env_layer_path w o p lower cfg1 cfg2 v :
  path_setter w o p -> after_env w o cfg1 cfg2 ->
  (forall v0, lower = Some v0 -> holds cfg1 p v0) ->
  config.layered None (env_says w o p) lower None = Some v -> holds cfg2 p v.
Proof.
  intros Hset Henv Hlow Hv.
  destruct (after_env_keys w o cfg1 cfg2 Henv) as (strict & keys & Hrun & Hnd & Hkeys).
  unfold config.env_says in Hv.
  destruct (env_assignments w o !! p) as [s|] eqn:Hp; cbn [fmap option_fmap option_map] in Hv.
  - injection Hv as <-.
    apply (apply_keys_establishes (fun t => holds t p (StringValue s)) p strict
             (env_assignments w o) keys cfg1 cfg2); try done.
    + apply Hkeys. by rewrite Hp.
    + intros t x t' Hx ->. rewrite Hp in Hx. by apply (config.setter_holds _ _ _ _ _ _ _ Hset) in Hx.
    + apply (config.setter_found _ _ _ _ _ _ _ Hset).
    + intros q Hin Hne t x t'.
      apply (config.setter_frame _ _ _ _ _ _ _ Hset q Hne); left. by apply Hkeys.
  - assert (holds cfg1 p v) as H1.
    { apply Hlow. by destruct lower. }
    apply (apply_keys_preserves (fun t => holds t p v) strict
             (env_assignments w o) keys cfg1 cfg2); try done.
    intros q Hin t x t'. apply (config.setter_frame _ _ _ _ _ _ _ Hset q).
    + intros ->. apply Hkeys in Hin. rewrite Hp in Hin. by destruct Hin.
    + left. by apply Hkeys.
Qed.

(** The flag layer on [p]: the value of the explicitly set flag bound to
    [p], else what the record held. *)
Lemma flag_layer_path w o p lower cfg2 cfg v :
  path_setter w o p -> after_flags o cfg2 cfg ->
  (forall v0, lower = Some v0 -> holds cfg2 p v0) ->
  config.layered (flag_says o p) None lower None = Some v -> holds cfg p v.
Proof.
  intros Hset Hflags Hlow Hv.
  destruct (after_flags_entries o cfg2 cfg Hflags) as (entries & Hrun & Hnd & Hin & Hout).
  assert (forall q fl, (q, fl) ∈ entries -> q <> p ->
            flags.Changed (flags.flag fl) = true ->
            forall t x t', lookup_Set t q x = Ok t' -> holds t p v -> holds t' p v) as Hframe.
  { intros q fl Hq Hne Hc t x t'. apply (config.setter_frame _ _ _ _ _ _ _ Hset q Hne).
    right. rewrite (Hin q fl Hq Hc). by eexists. }
  unfold config.flag_says in Hv.
  destruct (config.changed_flag o p) as [fl|] eqn:Hp.
  - destruct (Hout p fl Hp) as [Hmem Hc].
    destruct (flags.getValue fs_Get StringValue fl) as [x| |] eqn:Hx.
    + injection Hv as <-.
      apply (apply_flags_establishes (fun t => holds t p x) p fl entries cfg2 cfg);
        try done.
      intros t x' t' Hx'. rewrite Hx in Hx'. injection Hx' as <-.
      apply (config.setter_holds _ _ _ _ _ _ _ Hset).
    + destruct (apply_flags_reads p fl entries cfg2 cfg Hmem Hc Hrun) as [x' Hx'].
      congruence.
    + destruct (apply_flags_reads p fl entries cfg2 cfg Hmem Hc Hrun) as [x' Hx'].
      congruence.
  - assert (holds cfg2 p v) as H2.
    { apply Hlow. by destruct lower. }
    apply (apply_flags_preserves (fun t => holds t p v) entries cfg2 cfg); try done.
    intros q fl Hq Hc. apply (Hframe q fl Hq); [|done].
    intros ->. by rewrite (Hin p fl Hq Hc) in Hp.
Qed.

(** The environment and flag layers together, over whatever the lower
    layers left at [p]. *)
Lemma upper_layers w o p lower cfg1 cfg2 cfg v :
  path_setter w o p -> after_env w o cfg1 cfg2 -> after_flags o cfg2 cfg ->
  (forall v0, lower = Some v0 -> holds cfg1 p v0) ->
  config.layered (flag_says o p) (env_says w o p) lower None = Some v -> holds cfg p v.
Proof.
  intros Hset Henv Hflags Hlow Hv.
  apply (flag_layer_path w o p (config.layered None (env_says w o p) lower None) cfg2 cfg v);
    try done.
  - intros v0 Hv0. by apply (env_layer_path w o p lower cfg1 cfg2 v0).
  - destruct (flag_says o p), (env_says w o p), lower; done.
Qed.

(** The default and file layers on a path outside the optional
    substructures. *)
Lemma lower_layers_path w o p default_says file_says cfg0 cfg1 v :
  lower_layers w o p default_says file_says ->
  defaults_Set zero = Ok cfg0 -> after_file w o cfg0 cfg1 ->
  config.layered None None file_says default_says = Some v -> holds cfg1 p v.
Proof.
  intros Hlow Hdef Hfile Hv. unfold config.after_file in Hfile.
  destruct (0 <? String.length (config.File o))%nat eqn:Hlen.
  - destruct Hfile as (data & first & Hread & Hfirst & Hrest).
    destruct file_says as [x|] eqn:Hsays; cbn [config.layered] in Hv.
    + injection Hv as <-.
      destruct Hrest as [[-> _]|(changed & tmp & base & _ & _ & _ & _ & Hre)].
      * by apply (config.file_holds _ _ _ _ _ _ _ _ _ _ _ _ Hlow x data cfg0 first).
      * by apply (config.file_holds _ _ _ _ _ _ _ _ _ _ _ _ Hlow x data base cfg1).
    + destruct Hrest as [[-> _]|(changed & tmp & base & Hch & _ & Htmp & Hbase & Hre)].
      * apply (config.file_frame _ _ _ _ _ _ _ _ _ _ _ _ Hlow data cfg0 first v);
          try done.
        by apply (config.default_holds _ _ _ _ _ _ _ _ _ _ _ _ Hlow).
      * apply (config.file_frame _ _ _ _ _ _ _ _ _ _ _ _ Hlow data base cfg1 v);
          try done.
        apply (create_all_preserves (fun t => holds t p v) changed tmp base); try done.
        -- intros q Hq t t'. apply (config.create_frame _ _ _ _ _ _ _ _ _ _ _ _ Hlow).
           by apply (changed_paths_elem first _ changed Hch q).
        -- by apply (config.default_holds _ _ _ _ _ _ _ _ _ _ _ _ Hlow).
  - subst cfg1. destruct file_says as [x|] eqn:Hsays; cbn [config.layered] in Hv.
    + pose proof (config.file_loaded _ _ _ _ _ _ _ _ _ _ _ _ Hlow x eq_refl). congruence.
    + by apply (config.default_holds _ _ _ _ _ _ _ _ _ _ _ _ Hlow).
Qed.

(** An optional substructure that no layer mentions stays nil through the
    file layer. *)
Lemma untouched_after_file w o s cfg0 cfg1 :
  untouched_optional w o s ->
  defaults_Set zero = Ok cfg0 -> after_file w o cfg0 cfg1 ->
  lookup_Exists cfg1 s = Ok false.
Proof.
  intros Hun Hdef Hfile. unfold config.after_file in Hfile.
  pose proof (config.nil_default _ _ _ _ _ _ _ _ _ _ _ _ Hun) as Hnil.
  destruct (0 <? String.length (config.File o))%nat.
  - destruct Hfile as (data & first & Hread & Hfirst & Hrest).
    assert (lookup_Exists first s = Ok false) as Hs.
    { apply (config.nil_file _ _ _ _ _ _ _ _ _ _ _ _ Hun data cfg0 first); auto. }
    destruct Hrest as [[-> _]|(changed & tmp & base & Hch & _ & Htmp & Hbase & Hre)]; [done|].
    apply (config.nil_file _ _ _ _ _ _ _ _ _ _ _ _ Hun data base cfg1); try done.
    apply (create_all_preserves (fun t => lookup_Exists t s = Ok false) changed tmp base);
      auto.
    intros q Hq t t'.
    apply (config.nil_create _ _ _ _ _ _ _ _ _ _ _ _ Hun q first); [|done].
    by apply (changed_paths_elem first _ changed Hch q).
  - subst cfg1. auto.
Qed.

(** It stays nil through the environment and flag layers. *)
Lemma untouched_after_upper w o s cfg1 cfg2 cfg :
  untouched_optional w o s ->
  after_env w o cfg1 cfg2 -> after_flags o cfg2 cfg ->
  lookup_Exists cfg1 s = Ok false -> lookup_Exists cfg s = Ok false.
Proof.
  intros Hun Henv Hflags H1.
  destruct (after_env_keys w o cfg1 cfg2 Henv) as (strict & keys & Hrun & _ & Hkeys).
  destruct (after_flags_entries o cfg2 cfg Hflags) as (entries & Hrun' & _ & Hin & _).
  apply (apply_flags_preserves (fun t => lookup_Exists t s = Ok false) entries cfg2 cfg);
    try done.
  - intros q fl Hq Hc. apply (config.nil_set _ _ _ _ _ _ _ _ _ _ _ _ Hun).
    right. rewrite (Hin q fl Hq Hc). by eexists.
  - apply (apply_keys_preserves (fun t => lookup_Exists t s = Ok false) strict
             (env_assignments w o) keys cfg1 cfg2); try done.
    intros q Hq. apply (config.nil_set _ _ _ _ _ _ _ _ _ _ _ _ Hun).
    left. by apply Hkeys.
Qed.

(** Creating the optional paths the file touched, the populated one among
    them, leaves its field at the default literal. *)
Lemma create_all_default w o s q default_says file_says v changed : forall tmp base,
  populated_optional w o s q default_says file_says ->
  default_says = Some v ->
  (forall x, x ∈ changed -> x ∈ optional_paths (config.Index o)) ->
  create_all tmp changed = Ok base ->
  (lookup_Exists tmp s = Ok false /\ s ∈ changed) \/ holds tmp q v ->
  holds base q v.
Proof.
  induction changed as [|q' changed IH]; intros tmp base Hpop Hdef Hsub Hrun Hstate.
  - injection Hrun as <-. destruct Hstate as [[_ ?%elem_of_nil]|?]; done.
  - cbn [config.create_all] in Hrun.
    destruct (lookup_Create tmp q') as [tmp1| |] eqn:Hc; [|done..].
    cbn [mbind outcome_bind] in Hrun.
    assert (q' ∈ optional_paths (config.Index o)) as Hq'.
    { apply Hsub. by apply elem_of_cons; left. }
    apply (IH tmp1 base); try done.
    { intros x Hx. apply Hsub. by apply elem_of_cons; right. }
    destruct Hstate as [[Hnil Hin]|Hheld].
    + destruct (decide (q' = s)) as [->|Hne].
      * right. by apply (config.pop_create_self _ _ _ _ _ _ _ _ _ _ _ _ _ _ Hpop tmp tmp1 v).
      * apply elem_of_cons in Hin as [->|Hin]; [done|].
        destruct (config.pop_create_other _ _ _ _ _ _ _ _ _ _ _ _ _ _ Hpop q' tmp tmp1 v);
          auto.
    + right. by apply (config.pop_create_frame _ _ _ _ _ _ _ _ _ _ _ _ _ _ Hpop q' tmp tmp1 v).
Qed.

(** The default and file layers on a field of an optional substructure that
    the file populates. *)
Lemma populated_after_file w o s q default_says file_says cfg0 cfg1 v :
  populated_optional w o s q default_says file_says ->
  defaults_Set zero = Ok cfg0 -> after_file w o cfg0 cfg1 ->
  config.layered None None file_says default_says = Some v -> holds cfg1 q v.
Proof.
  intros Hpop Hdef Hfile Hv. unfold config.after_file in Hfile.
  rewrite (config.pop_file _ _ _ _ _ _ _ _ _ _ _ _ _ _ Hpop) in Hfile.
  destruct Hfile as (data & first & Hread & Hfirst & Hrest).
  pose proof (config.pop_optional _ _ _ _ _ _ _ _ _ _ _ _ _ _ Hpop) as Hopt.
  pose proof (config.pop_decoded _ _ _ _ _ _ _ _ _ _ _ _ _ _ Hpop data cfg0 first Hread Hfirst)
    as Hs.
  destruct Hrest as [[_ [Hnone|Hnone]]|(changed & tmp & base & Hch & _ & Htmp & Hbase & Hre)].
  - rewrite Hnone in Hopt. by apply elem_of_nil in Hopt.
  - pose proof (proj2 (changed_paths_elem first _ [] Hnone s) (conj Hopt Hs)) as Hin.
    by apply elem_of_nil in Hin.
  - destruct file_says as [x|] eqn:Hsays; cbn [config.layered] in Hv.
    + injection Hv as <-.
      by apply (config.pop_file_holds _ _ _ _ _ _ _ _ _ _ _ _ _ _ Hpop x data base cfg1).
    + apply (config.pop_file_frame _ _ _ _ _ _ _ _ _ _ _ _ _ _ Hpop data base cfg1 v);
        try done.
      apply (create_all_default w o s q default_says None v changed tmp base); try done.
      * intros x Hx. by apply (changed_paths_elem first _ changed Hch x).
      * left. split; [by apply (config.pop_default_nil _ _ _ _ _ _ _ _ _ _ _ _ _ _ Hpop)|].
        by apply (changed_paths_elem first _ changed Hch s).
Qed.

(** C1.  Whenever [Load] returns a record, the record holds at the path [p]
    the value of the highest layer that says something about [p]: the
    value of the explicitly set flag bound to [p]; with no such flag, the
    value the environment assigns to [p]; with neither, the value the file
    gives; with none of them, the default literal.  [p] is a path outside
    the optional substructures on which the collaborators keep their
    contracts. *)
Theorem Load_precedence w options o p default_says file_says cfg file v :
  Load_options w options = Ok o ->
  path_setter w o p ->
  lower_layers w o p default_says file_says ->
  Load w options = config.Loaded cfg file ->
  config.layered (flag_says o p) (env_says w o p) file_says default_says = Some v ->
  holds cfg p v.
Proof.
  intros Ho Hset Hlow Hload Hv.
  destruct (Load_Loaded w options cfg file Hload)
    as (o' & cfg0 & cfg1 & cfg2 & Ho' & Hdef & Hfile & Henv & Hflags & _).
  rewrite Ho in Ho'. injection Ho' as <-.
  apply (upper_layers w o p (config.layered None None file_says default_says)
           cfg1 cfg2 cfg v); try done.
  - intros v0. by apply (lower_layers_path w o p default_says file_says cfg0 cfg1).
  - destruct (flag_says o p), (env_says w o p), file_says, default_says; done.
Qed.

(** C2.  Whenever [Load] returns a record: an optional substructure [s]
    that neither the file nor the environment nor a flag mentions is nil in
    it; and a field [q] of an optional substructure that the file populates
    holds the value of the highest layer that says something about [q], so
    with the environment and the flags silent on [q], the file's value when
    the file gives one and otherwise the default literal, which the reload
    on a fresh record with the touched optional paths created puts there. *)
Theorem Load_optional_substructure w options o s cfg file :
  Load_options w options = Ok o ->
  Load w options = config.Loaded cfg file ->
  (untouched_optional w o s -> lookup_Exists cfg s = Ok false) /\
  (forall q default_says file_says v,
     populated_optional w o s q default_says file_says ->
     path_setter w o q ->
     config.layered (flag_says o q) (env_says w o q) file_says default_says = Some v ->
     holds cfg q v).
Proof.
  intros Ho Hload.
  destruct (Load_Loaded w options cfg file Hload)
    as (o' & cfg0 & cfg1 & cfg2 & Ho' & Hdef & Hfile & Henv & Hflags & _).
  rewrite Ho in Ho'. injection Ho' as <-. split.
  - intros Hun. apply (untouched_after_upper w o s cfg1 cfg2 cfg); try done.
    by apply (untouched_after_file w o s cfg0 cfg1).
  - intros q default_says file_says v Hpop Hset Hv.
    apply (upper_layers w o q (config.layered None None file_says default_says)
             cfg1 cfg2 cfg v); try done.
    + intros v0. by apply (populated_after_file w o s q default_says file_says cfg0 cfg1).
    + destruct (flag_says o q), (env_says w o q), file_says, default_says; done.
Qed.

End load_layers.

(** ** The stand-in store keeps the contracts *)

Section store_contracts.
Import examples.

#[local] Abbreviation snake := stringy.SnakeCase_ToUpper.

Ltac evaluate_tests :=
  repeat match goal with
  | |- context [is_leaf ?p] =>
      let b := eval vm_compute in (is_leaf p) in change (is_leaf p) with b
  | |- context [in_sub2 ?p] =>
      let b := eval vm_compute in (in_sub2 p) in change (in_sub2 p) with b
  end.

Lemma insert_holds t q x p v :
  q <> p -> store_holds t p v -> store_holds (<[q := x]> t) p v.
Proof.
  intros Hne [Hp Hsub]. split; [by rewrite lookup_insert_ne|].
  intros Hin. destruct (decide (q = "sub2")) as [->|Hq].
  - by rewrite lookup_insert_eq.
  - rewrite lookup_insert_ne by done. auto.
Qed.

Lemma set_default_holds t k d p v :
  store_holds t p v -> store_holds (set_default k d t) p v.
Proof.
  intros H. unfold set_default. destruct (t !! k) eqn:Hk; [done|].
  apply insert_holds; [|done]. intros ->. destruct H as [H _]. congruence.
Qed.

Lemma alloc_defaulted_holds t p v :
  store_holds t p v -> store_holds (alloc_defaulted t) p v.
Proof.
  intros H. unfold alloc_defaulted. destruct (t !! "sub2") eqn:Hs; [done|].
  destruct H as [Hp Hsub]. destruct (in_sub2 p) eqn:Hin.
  - destruct (Hsub eq_refl) as [? ?]. congruence.
  - split; [|by rewrite Hin].
    rewrite !lookup_insert_ne; [done|..];
      intros <-; first [congruence|vm_compute in Hin; done].
Qed.

Lemma alloc_defaulted_sub2 t : is_Some (alloc_defaulted t !! "sub2").
Proof.
  unfold alloc_defaulted. destruct (t !! "sub2") eqn:Hs; [by rewrite Hs|].
  rewrite lookup_insert_ne by done. by rewrite lookup_insert_eq.
Qed.

Lemma alloc_raw_sub2 t : is_Some (alloc_raw t !! "sub2").
Proof.
  unfold alloc_raw, set_default. destruct (t !! "sub2") eqn:Hs; [by rewrite Hs|].
  by rewrite lookup_insert_eq.
Qed.

Lemma store_Exists_sub2 t b :
  store_Exists t "sub2" = Ok b <-> bool_decide (is_Some (t !! "sub2")) = b.
Proof. unfold store_Exists. cbn. split; [by intros [= <-]|by intros <-]. Qed.

(** The path setter of the store on a leaf. *)
Lemma store_path_setter w o p :
  is_leaf p = true ->
  config.path_setter TestLoadConfig store_Set snake store_holds w o p.
Proof.
  intros Hleaf. split.
  - intros t v t'. unfold store_Set. rewrite Hleaf. intros [= <-]. split.
    + apply lookup_insert_eq.
    + intros Hin. rewrite Hin, lookup_insert_ne.
      * apply alloc_defaulted_sub2.
      * intros ->. vm_compute in Hin. done.
  - intros t v n. unfold store_Set. by rewrite Hleaf.
  - intros q Hne _ t x t' v. unfold store_Set.
    destruct (is_leaf q); [|done]. intros [= <-] H. apply insert_holds; [done|].
    destruct (in_sub2 q); [by apply alloc_defaulted_holds|done].
Qed.

(** Decoding the two files of the test world. *)
Lemma my_app_decoded w o data t t' :
  config.ReadFile w = test_ReadFile ->
  config.File o = "/tmp/my-app.json" -> config.FileType_ o = config.JSON ->
  config.ReadFile w (config.File o) = Ok data ->
  config.unmarshal store_Unmarshal store_Unmarshal o data t = Ok t' ->
  t' = <["sub.name" := "json-sub"]> (<["port" := "9090"]> (<["host" := "json.host.com"]> t)).
Proof.
  intros Hw Hf Hft. unfold config.unmarshal. rewrite Hw, Hf, Hft.
  intros [= <-]. unfold store_Unmarshal.
  change (parse_file _) with
    (Some [("host", "json.host.com"); ("port", "9090"); ("sub.name", "json-sub")]).
  by intros [= <-].
Qed.

Lemma sub2_decoded w o data t t' :
  config.ReadFile w = test_ReadFile ->
  config.File o = "/tmp/sub2.json" -> config.FileType_ o = config.JSON ->
  config.ReadFile w (config.File o) = Ok data ->
  config.unmarshal store_Unmarshal store_Unmarshal o data t = Ok t' ->
  t' = <["sub2.name" := "new name"]> (alloc_raw t).
Proof.
  intros Hw Hf Hft. unfold config.unmarshal. rewrite Hw, Hf, Hft.
  intros [= <-]. unfold store_Unmarshal.
  change (parse_file _) with (Some [("sub2.name", "new name")]).
  by intros [= <-].
Qed.

Lemma precedence_file :
  config.File precedence_options = "/tmp/my-app.json" /\
  config.FileType_ precedence_options = config.JSON.
Proof. split; vm_compute; reflexivity. Qed.

Lemma pointer_file :
  config.File pointer_options = "/tmp/sub2.json" /\
  config.FileType_ pointer_options = config.JSON /\
  config.optional_paths map_to_list (config.Index pointer_options) = ["sub2"].
Proof. repeat split; vm_compute; reflexivity. Qed.

Lemma store_Create_sub2 t q t' :
  store_Create t q = Ok t' -> q = "sub2" /\ t' = alloc_defaulted t.
Proof.
  unfold store_Create. destruct (String.eqb_spec q "sub2") as [->|]; [|done].
  by intros [= <-].
Qed.

(** The lower layers of the store on the path "port", which the default
    tag gives 8080: with the file [my-app.json], which gives 9090, and with
    no file. *)
Lemma port_with_file w o :
  config.ReadFile w = test_ReadFile ->
  config.File o = "/tmp/my-app.json" -> config.FileType_ o = config.JSON ->
  config.lower_layers ∅ store_defaults store_Unmarshal store_Unmarshal store_Create
    map_to_list store_holds w o "port" (Some "8080") (Some "9090").
Proof.
  intros Hw Hf Hft. split.
  - intros v t [= <-] [= <-]. split; [reflexivity|]. intros H. vm_compute in H. done.
  - intros q t t' v _ Hc. apply store_Create_sub2 in Hc as [_ ->].
    apply alloc_defaulted_holds.
  - intros v _. by rewrite Hf.
  - intros v data t t' [= <-] Hread Hdec.
    rewrite (my_app_decoded w o data t t' Hw Hf Hft Hread Hdec). split.
    + rewrite lookup_insert_ne by done. apply lookup_insert_eq.
    + intros H. vm_compute in H. done.
  - intros data t t' v [=].
Qed.

Lemma port_without_file w o :
  config.ReadFile w = test_ReadFile -> config.File o = EmptyString ->
  config.lower_layers ∅ store_defaults store_Unmarshal store_Unmarshal store_Create
    map_to_list store_holds w o "port" (Some "8080") None.
Proof.
  intros Hw Hf. split.
  - intros v t [= <-] [= <-]. split; [reflexivity|]. intros H. vm_compute in H. done.
  - intros q t t' v _ Hc. apply store_Create_sub2 in Hc as [_ ->].
    apply alloc_defaulted_holds.
  - intros v [=].
  - intros v data t t' [=].
  - intros data t t' v _. rewrite Hw, Hf. intros [=].
Qed.

(** The optional substructure "sub2" in the load that no layer mentions it
    in. *)
Lemma precedence_untouched :
  config.untouched_optional ∅ TestLoadConfig store_defaults store_Unmarshal
    store_Unmarshal store_Set store_Exists store_Create snake
    precedence_world precedence_options "sub2".
Proof.
  split.
  - intros t [= <-]. reflexivity.
  - intros data t t' Hread Hdec. destruct precedence_file as [Hf Hft].
    rewrite (my_app_decoded precedence_world _ data t t' eq_refl Hf Hft Hread Hdec).
    clear Hf Hft Hread Hdec. rewrite !store_Exists_sub2. by rewrite !lookup_insert_ne.
  - intros q first t t' Hq Hs Hc. apply store_Create_sub2 in Hc as [-> _]. congruence.
  - intros q Htouched t x t'.
    assert (q = "port") as ->.
    { destruct Htouched as [[s Hs]|[fl Hfl]].
      - change (config.env_assignments TestLoadConfig snake precedence_world
                  precedence_options) with ({[ "port" := "9999" ]} : gmap string string) in Hs.
        by apply lookup_singleton_Some in Hs as [<- _].
      - unfold config.changed_flag in Hfl.
        change (config.Flags precedence_options)
          with (Some (flags.mkFlags
                  {[ "port" := flags.mkFlag (port_flagset true "12345")
                                 (port_flag true "12345") EmptyString false ]} ∅)) in Hfl.
        cbn [flags.flags] in Hfl.
        destruct (decide (q = "port")) as [|Hne]; [done|].
        by rewrite lookup_singleton_ne in Hfl. }
    unfold store_Set. evaluate_tests. intros [= <-].
    rewrite !store_Exists_sub2. by rewrite lookup_insert_ne.
Qed.

(** The optional substructure "sub2" in the load whose file gives its field
    "name" and omits its field "other". *)
Lemma pointer_populated q default_says file_says :
  (q = "sub2.other" /\ default_says = Some "sub2-default" /\ file_says = None) \/
  (q = "sub2.name" /\ default_says = None /\ file_says = Some "new name") ->
  config.populated_optional ∅ store_defaults store_Unmarshal store_Unmarshal
    store_Exists store_Create map_to_list store_holds pointer_world pointer_options
    "sub2" q default_says file_says.
Proof.
  intros Hq. destruct pointer_file as (Hf & Hft & Hopt). split.
  - rewrite Hopt. clear. by apply elem_of_cons; left.
  - rewrite Hf. reflexivity.
  - intros t [= <-]. reflexivity.
  - intros data t t' Hread Hdec.
    rewrite (sub2_decoded pointer_world _ data t t' eq_refl Hf Hft Hread Hdec).
    clear Hf Hft Hopt Hread Hdec.
    apply store_Exists_sub2. rewrite lookup_insert_ne by done.
    apply bool_decide_eq_true. apply alloc_raw_sub2.
  - clear Hf Hft Hopt. intros t t' v Hv Hnil Hc.
    apply store_Create_sub2 in Hc as [_ ->].
    apply store_Exists_sub2, bool_decide_eq_false in Hnil.
    destruct Hq as [(-> & -> & _)|(_ & -> & _)]; [|done]. injection Hv as <-.
    unfold alloc_defaulted. destruct (t !! "sub2") eqn:Hs; [by destruct Hnil|].
    split; [apply lookup_insert_eq|]. intros _.
    rewrite lookup_insert_ne by done. by rewrite lookup_insert_eq.
  - clear Hf Hft Hopt. intros q' t t' v _ Hne _ _ Hc.
    apply store_Create_sub2 in Hc as [-> _]. by destruct Hne.
  - clear Hf Hft Hopt. intros q' t t' v _ Hc. apply store_Create_sub2 in Hc as [_ ->].
    apply alloc_defaulted_holds.
  - intros v data t t' Hv Hread Hdec.
    rewrite (sub2_decoded pointer_world _ data t t' eq_refl Hf Hft Hread Hdec).
    clear Hf Hft Hopt Hread Hdec.
    destruct Hq as [(_ & _ & ->)|(-> & _ & ->)]; [done|]. injection Hv as <-.
    split; [apply lookup_insert_eq|]. intros _.
    rewrite lookup_insert_ne by done. apply alloc_raw_sub2.
  - intros data t t' v Hv Hread Hdec.
    rewrite (sub2_decoded pointer_world _ data t t' eq_refl Hf Hft Hread Hdec).
    clear Hf Hft Hopt Hread Hdec.
    destruct Hq as [(-> & _ & _)|(_ & _ & ->)]; [|done]. intros H.
    apply insert_holds; [done|]. by apply set_default_holds.
Qed.

End store_contracts.

Lemma Load_precedence_witness :
  examples.store_holds
    (examples.loaded examples.precedence_world (examples.precedence_call true))
    "port" "12345" /\
  examples.store_holds
    (examples.loaded examples.precedence_world (examples.precedence_call false))
    "port" "9999" /\
  examples.store_holds
    (examples.loaded (examples.test_world []) [config.WithName "my-app"])
    "port" "9090" /\
  examples.store_holds
    (examples.loaded (examples.test_world []) [config.WithName "other"])
    "port" "8080".
Proof.
  split; [|split; [|split]].
  - refine (Load_precedence ∅ examples.TestLoadConfig examples.store_defaults
      examples.store_Unmarshal examples.store_Unmarshal examples.store_Set
      examples.store_Exists examples.store_Create examples.store_fs_Get id
      stringy.SnakeCase_ToUpper map_to_list map_to_list (fun m => reflexivity _)
      examples.store_holds
      examples.precedence_world (examples.precedence_call true)
      (examples.resolved examples.precedence_world (examples.precedence_call true))
      "port" (Some "8080") (Some "9090") _ "/tmp/my-app.json" "12345" _ _ _ _ _).
    + vm_compute. reflexivity.
    + apply store_path_setter. reflexivity.
    + apply port_with_file; vm_compute; reflexivity.
    + vm_compute. reflexivity.
    + vm_compute. reflexivity.
  - refine (Load_precedence ∅ examples.TestLoadConfig examples.store_defaults
      examples.store_Unmarshal examples.store_Unmarshal examples.store_Set
      examples.store_Exists examples.store_Create examples.store_fs_Get id
      stringy.SnakeCase_ToUpper map_to_list map_to_list (fun m => reflexivity _)
      examples.store_holds
      examples.precedence_world (examples.precedence_call false)
      (examples.resolved examples.precedence_world (examples.precedence_call false))
      "port" (Some "8080") (Some "9090") _ "/tmp/my-app.json" "9999" _ _ _ _ _).
    + vm_compute. reflexivity.
    + apply store_path_setter. reflexivity.
    + apply port_with_file; vm_compute; reflexivity.
    + vm_compute. reflexivity.
    + vm_compute. reflexivity.
  - refine (Load_precedence ∅ examples.TestLoadConfig examples.store_defaults
      examples.store_Unmarshal examples.store_Unmarshal examples.store_Set
      examples.store_Exists examples.store_Create examples.store_fs_Get id
      stringy.SnakeCase_ToUpper map_to_list map_to_list (fun m => reflexivity _)
      examples.store_holds
      (examples.test_world []) [config.WithName "my-app"]
      (examples.resolved (examples.test_world []) [config.WithName "my-app"])
      "port" (Some "8080") (Some "9090") _ "/tmp/my-app.json" "9090" _ _ _ _ _).
    + vm_compute. reflexivity.
    + apply store_path_setter. reflexivity.
    + apply port_with_file; vm_compute; reflexivity.
    + vm_compute. reflexivity.
    + vm_compute. reflexivity.
  - refine (Load_precedence ∅ examples.TestLoadConfig examples.store_defaults
      examples.store_Unmarshal examples.store_Unmarshal examples.store_Set
      examples.store_Exists examples.store_Create examples.store_fs_Get id
      stringy.SnakeCase_ToUpper map_to_list map_to_list (fun m => reflexivity _)
      examples.store_holds
      (examples.test_world []) [config.WithName "other"]
      (examples.resolved (examples.test_world []) [config.WithName "other"])
      "port" (Some "8080") None _ EmptyString "8080" _ _ _ _ _).
    + vm_compute. reflexivity.
    + apply store_path_setter. reflexivity.
    + apply port_without_file; vm_compute; reflexivity.
    + vm_compute. reflexivity.
    + vm_compute. reflexivity.
Defined.

Lemma Load_optional_substructure_witness :
  examples.store_Exists
    (examples.loaded examples.precedence_world (examples.precedence_call true)) "sub2"
    = Ok false /\
  examples.store_holds (examples.loaded examples.pointer_world examples.pointer_call)
    "sub2.other" "sub2-default" /\
  examples.store_holds (examples.loaded examples.pointer_world examples.pointer_call)
    "sub2.name" "new name".
Proof.
  split; [|split].
  - refine (proj1 (Load_optional_substructure ∅ examples.TestLoadConfig
      examples.store_defaults examples.store_Unmarshal examples.store_Unmarshal
      examples.store_Set examples.store_Exists examples.store_Create
      examples.store_fs_Get id stringy.SnakeCase_ToUpper map_to_list map_to_list
      (fun m => reflexivity _) examples.store_holds
      examples.precedence_world (examples.precedence_call true)
      examples.precedence_options "sub2" _ "/tmp/my-app.json" _ _)
      precedence_untouched).
    + vm_compute. reflexivity.
    + vm_compute. reflexivity.
  - refine (proj2 (Load_optional_substructure ∅ examples.TestLoadConfig
      examples.store_defaults examples.store_Unmarshal examples.store_Unmarshal
      examples.store_Set examples.store_Exists examples.store_Create
      examples.store_fs_Get id stringy.SnakeCase_ToUpper map_to_list map_to_list
      (fun m => reflexivity _) examples.store_holds
      examples.pointer_world examples.pointer_call
      examples.pointer_options "sub2" _ "/tmp/sub2.json" _ _)
      "sub2.other" (Some "sub2-default") None "sub2-default" _ _ _).
    + vm_compute. reflexivity.
    + vm_compute. reflexivity.
    + apply pointer_populated. left. split; [|split]; reflexivity.
    + apply store_path_setter. reflexivity.
    + vm_compute. reflexivity.
  - refine (proj2 (Load_optional_substructure ∅ examples.TestLoadConfig
      examples.store_defaults examples.store_Unmarshal examples.store_Unmarshal
      examples.store_Set examples.store_Exists examples.store_Create
      examples.store_fs_Get id stringy.SnakeCase_ToUpper map_to_list map_to_list
      (fun m => reflexivity _) examples.store_holds
      examples.pointer_world examples.pointer_call
      examples.pointer_options "sub2" _ "/tmp/sub2.json" _ _)
      "sub2.name" None (Some "new name") "new name" _ _ _).
    + vm_compute. reflexivity.
    + vm_compute. reflexivity.
    + apply pointer_populated. right. split; [|split]; reflexivity.
    + apply store_path_setter. reflexivity.
    + vm_compute. reflexivity.
Defined.

(** * Further properties of the code

    Properties of the functions around the claims, read off the source. *)

(** ** The index: lookups by key and by path *)

Lemma lookup_existsb {A} (m : gmap string A) (f : string * A -> bool) :
  existsb f (map_to_list m) = true <-> exists k a, m !! k = Some a /\ f (k, a) = true.
Proof.
  rewrite existsb_exists. split.
  - intros [[k a] [Hin Hf]]. exists k, a. split; [|done].
    apply elem_of_map_to_list. by apply list_elem_of_In.
  - intros (k & a & Hk & Hf). exists (k, a). split; [|done].
    apply list_elem_of_In. by apply elem_of_map_to_list.
Qed.

Lemma Exists_lookup (v : gmap string Item) name :
  Exists v name = bool_decide (is_Some (v !! braces_ReplaceAllString name "[]")).
Proof.
  unfold Exists. apply eq_true_iff_eq. rewrite lookup_existsb, bool_decide_eq_true.
  split.
  - intros (k & a & Hk & Heq). cbn [fst] in Heq. apply String.eqb_eq in Heq as ->. eauto.
  - intros [a Ha]. exists (braces_ReplaceAllString name "[]"), a.
    split; [done|]. apply String.eqb_refl.
Qed.

Lemma Exists_agrees_with_Find_aux (v : gmap string Item) (name : string) :
  Exists v name = snd (Find v name).
Proof.
  rewrite Exists_lookup. unfold Find.
  destruct (v !! braces_ReplaceAllString name "[]") as [r|] eqn:E; cbn [snd].
  - apply bool_decide_eq_true. eauto.
  - apply bool_decide_eq_false. by intros [? [=]].
Qed.

Lemma PathExists_iff (v : gmap string Item) name :
  PathExists v name = true <->
  exists k item, v !! k = Some item /\ Path item = braces_ReplaceAllString name "[]".
Proof.
  unfold PathExists. rewrite lookup_existsb. split.
  - intros (k & a & Hk & Heq). cbn [snd] in Heq. apply String.eqb_eq in Heq. eauto.
  - intros (k & a & Hk & Heq). exists k, a. split; [done|]. cbn [snd].
    rewrite Heq. apply String.eqb_refl.
Qed.

(** X1.  [Exists] and [Find] agree on every name: [Exists], which walks
    the keys, reports what [Find], which looks the canonical name up,
    reports as its found flag, namely whether the canonical name (every
    bracket group replaced by "[]") is a key; [PathExists] reports whether
    the canonical name is the path of some entry. *)
Theorem Exists_agrees_with_Find (v : gmap string Item) (name : string) :
  Exists v name = snd (Find v name) /\
  (Exists v name = true <-> is_Some (v !! braces_ReplaceAllString name "[]")) /\
  (PathExists v name = true <->
   exists k item, v !! k = Some item /\ Path item = braces_ReplaceAllString name "[]").
Proof.
  split; [apply Exists_agrees_with_Find_aux|]. split; [|apply PathExists_iff].
  rewrite Exists_lookup. apply bool_decide_eq_true.
Qed.

(** *** The canonical form of a key *)

Lemma open_tail_lits acc : no_rbracket acc = true -> open_tail (lits acc) = true.
Proof.
  induction acc as [|a r IH]; [done|]. cbn [no_rbracket lits open_tail forallb].
  intros [-> Hr]%andb_true_iff. by apply IH.
Qed.

Lemma no_rbracket_snoc acc c :
  no_rbracket acc = true -> is_rbracket c = false ->
  no_rbracket (acc ++ String c EmptyString) = true.
Proof.
  intros Hacc Hc. induction acc as [|a r IH]; cbn [String.append no_rbracket].
  - by rewrite Hc.
  - cbn [no_rbracket] in Hacc. apply andb_true_iff in Hacc as [-> Hr]. by apply IH.
Qed.

Lemma scan_scanned s : forall pending,
  match pending with Some acc => no_rbracket acc = true | None => True end ->
  scanned (braces_scan s pending) = true.
Proof.
  induction s as [|c s IH]; intros [acc|] Hp; cbn [braces_scan].
  - cbn [scanned]. change (is_lbracket "[") with true. cbn iota.
    by apply open_tail_lits.
  - done.
  - destruct (is_rbracket c) eqn:Ec; [by apply (IH None)|].
    apply (IH (Some _)). by apply no_rbracket_snoc.
  - destruct (is_lbracket c) eqn:Ec; [by apply (IH (Some EmptyString))|].
    cbn [scanned]. rewrite Ec. by apply (IH None).
Qed.

Lemma scan_unclosed x : forall acc,
  no_rbracket x = true ->
  braces_scan x (Some acc) = Lit "[" :: lits (acc ++ x).
Proof.
  induction x as [|c x IH]; intros acc Hx; cbn [braces_scan].
  - by rewrite append_nil_r.
  - cbn [no_rbracket] in Hx. apply andb_true_iff in Hx as [Hc Hx].
    apply negb_true_iff in Hc. rewrite Hc, IH by done. by rewrite append_assoc.
Qed.

Lemma open_tail_render ps :
  open_tail ps = true ->
  lits (render "[]" ps) = ps /\ no_rbracket (render "[]" ps) = true.
Proof.
  induction ps as [|[c|g] ps IH]; [done| |done].
  cbn [open_tail forallb render lits no_rbracket].
  intros [Hc Hps]%andb_true_iff. destruct (IH Hps) as [E1 E2].
  by rewrite Hc, E1, E2.
Qed.

Lemma open_tail_blank ps : open_tail ps = true -> map blank ps = ps.
Proof.
  induction ps as [|[c|g] ps IH]; [done| |done].
  cbn [open_tail forallb map blank]. intros [_ Hps]%andb_true_iff.
  f_equal. by apply IH.
Qed.

Lemma rescan ps :
  scanned ps = true -> braces_scan (render "[]" ps) None = map blank ps.
Proof.
  induction ps as [|[c|g] ps IH]; [done| |].
  - cbn [scanned render map blank braces_scan]. destruct (is_lbracket c) eqn:Ec.
    + intros Hps. destruct (open_tail_render ps Hps) as [E1 E2].
      rewrite scan_unclosed by done. cbn [String.append]. rewrite E1.
      apply Ascii.eqb_eq in Ec as ->. by rewrite open_tail_blank.
    + intros Hps. by rewrite IH.
  - cbn [scanned render map blank]. intros Hps.
    cbn [String.append braces_scan]. change (is_lbracket "[") with true.
    change (is_rbracket "]") with true. cbn iota. by rewrite IH.
Qed.

Lemma render_blank ps : render "[]" (map blank ps) = render "[]" ps.
Proof. induction ps as [|[c|g] ps IH]; cbn [map blank render]; by rewrite ?IH. Qed.

Lemma canonical_idempotent name :
  braces_ReplaceAllString (braces_ReplaceAllString name "[]") "[]"
  = braces_ReplaceAllString name "[]".
Proof.
  unfold braces_ReplaceAllString.
  rewrite rescan by (by apply (scan_scanned name None)). apply render_blank.
Qed.

(** X2.  Taking the canonical form of a name is idempotent, so the three
    lookups answer for the canonical form of a name what they answer for
    the name. *)
Theorem lookups_by_canonical_key (v : gmap string Item) (name : string) :
  braces_ReplaceAllString (braces_ReplaceAllString name "[]") "[]"
    = braces_ReplaceAllString name "[]" /\
  snd (Find v (braces_ReplaceAllString name "[]")) = snd (Find v name) /\
  Exists v (braces_ReplaceAllString name "[]") = Exists v name /\
  PathExists v (braces_ReplaceAllString name "[]") = PathExists v name.
Proof.
  split; [apply canonical_idempotent|]. split; [|split].
  - unfold Find. rewrite canonical_idempotent.
    by destruct (v !! braces_ReplaceAllString name "[]").
  - unfold Exists. by rewrite canonical_idempotent.
  - unfold PathExists. by rewrite canonical_idempotent.
Qed.

(** *** The entries of a built index, looked up *)

Lemma HasPrefix_drop old : forall s,
  strings.HasPrefix s old = true -> old ++ strings.drop (String.length old) s = s.
Proof.
  induction old as [|a old IH]; intros s; [done|].
  destruct s as [|b s]; [done|]. cbn [strings.HasPrefix String.length strings.drop].
  intros [->%Ascii.eqb_eq Hs]%andb_true_iff. cbn [String.append]. by rewrite IH.
Qed.

Lemma ReplaceFirst_same s old : strings.ReplaceFirst s old old = s.
Proof.
  induction s as [|c s IH].
  - cbn [strings.ReplaceFirst]. destruct (strings.HasPrefix "" old) eqn:E; [|done].
    by apply HasPrefix_drop.
  - cbn [strings.ReplaceFirst]. destruct (strings.HasPrefix (String c s) old) eqn:E.
    + by apply HasPrefix_drop.
    + by rewrite IH.
Qed.

Lemma substitute_blank path n : substitute path (repeat EmptyString n) = path.
Proof.
  unfold substitute. induction n as [|n IH]; [done|].
  cbn [repeat fold_left]. cbn [String.append]. by rewrite ReplaceFirst_same.
Qed.

Lemma scan_shaped key :
  placeholder_shaped key = true ->
  render "[]" (braces_scan key None) = key /\
  submatches (braces_scan key None) = repeat EmptyString (count_placeholders key).
Proof.
  induction key as [|a r IHr IHr'] using string_pair_ind; intros Hs; [done|].
  cbn [placeholder_shaped] in Hs. destruct (is_lbracket a) eqn:Ea.
  - apply Ascii.eqb_eq in Ea as ->. destruct r as [|b r']; [done|].
    apply andb_true_iff in Hs as [Hb Hs]. apply Ascii.eqb_eq in Hb as ->.
    destruct (IHr' _ _ eq_refl Hs) as [E1 E2].
    rewrite count_cons_pair. cbn [braces_scan]. change (is_lbracket "[") with true.
    change (is_rbracket "]") with true. cbn iota. cbn [render submatches repeat].
    cbn [String.append]. by rewrite E1, E2.
  - apply andb_true_iff in Hs as [Ha Hs]. destruct (IHr Hs) as [E1 E2].
    rewrite count_cons_other by (intros; by rewrite Ea).
    cbn [braces_scan]. rewrite Ea. cbn [render submatches]. by rewrite E1, E2.
Qed.

Lemma New_paths_shaped snake d v idx key item :
  tokens_ok snake bracket_free d v = true ->
  New snake v d = Ok idx ->
  idx !! key = Some item ->
  placeholder_shaped (Path item) = true.
Proof.
  intros Htok Hnew Hkey.
  apply New_collect in Hnew as [->|(tu & fs & Hc & Hs)]; [by rewrite lookup_empty in Hkey|].
  apply tokens_ok_strip in Htok. rewrite Hs in Htok.
  destruct (collect_entries snake d bracket_free
    (fun _ path => Forall (fun s => placeholder_shaped s = true) path)) with
    (collections := true) (v := Struct tu fs) (isPtr := false) (tag := @nil string)
    (path := @nil string) (skip := false) (m := idx) (k := key) (it := item)
    as (tag & path & _ & -> & HQ); auto.
  { intros tag path tok nm HQ _ Hn. apply Forall_app. split; [done|].
    constructor; [by apply bracket_free_shaped|done]. }
  { intros tag path nm HQ Hn. apply Forall_app. split; [done|].
    constructor; [by apply bracket_free_shaped|done]. }
  { intros tag path tag' path' _ HQ _ Hp. by eapply shaped_last. }
  by apply (shaped_Join ".").
Qed.

(** X3.  For a record type whose key tokens and field names hold no
    bracket, every entry of the index [New] builds is found again: [Find]
    on its key, placeholders included, returns its path unchanged,
    [Exists] knows the key and [PathExists] knows the path. *)
Theorem Find_own_key (snake : string -> string) (d : list (string * string))
    (v : rtype) (idx : gmap string Item) (key : string) (item : Item) :
  tokens_ok snake bracket_free d v = true ->
  New snake v d = Ok idx ->
  idx !! key = Some item ->
  Find idx key = (Path item, true) /\
  Exists idx key = true /\
  PathExists idx (Path item) = true.
Proof.
  intros Htok Hnew Hkey.
  destruct (New_shaped snake d v idx key item Htok Hnew Hkey) as [Hshape _].
  pose proof (New_paths_shaped snake d v idx key item Htok Hnew Hkey) as Hpath.
  destruct (scan_shaped key Hshape) as [E1 E2].
  destruct (scan_shaped (Path item) Hpath) as [E3 _].
  assert (Find idx key = (Path item, true)) as HFind.
  { rewrite (Find_hit idx key item).
    - unfold braces_FindAllStringSubmatch. by rewrite E2, substitute_blank.
    - unfold braces_ReplaceAllString. by rewrite E1. }
  split; [done|]. split.
  - by rewrite Exists_agrees_with_Find_aux, HFind.
  - unfold PathExists, braces_ReplaceAllString. rewrite E3.
    apply lookup_existsb. exists key, item. split; [done|]. apply String.eqb_refl.
Qed.

Lemma Find_own_key_witness :
  tokens_ok stringy.SnakeCase_ToUpper bracket_free [("API", "Api")]
    examples.IndexTestConfig = true /\
  Find examples.IndexTestConfig_index "SERVER_SETTINGS[]_TAGS[]"
    = ("server.settings[].tags[]", true) /\
  Exists examples.IndexTestConfig_index "SERVER_SETTINGS[]_TAGS[]" = true /\
  PathExists examples.IndexTestConfig_index "server.settings[].tags[]" = true.
Proof.
  split; [reflexivity|].
  exact (Find_own_key stringy.SnakeCase_ToUpper [("API", "Api")]
           examples.IndexTestConfig examples.IndexTestConfig_index
           "SERVER_SETTINGS[]_TAGS[]"
           (mkItem "server.settings[].tags[]" examples.t_string false)
           eq_refl eq_refl eq_refl).
Defined.

(** ** The index builder *)

Lemma fields_loop_walked snake d rec tag path fs : forall m,
  fields_loop snake rec tag path d (List.filter walked fs) m
  = fields_loop snake rec tag path d fs m.
Proof.
  induction fs as [|[name pkg env t] fs IH]; intros m; [done|].
  cbn [List.filter walked].
  destruct (String.eqb pkg "") eqn:Ep; destruct (String.eqb env "--") eqn:Ee;
    cbn [andb negb fields_loop field_step]; rewrite ?Ep, ?Ee; try apply IH.
  destruct (String.eqb env "-").
  - destruct (rec t tag _ true); cbn [mbind outcome_bind]; [apply IH|done..].
  - destruct (rec t _ _ false); cbn [mbind outcome_bind]; [apply IH|done..].
Qed.

(** X4.  Unexported fields and fields tagged "--" add nothing to the
    index, whatever their types: [New] on a record type returns what it
    returns on the type without these fields. *)
Theorem New_skips_excluded_fields (snake : string -> string) (d : list (string * string))
    (tu : bool) (fs : list StructField) :
  New snake (Struct tu (List.filter walked fs)) d = New snake (Struct tu fs) d.
Proof.
  unfold New. cbn [strip_pointers]. unfold collect. cbn [collect_loop].
  apply fields_loop_walked.
Qed.

(** *** The paths of a built index *)

Section collect_paths.
Variable snake : string -> string.
Variable d : list (string * string).
Variable R : list string -> Prop.
Hypothesis R_field : forall path name, R path -> R (path ++ [strings.ToLower name])%list.
Hypothesis R_elem : forall path path',
  R path -> append_to_last path "[]" = Some path' -> R path'.

#[local] Abbreviation paths_ok := (index.paths_ok R).
#[local] Abbreviation paths_walk := (index.paths_walk snake d R).

Lemma paths_ok_empty : paths_ok ∅.
Proof. intros k it. by rewrite lookup_empty. Qed.

Lemma paths_ok_singleton key path t b :
  R path -> paths_ok {[ key := mkItem (strings.Join path ".") t b ]}.
Proof. intros HR k it [<- <-]%lookup_singleton_Some. by exists path. Qed.

Lemma paths_ok_union m1 m2 : paths_ok m1 -> paths_ok m2 -> paths_ok (m1 ∪ m2).
Proof. intros H1 H2 k it [?|[_ ?]]%lookup_union_Some_raw; eauto. Qed.

Lemma paths_ok_insert key path t b m :
  R path -> paths_ok m -> paths_ok (<[ key := mkItem (strings.Join path ".") t b ]> m).
Proof.
  intros HR Hm k it [[<- <-]|[_ ?]]%lookup_insert_Some; [by exists path|eauto].
Qed.

Lemma fields_loop_paths fs : forall tag path m m',
  Forall (fun f => paths_walk (field_type f)) fs ->
  R path -> paths_ok m ->
  fields_loop snake (fun ty tag path skip => collect_loop snake false ty tag path skip d)
    tag path d fs m = Ok m' ->
  paths_ok m'.
Proof.
  induction fs as [|f fs IH]; intros tag path m m' Hw HR Hm Hrun.
  - cbn in Hrun. by injection Hrun as <-.
  - apply Forall_cons in Hw as [Hf Hw]. cbn [fields_loop] in Hrun.
    destruct (field_step _ _ tag path d f m) as [m1| |] eqn:Hstep; try discriminate.
    cbn in Hrun. refine (IH tag path m1 m' Hw HR _ Hrun).
    destruct f as [name pkg env t]. cbn [field_step field_type] in *.
    destruct (String.eqb pkg ""); [|by injection Hstep as <-].
    destruct (String.eqb env "--"); [by injection Hstep as <-|].
    destruct (String.eqb env "-").
    + destruct (collect_loop _ _ t _ _ true d) as [tmp| |] eqn:Hc; try discriminate.
      cbn in Hstep. injection Hstep as <-. apply paths_ok_union; [|done].
      eapply Hf; [|exact Hc]. by apply R_field.
    + destruct (collect_loop _ _ t _ _ false d) as [tmp| |] eqn:Hc; try discriminate.
      cbn in Hstep. injection Hstep as <-. apply paths_ok_union; [|done].
      eapply Hf; [|exact Hc]. by apply R_field.
Qed.

Lemma collection_case_paths isPtr v e1 ma rec tag path skip m :
  (forall tag path skip m, R path -> rec tag path skip = Ok m -> paths_ok m) ->
  R path ->
  collection_case isPtr v e1 ma rec tag path skip = Ok m -> paths_ok m.
Proof.
  intros Hrec HR. unfold collection_case. destruct skip; cbn [negb].
  - destruct ma; cbn [negb]; [intros [= <-]; apply paths_ok_empty|].
    destruct (rec tag path true) as [tmp| |]; cbn [mbind outcome_bind]; try discriminate.
    destruct (0 <? size tmp)%nat; [discriminate|].
    intros [= <-]; apply paths_ok_empty.
  - destruct (append_to_last tag "[]") as [tag'|] eqn:Et; [|discriminate].
    destruct (append_to_last path "[]") as [path'|] eqn:Ep; [|discriminate].
    assert (R path') as HR' by eauto.
    destruct ma.
    + intros [= <-]. apply paths_ok_insert; [done|]. by apply paths_ok_singleton.
    + destruct (rec tag' path' false) as [tmp| |] eqn:Hr; cbn [mbind outcome_bind];
        try discriminate.
      intros [= <-]. apply paths_ok_union; [eauto|]. by apply paths_ok_singleton.
Qed.

Lemma collect_paths v : paths_walk v.
Proof.
  induction v as [kind tu|e IH|tu n e IH|tu e IH|tu k e IH|tu fs IH]
    using rtype_deref_ind; intros isPtr tag path skip m HR Hrun.
  - cbn in Hrun. destruct skip; injection Hrun as <-;
      [apply paths_ok_empty|by apply paths_ok_singleton].
  - cbn [collect_loop] in *. eauto.
  - rewrite (collect_loop_collection _ _ _ e) in Hrun by eauto.
    eapply collection_case_paths; [|exact HR|exact Hrun]. intros ????. apply IH.
  - rewrite (collect_loop_collection _ _ _ e) in Hrun by eauto.
    eapply collection_case_paths; [|exact HR|exact Hrun]. intros ????. apply IH.
  - rewrite (collect_loop_collection _ _ _ e) in Hrun by eauto 6.
    eapply collection_case_paths; [|exact HR|exact Hrun]. intros ????. apply IH.
  - cbn [collect_loop] in Hrun.
    eapply fields_loop_paths; [exact IH|exact HR| |exact Hrun].
    destruct (negb skip && _); [by apply paths_ok_singleton|apply paths_ok_empty].
Qed.

End collect_paths.

Lemma lower_char_idem c : strings.lower_char (strings.lower_char c) = strings.lower_char c.
Proof. destruct c as [[] [] [] [] [] [] [] []]; vm_compute; reflexivity. Qed.

Lemma ToLower_idem s : strings.ToLower (strings.ToLower s) = strings.ToLower s.
Proof.
  unfold strings.ToLower. induction s as [|c s IH]; [done|].
  cbn [strings.map_chars]. by rewrite lower_char_idem, IH.
Qed.

Lemma ToLower_app a b :
  strings.ToLower (a ++ b) = strings.ToLower a ++ strings.ToLower b.
Proof.
  unfold strings.ToLower. induction a as [|c a IH]; [done|].
  cbn [String.append strings.map_chars]. by rewrite IH.
Qed.

Lemma ToLower_Join l :
  Forall (fun s => strings.ToLower s = s) l ->
  strings.ToLower (strings.Join l ".") = strings.Join l ".".
Proof.
  induction 1 as [|x l Hx Hl IH]; [done|]. destruct l as [|y l]; [done|].
  rewrite Join_cons, !ToLower_app, Hx, IH. done.
Qed.

Lemma lower_last l l' :
  Forall (fun s => strings.ToLower s = s) l ->
  append_to_last l "[]" = Some l' ->
  Forall (fun s => strings.ToLower s = s) l'.
Proof.
  intros H. revert l'. induction H as [|x l Hx Hl IH]; intros l'; [done|].
  cbn [append_to_last]. destruct l as [|y l].
  - intros [= <-]. constructor; [|done]. by rewrite ToLower_app, Hx.
  - destruct (append_to_last (y :: l) "[]") as [r|] eqn:E; [|done].
    intros [= <-]. constructor; [done|]. by apply IH.
Qed.

(** X5.  Every path that [New] records is in lower case: [strings.ToLower]
    (on ASCII text) leaves it as it is, for every record type, tag and
    rename table. *)
Theorem New_paths_lower_case (snake : string -> string) (d : list (string * string))
    (v : rtype) (idx : gmap string Item) (key : string) (item : Item) :
  New snake v d = Ok idx ->
  idx !! key = Some item ->
  strings.ToLower (Path item) = Path item.
Proof.
  intros Hnew Hkey.
  apply New_collect in Hnew as [->|(tu & fs & Hc & Hs)]; [by rewrite lookup_empty in Hkey|].
  destruct (collect_paths snake d (Forall (fun s => strings.ToLower s = s))) with
    (v := Struct tu fs) (isPtr := false) (tag := @nil string) (path := @nil string)
    (skip := false) (m := idx) (k := key) (it := item) as (path & -> & HR); auto.
  - intros path name HR. apply Forall_app. split; [done|].
    constructor; [apply ToLower_idem|done].
  - intros path path'. apply lower_last.
  - by apply ToLower_Join.
Qed.

Lemma New_paths_lower_case_witness :
  New stringy.SnakeCase_ToUpper examples.IndexTestConfig [("API", "Api")]
    = Ok examples.IndexTestConfig_index /\
  strings.ToLower "server.settings[].tags[]" = "server.settings[].tags[]".
Proof.
  split; [reflexivity|].
  exact (New_paths_lower_case stringy.SnakeCase_ToUpper [("API", "Api")]
           examples.IndexTestConfig examples.IndexTestConfig_index
           "SERVER_SETTINGS[]_TAGS[]"
           (mkItem "server.settings[].tags[]" examples.t_string false)
           eq_refl eq_refl).
Defined.

(** *** The sorted keys *)

Lemma Keys_elem (d : gmap string Item) k : k ∈ Keys d <-> is_Some (d !! k).
Proof.
  unfold Keys. rewrite merge_sort_Permutation, list_elem_of_fmap. split.
  - intros ([k' v] & -> & H%elem_of_map_to_list). by exists v.
  - intros [v Hv]. exists (k, v). split; [done|]. by apply elem_of_map_to_list.
Qed.

(** X6.  [Keys] lists the keys of the index in strictly ascending
    byte-wise order: every key once, nothing else, as many as the index has
    entries, and the same list for every index with the same keys. *)
Theorem Keys_sorted (d : gmap string Item) :
  StronglySorted env.string_lt (Keys d) /\
  (forall k, k ∈ Keys d <-> is_Some (d !! k)) /\
  length (Keys d) = size d /\
  (forall d' : gmap string Item,
     (forall k, is_Some (d !! k) <-> is_Some (d' !! k)) -> Keys d' = Keys d).
Proof.
  split; [|split; [|split]].
  - unfold Keys. apply StronglySorted_strict.
    + apply (StronglySorted_merge_sort String.le).
    + rewrite merge_sort_Permutation. apply NoDup_fst_map_to_list.
  - apply Keys_elem.
  - unfold Keys. by rewrite merge_sort_Permutation, length_fmap, length_map_to_list.
  - intros d' Hdom. unfold Keys.
    apply (StronglySorted_unique String.le);
      [apply (StronglySorted_merge_sort String.le)..|].
    rewrite !merge_sort_Permutation.
    apply NoDup_Permutation; [apply NoDup_fst_map_to_list..|].
    intros k. pose proof (Keys_elem d k) as H1. pose proof (Keys_elem d' k) as H2.
    unfold Keys in *. rewrite merge_sort_Permutation in H1, H2.
    rewrite H1, H2. symmetry. apply Hdom.
Qed.

(** ** The environment layer: prefix, entries, index *)

Lemma ReplaceAll_char (a b : ascii) s :
  strings.ReplaceAll s (String a EmptyString) (String b EmptyString)
  = strings.map_chars (fun c => if Ascii.eqb c a then b else c) s.
Proof.
  unfold strings.ReplaceAll. induction s as [|c s IH]; [done|].
  cbn [strings.ReplaceAll_go strings.HasPrefix strings.map_chars String.length Nat.sub].
  rewrite andb_true_r. destruct (Ascii.eqb c a); cbn [String.append]; by rewrite IH.
Qed.

Lemma map_chars_map_chars f g s :
  strings.map_chars g (strings.map_chars f s) = strings.map_chars (fun c => g (f c)) s.
Proof. induction s as [|c s IH]; [done|]. cbn [strings.map_chars]. by rewrite IH. Qed.

Lemma map_chars_ext f g s :
  (forall c, f c = g c) -> strings.map_chars f s = strings.map_chars g s.
Proof. intros H. induction s as [|c s IH]; [done|]. cbn. by rewrite H, IH. Qed.

Lemma map_chars_length f s : String.length (strings.map_chars f s) = String.length s.
Proof. induction s as [|c s IH]; [done|]. cbn. by rewrite IH. Qed.

Lemma prefix_char_spec c :
  (if Ascii.eqb (if Ascii.eqb (strings.upper_char c) "." then "_"%char
                 else strings.upper_char c) "-"
   then "_"%char
   else if Ascii.eqb (strings.upper_char c) "." then "_"%char else strings.upper_char c)
  = env.prefix_char c.
Proof.
  unfold env.prefix_char, strings.upper_char, strings.is_lower.
  destruct c as [[] [] [] [] [] [] [] []]; vm_compute; reflexivity.
Qed.

(** X7.  The prefix that [WithName] derives from a name (ASCII text): none
    for the empty name; otherwise the name with every "." and "-" turned
    into "_" and every lower-case letter into upper case, followed by "_".
    The other options are left as they were. *)
Theorem WithName_prefix (val : string) (o : env.EnvOptions) :
  env.Prefix (env.WithName val o) =
    match val with
    | EmptyString => EmptyString
    | _ => strings.map_chars env.prefix_char val ++ "_"
    end /\
  env.Strict (env.WithName val o) = env.Strict o /\
  env.Index (env.WithName val o) = env.Index o /\
  env.Replacer (env.WithName val o) = env.Replacer o.
Proof.
  unfold env.WithName. destruct val as [|a val]; [done|].
  cbn [String.length Nat.eqb negb].
  rewrite !ReplaceAll_char. unfold strings.ToUpper. rewrite !map_chars_map_chars.
  rewrite (map_chars_ext _ env.prefix_char) by apply prefix_char_spec.
  assert ((0 <? String.length (strings.map_chars env.prefix_char (String a val)))%nat = true)
    as -> by (by rewrite map_chars_length).
  done.
Qed.

Lemma resolve_options_fields snake ty options o :
  env.resolve_options snake ty options = Ok o ->
  env.Prefix o = env.Prefix (env.apply_options options) /\
  env.Strict o = env.Strict (env.apply_options options).
Proof.
  unfold env.resolve_options. destruct (size _ =? 0)%nat; [|by intros [= <-]].
  destruct (New _ _ _); [|done..]. by intros [= <-].
Qed.

Lemma classify_filtered o e :
  env.passes_filter (env.Prefix o) e = false -> env.classify o e = env.Ignore.
Proof.
  unfold env.passes_filter, env.classify. by destruct (env.surviving_key _ _).
Qed.

Lemma scan_filter o environ : forall m,
  env.scan o (List.filter (env.passes_filter (env.Prefix o)) environ) m = env.scan o environ m.
Proof.
  induction environ as [|e environ IH]; intros m; [done|].
  cbn [List.filter]. destruct (env.passes_filter (env.Prefix o) e) eqn:He.
  - cbn [env.scan]. destruct (env.classify o e); [apply IH| |apply IH].
    destruct (negb (env.Strict o)); [apply IH|done].
  - cbn [env.scan]. rewrite classify_filtered by done. apply IH.
Qed.

(** X9.  Entries of the environment without "=" and entries whose name
    does not carry the prefix never matter: [Set] returns on the environment
    what it returns on the environment without them, in strict mode too. *)
Theorem Set_ignores_foreign_entries {T V : Type}
    (lookup_Set : T -> string -> V -> outcome T) (StringValue : string -> V)
    (snake : string -> string) (ty : rtype) (environ : list string) (value : T)
    (options : list env.Option) :
  env.Set_ lookup_Set StringValue snake ty
    (List.filter (env.passes_filter (env.Prefix (env.apply_options options))) environ)
    value options
  = env.Set_ lookup_Set StringValue snake ty environ value options.
Proof.
  unfold env.Set_.
  destruct (env.resolve_options snake ty options) as [o| |] eqn:Ho; [|done..].
  cbn [mbind outcome_bind].
  destruct (resolve_options_fields snake ty options o Ho) as [<- _].
  by rewrite scan_filter.
Qed.

Lemma scan_shadowed o k v1 mid : forall m e2 v2 post,
  env.classify o e2 = env.Assign k v2 ->
  env.scan o (mid ++ e2 :: post) (<[k := v1]> m) = env.scan o (mid ++ e2 :: post) m.
Proof.
  induction mid as [|e mid IH]; intros m e2 v2 post He2.
  - cbn [app env.scan]. rewrite He2. by rewrite insert_insert_eq.
  - cbn [app env.scan]. destruct (env.classify o e) as [|key|k' v'] eqn:He.
    + by apply (IH m e2 v2).
    + destruct (negb (env.Strict o)); [by apply (IH m e2 v2)|done].
    + destruct (decide (k' = k)) as [->|Hne].
      * by rewrite insert_insert_eq.
      * rewrite insert_insert_ne by done. by apply (IH _ e2 v2).
Qed.

(** X10.  When two entries of the environment resolve to the same path,
    the later one decides: [Set] returns what it returns without the
    earlier entry. *)
Theorem Set_last_entry_wins {T V : Type}
    (lookup_Set : T -> string -> V -> outcome T) (StringValue : string -> V)
    (snake : string -> string) (ty : rtype) (value : T) (options : list env.Option)
    (o : env.EnvOptions) (pre mid post : list string) (e1 e2 k v1 v2 : string) :
  env.resolve_options snake ty options = Ok o ->
  env.classify o e1 = env.Assign k v1 ->
  env.classify o e2 = env.Assign k v2 ->
  env.Set_ lookup_Set StringValue snake ty (pre ++ e1 :: mid ++ e2 :: post) value options
  = env.Set_ lookup_Set StringValue snake ty (pre ++ mid ++ e2 :: post) value options.
Proof.
  intros Ho He1 He2. unfold env.Set_. rewrite Ho. cbn [mbind outcome_bind].
  rewrite !scan_app. destruct (env.scan o pre ∅) as [m| |]; [|done..].
  cbn [mbind outcome_bind env.scan]. rewrite He1.
  by rewrite (scan_shadowed o k v1 mid m e2 v2 post He2).
Qed.

Lemma Set_last_entry_wins_witness :
  env.Set_ examples.store_Set id stringy.SnakeCase_ToUpper examples.TestLoadConfig
    [ "APP_PORT=1"; "APP_HOST=h"; "APP_PORT=2" ] ∅ [env.WithName "app"]
  = env.Set_ examples.store_Set id stringy.SnakeCase_ToUpper examples.TestLoadConfig
      [ "APP_HOST=h"; "APP_PORT=2" ] ∅ [env.WithName "app"].
Proof.
  exact (Set_last_entry_wins examples.store_Set id stringy.SnakeCase_ToUpper
           examples.TestLoadConfig ∅ [env.WithName "app"] examples.app_options
           [] ["APP_HOST=h"] [] "APP_PORT=1" "APP_PORT=2" "port" "1" "2"
           eq_refl eq_refl eq_refl).
Defined.


Lemma New_conflict snake d v :
  root_conflict v = true -> exists p, New snake v d = Err (skip_error p).
Proof.
  unfold root_conflict, New.
  destruct (strip_pointers v) as [| | | | |tu fs]; try done.
  rewrite flatten_conflict_struct. unfold collect. cbn [collect_loop].
  pose proof (fields_loop_outcome snake d fs [] [] ∅) as H.
  cbn [negb andb length Nat.ltb Nat.leb]. intros Hc. rewrite Hc in H.
  apply H. apply Forall_forall. intros f _. apply collect_outcome.
Qed.

(** X11.  Where [Set] takes its index from: with a non-empty index among
    the options, neither the type nor the snake case is consulted; with
    none, the index is built from the type, and when that fails (a
    flattened collection that would add entries) [Set] returns the
    builder's error for every environment and record. *)
Theorem Set_index_source {T V : Type}
    (lookup_Set : T -> string -> V -> outcome T) (StringValue : string -> V)
    (snake : string -> string) (ty : rtype) (options : list env.Option) :
  (size (env.Index (env.apply_options options)) <> 0 ->
   forall snake' ty' environ value,
     env.Set_ lookup_Set StringValue snake ty environ value options
     = env.Set_ lookup_Set StringValue snake' ty' environ value options) /\
  (size (env.Index (env.apply_options options)) = 0 ->
   root_conflict ty = true ->
   exists p, forall environ value,
     env.Set_ lookup_Set StringValue snake ty environ value options
     = Err (skip_error p)).
Proof.
  unfold env.Set_, env.resolve_options. split.
  - intros Hsize snake' ty' environ value.
    apply Nat.eqb_neq in Hsize. by rewrite Hsize.
  - intros Hsize Hconf.
    destruct (New_conflict snake (env.Replacer (env.apply_options options)) ty Hconf)
      as [p Hp].
    exists p. intros environ value. by rewrite Hsize, Hp.
Qed.

(** *** How one entry is read *)

Lemma cut_at_app k v :
  strings.cut_at "=" k = None -> strings.cut_at "=" (k ++ String "=" v) = Some (k, v).
Proof.
  induction k as [|c k IH]; [done|]. cbn [strings.cut_at String.append].
  destruct (Ascii.eqb c "="); [done|].
  destruct (strings.cut_at "=" k) as [[? ?]|]; [done|]. intros _. by rewrite IH.
Qed.

Lemma HasPrefix_append x y : strings.HasPrefix (x ++ y) x = true.
Proof.
  induction x as [|c x IH]; [by destruct y|].
  cbn [String.append strings.HasPrefix]. by rewrite Ascii.eqb_refl, IH.
Qed.

Lemma drop_append x y : strings.drop (String.length x) (x ++ y) = y.
Proof. induction x as [|c x IH]; [by destruct y|]. done. Qed.

Lemma surviving_key_prefixed prefix rest value :
  strings.cut_at "=" (prefix ++ rest) = None ->
  env.surviving_key prefix ((prefix ++ rest) ++ String "=" value)
  = Some (strings.ToUpper (strings.Trim rest env.key_cutset)).
Proof.
  intros Hcut. unfold env.surviving_key. rewrite cut_at_app by done.
  rewrite HasPrefix_append. cbn [negb]. rewrite andb_false_r.
  unfold strings.TrimPrefix. rewrite HasPrefix_append, drop_append.
  destruct (0 <? String.length prefix)%nat eqn:E; [done|].
  apply Nat.ltb_ge in E. destruct prefix; [done|]. cbn in E. lia.
Qed.

(** X8.  How [Set] reads one entry [PREFIX rest = value] whose name holds
    no "=": the rest of the name after the prefix, with blanks and
    underscores trimmed from both ends and in upper case, is looked up with
    [Find]; a hit assigns the value, with blanks trimmed from both ends, to
    the resolved path, a miss leaves the key unresolved. *)
Theorem Set_reads_prefixed_entry (o : env.EnvOptions) (rest value : string) :
  strings.cut_at "=" (env.Prefix o ++ rest) = None ->
  env.classify o ((env.Prefix o ++ rest) ++ String "=" value)
  = match index.Find (env.Index o) (strings.ToUpper (strings.Trim rest env.key_cutset)) with
    | (path, true) => env.Assign path (strings.Trim value env.blank_cutset)
    | (_, false) => env.Unresolved (strings.ToUpper (strings.Trim rest env.key_cutset))
    end.
Proof.
  intros Hcut. unfold env.classify.
  rewrite surviving_key_prefixed by done. by rewrite cut_at_app.
Qed.

Lemma Set_reads_prefixed_entry_witness :
  strings.cut_at "=" "APP_ port_" = None /\
  env.classify examples.app_options "APP_ port_= 9999 " = env.Assign "port" "9999".
Proof.
  split; [reflexivity|].
  exact (Set_reads_prefixed_entry examples.app_options " port_" " 9999 " eq_refl).
Defined.

(** ** The flag layer: binding and applying *)

(** X14.  What a successful [BindCmdFlag] records: one binding is added or
    replaced and the index is kept; the binding holds the command's name
    and the source flag, taken from the persistent flags when they define
    it (a persistent flag shadows a local one of the same name) and from
    the local flags otherwise; with a non-empty index the binding is
    recorded under the path [Find] resolves the target to, or, when [Find]
    misses, under the lower-cased target, which is then a path of the
    index; with no index, under the lower-cased target. *)
Theorem BindCmdFlag_records_resolved_target (f f' : flags.Flags) (c : flags.Command)
    (target source : string) :
  flags.BindCmdFlag f (Some c) target source = Ok f' ->
  exists t fl,
    f' = flags.mkFlags (<[t := fl]> (flags.flags f)) (flags.dict f) /\
    flags.parent fl = flags.Use c /\
    match flags.PersistentFlags c !! source with
    | Some val =>
        flags.flag fl = val /\ flags.fs fl = flags.PersistentFlags c /\
        flags.persistent fl = true
    | None =>
        flags.LocalFlags c !! source = Some (flags.flag fl) /\
        flags.fs fl = flags.LocalFlags c /\ flags.persistent fl = false
    end /\
    if (0 <? size (flags.dict f))%nat
    then index.Find (flags.dict f) target = (t, true) \/
         (snd (index.Find (flags.dict f) target) = false /\
          t = strings.ToLower target /\ index.PathExists (flags.dict f) t = true)
    else t = strings.ToLower target.
Proof.
  unfold flags.BindCmdFlag. destruct (String.length target =? 0)%nat; [done|].
  assert (forall fs val p,
    (t ← flags.resolve_target (flags.dict f) target;
     Ok (flags.mkFlags (<[t := flags.mkFlag fs val (flags.Use c) p]> (flags.flags f))
           (flags.dict f))) = Ok f' ->
    exists t,
      f' = flags.mkFlags (<[t := flags.mkFlag fs val (flags.Use c) p]> (flags.flags f))
             (flags.dict f) /\
      if (0 <? size (flags.dict f))%nat
      then index.Find (flags.dict f) target = (t, true) \/
           (snd (index.Find (flags.dict f) target) = false /\
            t = strings.ToLower target /\ index.PathExists (flags.dict f) t = true)
      else t = strings.ToLower target) as Hres.
  { intros fs val p. unfold flags.resolve_target.
    destruct (0 <? size (flags.dict f))%nat.
    - destruct (index.Find (flags.dict f) target) as [t []]; cbn [snd mbind outcome_bind].
      + intros [= <-]. exists t. auto.
      + destruct (index.PathExists _ _) eqn:Hp; cbn [negb mbind outcome_bind]; [|done].
        intros [= <-]. exists (strings.ToLower target). auto.
    - cbn [mbind outcome_bind]. intros [= <-]. by exists (strings.ToLower target). }
  destruct (flags.PersistentFlags c !! source) as [val|] eqn:Hp.
  - intros (t & -> & Ht)%Hres.
    exists t, (flags.mkFlag (flags.PersistentFlags c) val (flags.Use c) true).
    by split_and!.
  - destruct (flags.LocalFlags c !! source) as [val|] eqn:Hl; [|done].
    intros (t & -> & Ht)%Hres.
    exists t, (flags.mkFlag (flags.LocalFlags c) val (flags.Use c) false).
    by split_and!.
Qed.

(** X15.  [BindFlag] targets are case-insensitive and a later binding
    replaces an earlier one: binding two targets that agree in lower case
    one after the other leaves the flag list that the second binding alone
    gives. *)
Theorem BindFlag_rebinding (f : flags.Flags) (fs1 fs2 : gmap string flags.pflag_Flag)
    (t1 t2 : string) (a b : flags.pflag_Flag) :
  t1 <> EmptyString -> t2 <> EmptyString ->
  strings.ToLower t1 = strings.ToLower t2 ->
  (f1 ← flags.BindFlag f fs1 t1 (Some a); flags.BindFlag f1 fs2 t2 (Some b))
  = flags.BindFlag f fs2 t2 (Some b).
Proof.
  intros H1 H2 Heq. unfold flags.BindFlag.
  destruct t1 as [|c1 r1]; [done|]. destruct t2 as [|c2 r2]; [done|].
  cbn [String.length Nat.eqb mbind outcome_bind flags.flags flags.dict].
  by rewrite Heq, insert_insert_eq.
Qed.

Section set_flags.
Context {T V : Type}.
Variable lookup_Set : T -> string -> V -> outcome T.
Variable fs_Get : gmap string flags.pflag_Flag -> string -> string -> outcome V.
Variable StringValue : string -> V.
Variable range : gmap string flags.Flag -> list (string * flags.Flag).
Hypothesis range_enumerates : forall m, range m ≡ₚ map_to_list m.

(** X16.  Binding one flag to a fresh flag list and applying the list:
    when the flag was set explicitly, its value is read and handed to the
    path setter at the lower-cased target, and the result is the setter's;
    when not, the record is returned as it was. *)
Theorem BindFlag_then_SetFlags (dict : gmap string Item)
    (fs : gmap string flags.pflag_Flag) (target : string) (flag : flags.pflag_Flag)
    (value : T) :
  target <> EmptyString ->
  (f ← flags.BindFlag (flags.NewFlagList dict) fs target (Some flag);
   flags.SetFlags lookup_Set fs_Get StringValue range value f)
  = if flags.Changed flag
    then val ← flags.getValue fs_Get StringValue (flags.mkFlag fs flag EmptyString false);
         lookup_Set value (strings.ToLower target) val
    else Ok value.
Proof.
  intros Ht. unfold flags.BindFlag. destruct target as [|c r]; [done|].
  cbn [String.length Nat.eqb mbind outcome_bind flags.NewFlagList flags.flags flags.dict].
  unfold flags.SetFlags. cbn [flags.flags].
  pose proof (range_enumerates (<[strings.ToLower (String c r) :=
    flags.mkFlag fs flag EmptyString false]> ∅)) as Hperm.
  rewrite insert_empty, map_to_list_singleton in Hperm.
  apply Permutation_singleton_r in Hperm. rewrite insert_empty, Hperm.
  cbn [flags.apply_flags flags.flag]. destruct (flags.Changed flag); [|done].
  destruct (flags.getValue _ _ _) as [val| |]; [|done..]. cbn [mbind outcome_bind].
  by destruct (lookup_Set value _ val).
Qed.

(** X17.  [SetFlags] succeeds only if the value of every bound flag that
    was set explicitly can be read: one unreadable set flag (its typed
    accessor fails) makes [SetFlags] fail, in whatever order the map is
    visited. *)
Theorem SetFlags_reads_every_set_flag (value value' : T) (f : flags.Flags)
    (k : string) (fl : flags.Flag) :
  flags.SetFlags lookup_Set fs_Get StringValue range value f = Ok value' ->
  flags.flags f !! k = Some fl ->
  flags.Changed (flags.flag fl) = true ->
  exists x, flags.getValue fs_Get StringValue fl = Ok x.
Proof.
  unfold flags.SetFlags. intros Hrun Hk Hc.
  apply (apply_flags_reads lookup_Set fs_Get StringValue k fl
           (range (flags.flags f)) value value'); [|done|done].
  rewrite range_enumerates. by apply elem_of_map_to_list.
Qed.

End set_flags.

Lemma BindCmdFlag_records_resolved_target_witness :
  flags.BindCmdFlag (flags.NewFlagList examples.OtherStruct_index)
    (Some examples.test_cmd) "SOME_OTHER_KEY" "source-flag" = Ok examples.bound_flags /\
  exists t fl,
    examples.bound_flags = flags.mkFlags (<[t := fl]> ∅) examples.OtherStruct_index /\
    flags.parent fl = EmptyString /\
    (flags.flag fl = examples.source_flag /\
     flags.fs fl = flags.PersistentFlags examples.test_cmd /\
     flags.persistent fl = true) /\
    (index.Find examples.OtherStruct_index "SOME_OTHER_KEY" = (t, true) \/
     (snd (index.Find examples.OtherStruct_index "SOME_OTHER_KEY") = false /\
      t = strings.ToLower "SOME_OTHER_KEY" /\
      index.PathExists examples.OtherStruct_index t = true)).
Proof.
  split; [reflexivity|].
  exact (BindCmdFlag_records_resolved_target
           (flags.NewFlagList examples.OtherStruct_index) examples.bound_flags
           examples.test_cmd "SOME_OTHER_KEY" "source-flag" eq_refl).
Defined.

Lemma BindFlag_rebinding_witness :
  (f1 ← flags.BindFlag (flags.NewFlagList ∅) (examples.port_flagset true "1") "Port"
          (Some (examples.port_flag true "1"));
   flags.BindFlag f1 (examples.port_flagset true "2") "PORT"
     (Some (examples.port_flag true "2")))
  = flags.BindFlag (flags.NewFlagList ∅) (examples.port_flagset true "2") "PORT"
      (Some (examples.port_flag true "2")).
Proof.
  apply (BindFlag_rebinding (flags.NewFlagList ∅) (examples.port_flagset true "1")
           (examples.port_flagset true "2") "Port" "PORT"
           (examples.port_flag true "1") (examples.port_flag true "2")).
  - discriminate.
  - discriminate.
  - reflexivity.
Defined.

Lemma BindFlag_then_SetFlags_witness :
  (f ← flags.BindFlag (flags.NewFlagList ∅) (examples.port_flagset true "12345") "Port"
         (Some (examples.port_flag true "12345"));
   flags.SetFlags examples.store_Set examples.store_fs_Get id map_to_list
     (∅ : gmap string string) f)
  = Ok {[ "port" := "12345" ]}.
Proof.
  rewrite (BindFlag_then_SetFlags examples.store_Set examples.store_fs_Get id
             map_to_list (fun m => reflexivity _) ∅
             (examples.port_flagset true "12345") "Port"
             (examples.port_flag true "12345") ∅).
  - reflexivity.
  - discriminate.
Defined.

Lemma SetFlags_reads_every_set_flag_witness :
  flags.SetFlags examples.store_Set examples.store_fs_Get id map_to_list
    (∅ : gmap string string) (examples.port_binding true "12345")
    = Ok {[ "port" := "12345" ]} /\
  exists x,
    flags.getValue examples.store_fs_Get id
      (flags.mkFlag (examples.port_flagset true "12345")
         (examples.port_flag true "12345") EmptyString false) = Ok x.
Proof.
  split; [reflexivity|].
  exact (SetFlags_reads_every_set_flag examples.store_Set examples.store_fs_Get id
           map_to_list (fun m => reflexivity _) ∅ {[ "port" := "12345" ]}
           (examples.port_binding true "12345") "port"
           (flags.mkFlag (examples.port_flagset true "12345")
              (examples.port_flag true "12345") EmptyString false)
           eq_refl eq_refl eq_refl).
Defined.

(** ** The loader: files, options and layers *)

Lemma rev_app_app (a b acc : string) :
  String.rev_app (a ++ b) acc = String.rev_app b (String.rev_app a acc).
Proof.
  revert acc. induction a as [|c a IH]; intros acc; [done|].
  cbn [String.append String.rev_app]. apply IH.
Qed.

Lemma rev_app_acc (a acc : string) : String.rev_app a acc = String.rev a ++ acc.
Proof.
  unfold String.rev. revert acc. induction a as [|c a IH]; intros acc; [done|].
  cbn [String.rev_app]. rewrite IH, (IH (String c "")), append_assoc. done.
Qed.

Lemma rev_append (a b : string) : String.rev (a ++ b) = String.rev b ++ String.rev a.
Proof. unfold String.rev at 1. by rewrite rev_app_app, rev_app_acc. Qed.

Lemma HasSuffix_app base suf : strings.HasSuffix (base ++ suf) suf = true.
Proof. unfold strings.HasSuffix. rewrite rev_append. apply HasPrefix_append. Qed.

Lemma HasSuffix_other base suf suf' :
  (forall z, strings.HasPrefix (String.rev suf ++ z) (String.rev suf') = false) ->
  strings.HasSuffix (base ++ suf) suf' = false.
Proof. intros H. unfold strings.HasSuffix. rewrite rev_append. apply H. Qed.

(** X18.  [GetFileType] with the built-in extensions: every name ending in
    ".json" is JSON and every name ending in ".yaml" or ".yml" is YAML,
    whatever precedes the suffix; with extensions given, a name ending in
    the first extension has that extension's type. *)
Theorem GetFileType_known_suffix (base : string) :
  config.GetFileType (base ++ ".json") [] = config.JSON /\
  config.GetFileType (base ++ ".yaml") [] = config.YAML /\
  config.GetFileType (base ++ ".yml") [] = config.YAML /\
  (forall ext ft rest,
     config.GetFileType (base ++ ext) (config.mkExtension ext ft :: rest) = ft).
Proof.
  unfold config.GetFileType, config.extensions.
  cbn [length Nat.eqb List.find config.ExtName].
  split; [by rewrite HasSuffix_app|]. split; [|split].
  - rewrite (HasSuffix_other base ".yaml" ".json") by (intros z; reflexivity).
    by rewrite HasSuffix_app.
  - rewrite (HasSuffix_other base ".yml" ".json") by (intros z; reflexivity).
    rewrite (HasSuffix_other base ".yml" ".yaml") by (intros z; reflexivity).
    by rewrite HasSuffix_app.
  - intros ext ft rest. by rewrite HasSuffix_app.
Qed.

Lemma Contains_empty sub : strings.Contains "" sub = true -> sub = "".
Proof. destruct sub; [done|]. cbn. done. Qed.

Section loader.
Context {T V : Type}.
Variable zero : T.
Variable ty : index.rtype.
Variable defaults_Set : T -> outcome T.
Variable json_Unmarshal yaml_Unmarshal : string -> T -> outcome T.
Variable lookup_Set : T -> string -> V -> outcome T.
Variable lookup_Exists : T -> string -> outcome bool.
Variable lookup_Create : T -> string -> outcome T.
Variable fs_Get : gmap string flags.pflag_Flag -> string -> string -> outcome V.
Variable StringValue : string -> V.
Variable snake : string -> string.
Variable range_index : gmap string index.Item -> list (string * index.Item).
Variable range_flags : gmap string flags.Flag -> list (string * flags.Flag).

#[local] Abbreviation Load :=
  (config.Load zero ty defaults_Set json_Unmarshal yaml_Unmarshal lookup_Set
     lookup_Exists lookup_Create fs_Get StringValue snake range_index range_flags).
#[local] Abbreviation Load_options := (config.Load_options ty snake).

(** X19.  [Load] refuses a file path that contains "..": for an explicit
    file, and with no explicit file for the value of the environment
    variable CONFIG, it returns the path traversal error and an empty file
    name, before the defaults are set or any file is read. *)
Theorem Load_rejects_path_traversal (w : config.World) (options : list config.Option) :
  (strings.Contains (config.File (config.apply_options options)) ".." = true ->
   Load w options =
     config.Failed ""
       (Errorf ("path traversal attempt: '" ++
                config.File (config.apply_options options) ++ "'"))) /\
  (config.File (config.apply_options options) = "" ->
   strings.Contains (config.Getenv w "CONFIG") ".." = true ->
   Load w options =
     config.Failed ""
       (Errorf ("path traversal attempt: '" ++ config.Getenv w "CONFIG" ++ "'"))).
Proof.
  unfold config.Load, config.resolve_file. split.
  - intros Hc. destruct (String.eqb_spec (config.File (config.apply_options options)) "")
      as [E|_].
    + rewrite E in Hc. by apply Contains_empty in Hc.
    + by rewrite Hc.
  - intros -> Hc. cbn [String.eqb]. unfold config.findConfigFile.
    destruct (String.eqb_spec (config.Getenv w "CONFIG") "") as [E|_].
    + rewrite E in Hc. by apply Contains_empty in Hc.
    + cbn [negb]. by rewrite Hc.
Qed.

Lemma findConfigFile_options w o :
  let o' := fst (config.findConfigFile w o) in
  config.Name o' = (if String.eqb (config.Name o) "" then "config" else config.Name o) /\
  config.File o' = config.File o /\ config.FileType_ o' = config.FileType_ o /\
  config.Paths o' = config.Paths o /\ config.Strict o' = config.Strict o /\
  config.Index o' = config.Index o /\ config.Flags o' = config.Flags o /\
  config.Replacer o' = config.Replacer o.
Proof.
  unfold config.findConfigFile.
  destruct (length (config.Extensions o) =? 0)%nat;
    cbn [config.Name config.WithExtensions];
    destruct (String.eqb (config.Name o) "");
    destruct (negb _); try destruct (strings.Contains _ _);
    try destruct (config.Abs _ _); try destruct (config.GetFileType _ _); done.
Qed.

Lemma resolve_file_options w o0 o :
  config.resolve_file w o0 = Ok o ->
  config.Name o =
    (if String.eqb (config.File o0) "" && String.eqb (config.Name o0) ""
     then "config" else config.Name o0) /\
  (config.File o0 <> "" ->
   config.File o = config.File o0 /\
   config.FileType_ o = config.GetFileType (config.File o0) config.extensions /\
   strings.Contains (config.File o0) ".." = false) /\
  config.Strict o = config.Strict o0 /\ config.Index o = config.Index o0 /\
  config.Flags o = config.Flags o0 /\ config.Replacer o = config.Replacer o0.
Proof.
  unfold config.resolve_file. destruct (String.eqb_spec (config.File o0) "") as [E|E].
  - pose proof (findConfigFile_options w o0) as H.
    destruct (config.findConfigFile w o0) as [o' [[f ft]| |]]; [|done..].
    cbn [fst] in H. destruct H as (HN & HF & HT & HP & HS & HI & HFl & HR).
    intros [= <-]. cbn [andb]. split_and!; done.
  - destruct (strings.Contains (config.File o0) "..") eqn:Hc; [done|].
    intros [= <-]. cbn [andb]. split_and!; done.
Qed.

Lemma resolve_index_options o1 o :
  config.resolve_index ty snake o1 = Ok o ->
  config.Name o = config.Name o1 /\ config.File o = config.File o1 /\
  config.FileType_ o = config.FileType_ o1 /\ config.Strict o = config.Strict o1 /\
  config.Flags o = config.Flags o1.
Proof.
  unfold config.resolve_index. destruct (size _ =? 0)%nat; [|by intros [= <-]].
  destruct (New _ _ _); [|done..]. by intros [= <-].
Qed.

(** X20.  The name under which [Load] reads the environment: the given
    name, except that with neither an explicit file nor a name the file
    search sets the name "config", so that the environment layer then runs
    with the prefix of that name.  Strictness and flags are as given. *)
Theorem Load_options_name (w : config.World) (options : list config.Option)
    (o : config.ConfigOptions) :
  Load_options w options = Ok o ->
  config.Name o =
    (if String.eqb (config.File (config.apply_options options)) "" &&
        String.eqb (config.Name (config.apply_options options)) ""
     then "config" else config.Name (config.apply_options options)) /\
  config.Strict o = config.Strict (config.apply_options options) /\
  config.Flags o = config.Flags (config.apply_options options).
Proof.
  unfold config.Load_options.
  destruct (config.resolve_file w (config.apply_options options)) as [o1| |] eqn:H1;
    [|done..].
  cbn [mbind outcome_bind]. intros H2.
  destruct (resolve_file_options w _ o1 H1) as (HN & _ & HS & _ & HF & _).
  destruct (resolve_index_options o1 o H2) as (HN' & _ & _ & HS' & HF').
  split_and!; congruence.
Qed.

(** X21.  When [Load] succeeds with an explicit file, it returns that file
    name, which holds no "..", the file was read, and its name ends in one
    of the built-in extensions: the extensions given as options do not
    apply to an explicit file. *)
Theorem Load_explicit_file (w : config.World) (options : list config.Option)
    (cfg : T) (file : string) :
  config.File (config.apply_options options) <> "" ->
  Load w options = config.Loaded cfg file ->
  file = config.File (config.apply_options options) /\
  strings.Contains file ".." = false /\
  (exists data, config.ReadFile w file = Ok data) /\
  config.GetFileType file config.extensions <> config.UnknownFileType.
Proof.
  intros Hfile Hload.
  destruct (Load_Loaded zero ty defaults_Set json_Unmarshal yaml_Unmarshal lookup_Set
              lookup_Exists lookup_Create fs_Get StringValue snake range_index
              range_flags w options cfg file Hload)
    as (o & cfg0 & cfg1 & cfg2 & Ho & _ & Hafter & _ & _ & ->).
  unfold config.Load_options in Ho.
  destruct (config.resolve_file w (config.apply_options options)) as [o1| |] eqn:H1;
    [|done..].
  cbn [mbind outcome_bind] in Ho.
  destruct (resolve_file_options w _ o1 H1) as (_ & Hexp & _).
  destruct (Hexp Hfile) as (HF & HT & HC).
  destruct (resolve_index_options o1 o Ho) as (_ & HF' & HT' & _).
  assert (config.File o = config.File (config.apply_options options)) as Heq by congruence.
  split; [done|]. rewrite Heq. split; [done|].
  unfold config.after_file in Hafter.
  assert ((0 <? String.length (config.File o))%nat = true) as Hlen.
  { rewrite Heq. destruct (config.File (config.apply_options options)); done. }
  rewrite Hlen in Hafter. destruct Hafter as (data & first & Hread & Hdec & _).
  split; [exists data; by rewrite <- Heq|].
  intros Hunk. unfold config.unmarshal in Hdec.
  rewrite HT', HT, Hunk in Hdec. done.
Qed.

Lemma try_ext {A} (x : outcome A) file (k k' : A -> config.LoadResult T) :
  (forall a, k a = k' a) -> config.try x file k = config.try x file k'.
Proof. intros H. destruct x; [apply H|done..]. Qed.

Lemma file_layer_ext w w' o cfg (k k' : T -> config.LoadResult T) :
  config.ReadFile w = config.ReadFile w' -> (forall c, k c = k' c) ->
  config.file_layer zero defaults_Set json_Unmarshal yaml_Unmarshal lookup_Exists
    lookup_Create range_index w o cfg k
  = config.file_layer zero defaults_Set json_Unmarshal yaml_Unmarshal lookup_Exists
      lookup_Create range_index w' o cfg k'.
Proof.
  intros Hw Hk. unfold config.file_layer, config.load_file. rewrite Hw.
  destruct (0 <? String.length (config.File o))%nat; [|apply Hk].
  apply try_ext. intros data. apply try_ext. intros first.
  destruct (0 <? length _)%nat; [|apply Hk].
  apply try_ext. intros changed. destruct (0 <? length changed)%nat; [|apply Hk].
  apply try_ext. intros tmp. apply try_ext. intros base. apply try_ext. apply Hk.
Qed.

Lemma env_layer_ext w o cfg (k k' : T -> config.LoadResult T) :
  (forall c, k c = k' c) ->
  config.env_layer ty lookup_Set StringValue snake w o cfg k
  = config.env_layer ty lookup_Set StringValue snake w o cfg k'.
Proof.
  intros Hk. unfold config.env_layer.
  destruct (0 <? String.length (config.Name o))%nat; [|apply Hk]. by apply try_ext.
Qed.

(** X22.  With an explicit file and no name, [Load] does not look at the
    environment: it returns the same in every world that reads files the
    same way. *)
Theorem Load_without_name_skips_environment (w w' : config.World)
    (options : list config.Option) :
  config.File (config.apply_options options) <> "" ->
  config.Name (config.apply_options options) = "" ->
  config.ReadFile w = config.ReadFile w' ->
  Load w options = Load w' options.
Proof.
  intros Hfile Hname Hread. unfold config.Load.
  assert (config.resolve_file w (config.apply_options options)
          = config.resolve_file w' (config.apply_options options)) as <-.
  { unfold config.resolve_file.
    by destruct (String.eqb_spec (config.File (config.apply_options options)) ""). }
  destruct (config.resolve_file w (config.apply_options options)) as [o1| |] eqn:H1;
    [|done..].
  cbn [config.try]. apply try_ext. intros cfg0.
  destruct (config.resolve_index ty snake o1) as [o| |] eqn:H2; [|done..].
  cbn [config.try]. apply file_layer_ext; [done|]. intros cfg1.
  destruct (resolve_file_options w _ o1 H1) as (HN & _).
  destruct (resolve_index_options o1 o H2) as (HN' & _).
  assert (config.Name o = "") as Hempty.
  { rewrite HN', HN, Hname.
    by destruct (String.eqb_spec (config.File (config.apply_options options)) ""). }
  unfold config.env_layer. by rewrite Hempty.
Qed.

Lemma findConfigFile_WithFlags w f o :
  config.findConfigFile w (config.WithFlags f o)
  = (config.WithFlags f (fst (config.findConfigFile w o)),
     snd (config.findConfigFile w o)).
Proof.
  destruct o as [file ft name paths strict idx fl exts repl].
  unfold config.findConfigFile, config.WithFlags, config.WithExtensions, config.WithName.
  cbn [config.File config.FileType_ config.Name config.Paths config.Strict config.Index
       config.Flags config.Extensions config.Replacer].
  destruct (length exts =? 0)%nat;
    cbn [config.File config.FileType_ config.Name config.Paths config.Strict config.Index
         config.Flags config.Extensions config.Replacer];
    destruct (String.eqb name "");
    cbn [config.File config.FileType_ config.Name config.Paths config.Strict config.Index
         config.Flags config.Extensions config.Replacer];
    destruct (negb _); try destruct (strings.Contains _ _);
    try destruct (config.Abs _ _); try destruct (config.GetFileType _ _); reflexivity.
Qed.

Lemma resolve_file_WithFlags w f o0 :
  config.resolve_file w (config.WithFlags f o0)
  = o1 ← config.resolve_file w o0; Ok (config.WithFlags f o1).
Proof.
  unfold config.resolve_file. cbn [config.File config.WithFlags].
  destruct (String.eqb (config.File o0) "").
  - rewrite findConfigFile_WithFlags.
    by destruct (config.findConfigFile w o0) as [o' [[name ft]| |]].
  - by destruct (strings.Contains (config.File o0) "..").
Qed.

Lemma resolve_index_WithFlags f o1 :
  config.resolve_index ty snake (config.WithFlags f o1)
  = o ← config.resolve_index ty snake o1; Ok (config.WithFlags f o).
Proof.
  unfold config.resolve_index. cbn [config.Index config.Replacer config.WithFlags].
  destruct (size (config.Index o1) =? 0)%nat; [|done].
  by destruct (New snake ty (config.Replacer o1)).
Qed.

Lemma apply_options_snoc options opt :
  config.apply_options (options ++ [opt]) = opt (config.apply_options options).
Proof. unfold config.apply_options. by rewrite fold_left_app. Qed.

(** X23.  A flag list in which no flag was set explicitly changes nothing:
    [Load] with it returns what [Load] returns without a flag list. *)
Theorem Load_with_unset_flags (w : config.World) (options : list config.Option)
    (f : flags.Flags) :
  config.Flags (config.apply_options options) = None ->
  Forall (fun kv => flags.is_changed kv = false) (range_flags (flags.flags f)) ->
  Load w (options ++ [config.WithFlags f]) = Load w options.
Proof.
  intros Hnone Hunset. unfold config.Load.
  rewrite apply_options_snoc, resolve_file_WithFlags.
  destruct (config.resolve_file w (config.apply_options options)) as [o1| |] eqn:H1;
    cbn [mbind outcome_bind config.try]; [|done..].
  apply try_ext. intros cfg0. rewrite resolve_index_WithFlags.
  destruct (config.resolve_index ty snake o1) as [o| |] eqn:H2;
    cbn [mbind outcome_bind config.try]; [|done..].
  destruct (resolve_file_options w _ o1 H1) as (_ & _ & _ & _ & HF & _).
  destruct (resolve_index_options o1 o H2) as (_ & _ & _ & _ & HF').
  assert (config.Flags o = None) as Hflags by congruence.
  change (config.file_layer zero defaults_Set json_Unmarshal yaml_Unmarshal
            lookup_Exists lookup_Create range_index w (config.WithFlags f o) cfg0)
    with (config.file_layer zero defaults_Set json_Unmarshal yaml_Unmarshal
            lookup_Exists lookup_Create range_index w o cfg0).
  apply file_layer_ext; [done|]. intros cfg1.
  change (config.env_layer ty lookup_Set StringValue snake w (config.WithFlags f o) cfg1)
    with (config.env_layer ty lookup_Set StringValue snake w o cfg1).
  apply env_layer_ext. intros cfg2.
  unfold config.flag_layer. cbn [config.Flags config.WithFlags config.File].
  rewrite Hflags. unfold flags.SetFlags.
  by rewrite (apply_flags_unchanged lookup_Set fs_Get StringValue _ cfg2 Hunset).
Qed.

End loader.

Lemma Load_options_name_witness :
  config.Load_options examples.TestLoadConfig stringy.SnakeCase_ToUpper
    (examples.test_world []) [] = Ok (examples.resolved (examples.test_world []) []) /\
  config.Name (examples.resolved (examples.test_world []) []) = "config".
Proof.
  assert (config.Load_options examples.TestLoadConfig stringy.SnakeCase_ToUpper
            (examples.test_world []) []
          = Ok (examples.resolved (examples.test_world []) [])) as H
    by (vm_compute; reflexivity).
  split; [exact H|].
  exact (proj1 (Load_options_name examples.TestLoadConfig stringy.SnakeCase_ToUpper
                  (examples.test_world []) []
                  (examples.resolved (examples.test_world []) []) H)).
Defined.

Lemma Load_explicit_file_witness :
  examples.test_Load (examples.test_world []) examples.explicit_call
    = config.Loaded (examples.loaded (examples.test_world []) examples.explicit_call)
        "/tmp/my-app.json" /\
  (exists data, config.ReadFile (examples.test_world []) "/tmp/my-app.json" = Ok data) /\
  config.GetFileType "/tmp/my-app.json" config.extensions <> config.UnknownFileType.
Proof.
  assert (examples.test_Load (examples.test_world []) examples.explicit_call
          = config.Loaded
              (examples.loaded (examples.test_world []) examples.explicit_call)
              "/tmp/my-app.json") as H by (vm_compute; reflexivity).
  split; [exact H|].
  refine (proj2 (proj2 (Load_explicit_file ∅ examples.TestLoadConfig
    examples.store_defaults examples.store_Unmarshal examples.store_Unmarshal
    examples.store_Set examples.store_Exists examples.store_Create
    examples.store_fs_Get id stringy.SnakeCase_ToUpper map_to_list map_to_list
    (examples.test_world []) examples.explicit_call _ "/tmp/my-app.json" _ H))).
  discriminate.
Defined.

Lemma Load_without_name_skips_environment_witness :
  examples.test_Load (examples.test_world []) examples.explicit_call
  = examples.test_Load (examples.test_world examples.bare_environ) examples.explicit_call.
Proof.
  apply (Load_without_name_skips_environment ∅ examples.TestLoadConfig
    examples.store_defaults examples.store_Unmarshal examples.store_Unmarshal
    examples.store_Set examples.store_Exists examples.store_Create
    examples.store_fs_Get id stringy.SnakeCase_ToUpper map_to_list map_to_list
    (examples.test_world []) (examples.test_world examples.bare_environ)
    examples.explicit_call).
  - discriminate.
  - reflexivity.
  - reflexivity.
Defined.

Lemma Load_with_unset_flags_witness :
  examples.test_Load examples.precedence_world
    ([config.WithName "my-app"]
     ++ [config.WithFlags (examples.port_binding false "12345")])
  = examples.test_Load examples.precedence_world [config.WithName "my-app"].
Proof.
  apply (Load_with_unset_flags ∅ examples.TestLoadConfig
    examples.store_defaults examples.store_Unmarshal examples.store_Unmarshal
    examples.store_Set examples.store_Exists examples.store_Create
    examples.store_fs_Get id stringy.SnakeCase_ToUpper map_to_list map_to_list
    examples.precedence_world [config.WithName "my-app"]
    (examples.port_binding false "12345")).
  - reflexivity.
  - assert (map_to_list (flags.flags (examples.port_binding false "12345"))
            = [("port", flags.mkFlag (examples.port_flagset false "12345")
                          (examples.port_flag false "12345") EmptyString false)]) as ->
      by (vm_compute; reflexivity).
    repeat constructor.
Defined.

(** ** Plain names, lenient mode, and the load of nothing *)

(** X24.  On a name without brackets [Find] is a plain lookup: it returns
    the path stored under the name, as it is, or reports a miss; [Exists]
    tells whether the name is a key. *)
Theorem Find_plain_name (v : gmap string Item) (name : string) :
  bracket_free name = true ->
  Find v name =
    match v !! name with
    | Some r => (Path r, true)
    | None => (EmptyString, false)
    end /\
  Exists v name = bool_decide (is_Some (v !! name)).
Proof.
  intros Hfree.
  destruct (scan_shaped name (bracket_free_shaped name Hfree)) as [E1 E2].
  rewrite (bracket_free_count name Hfree) in E2. cbn [repeat] in E2.
  split.
  - unfold Find, braces_FindAllStringSubmatch, braces_ReplaceAllString.
    rewrite E1, E2. by destruct (v !! name).
  - rewrite Exists_lookup. unfold braces_ReplaceAllString. by rewrite E1.
Qed.

Lemma Find_plain_name_witness :
  Find examples.IndexTestConfig_index "SERVER_HOST" = ("server.host", true) /\
  Find examples.IndexTestConfig_index "SERVER_NOPE" = (EmptyString, false).
Proof.
  split.
  - exact (proj1 (Find_plain_name examples.IndexTestConfig_index "SERVER_HOST" eq_refl)).
  - exact (proj1 (Find_plain_name examples.IndexTestConfig_index "SERVER_NOPE" eq_refl)).
Defined.

Lemma New_no_conflict snake d v :
  root_conflict v = false -> exists idx, New snake v d = Ok idx.
Proof.
  unfold root_conflict, New.
  destruct (strip_pointers v) as [| | | | |tu fs]; try by exists ∅.
  rewrite flatten_conflict_struct. unfold collect. cbn [collect_loop].
  pose proof (fields_loop_outcome snake d fs [] [] ∅) as H.
  cbn [negb andb length Nat.ltb Nat.leb]. intros Hc. rewrite Hc in H.
  destruct H as (m & -> & _); [|by exists m].
  apply Forall_forall. intros f _. apply collect_outcome.
Qed.

Section lenient.
Context {T V : Type}.
Variable lookup_Set : T -> string -> V -> outcome T.
Variable StringValue : string -> V.

Lemma apply_keys_lenient (m : gmap string string) keys : forall value n,
  env.apply_keys lookup_Set StringValue false m value keys <> Err (NotFoundError n).
Proof.
  induction keys as [|k keys IH]; intros value n; [done|].
  cbn [env.apply_keys].
  destruct (lookup_Set value k _) as [value'|[n'|msg|what]|]; try done; apply IH.
Qed.

Lemma scan_lenient o environ : forall m n,
  env.Strict o = false -> env.scan o environ m <> Err (NotFoundError n).
Proof.
  induction environ as [|e environ IH]; intros m n Hs; [done|].
  cbn [env.scan]. destruct (env.classify o e); [by apply IH| |by apply IH].
  rewrite Hs. by apply IH.
Qed.

(** X25.  In non-strict mode [Set] never fails with a not-found error:
    unresolved keys of the environment are passed over, and so are the
    paths the path setter does not find. *)
Theorem Set_lenient_never_not_found (snake : string -> string) (ty : rtype)
    (environ : list string) (value : T) (options : list env.Option) (n : string) :
  env.Strict (env.apply_options options) = false ->
  env.Set_ lookup_Set StringValue snake ty environ value options <> Err (NotFoundError n).
Proof.
  intros Hs. unfold env.Set_.
  destruct (env.resolve_options snake ty options) as [o|e|] eqn:Ho; cbn [mbind outcome_bind].
  - destruct (resolve_options_fields snake ty options o Ho) as [_ Hs'].
    rewrite Hs in Hs'.
    destruct (env.scan o environ ∅) as [m|e|] eqn:Hscan; cbn [mbind outcome_bind].
    + rewrite Hs'. apply apply_keys_lenient.
    + intros [= ->]. by apply (scan_lenient o environ ∅ n).
    + done.
  - unfold env.resolve_options in Ho. destruct (size _ =? 0)%nat; [|done].
    destruct (root_conflict ty) eqn:Hc.
    + destruct (New_conflict snake (env.Replacer (env.apply_options options)) ty Hc)
        as [p Hp].
      rewrite Hp in Ho. cbn [mbind outcome_bind] in Ho. by injection Ho as <-.
    + destruct (New snake ty _) as [d|e'|] eqn:HN; cbn [mbind outcome_bind] in Ho; try done.
      pose proof (New_no_conflict snake (env.Replacer (env.apply_options options)) ty Hc)
        as [idx Hidx]. congruence.
  - done.
Qed.

End lenient.

Lemma Set_lenient_never_not_found_witness :
  env.Set_ examples.store_Set id stringy.SnakeCase_ToUpper examples.TestLoadConfig
    [ "APP_NOPE=1" ] ∅ [env.WithName "app"] <> Err (NotFoundError "NOPE").
Proof.
  exact (Set_lenient_never_not_found examples.store_Set id stringy.SnakeCase_ToUpper
           examples.TestLoadConfig [ "APP_NOPE=1" ] ∅ [env.WithName "app"] "NOPE"
           eq_refl).
Defined.

Section load_nothing.
Context {T V : Type}.
Variable zero : T.
Variable ty : index.rtype.
Variable defaults_Set : T -> outcome T.
Variable json_Unmarshal yaml_Unmarshal : string -> T -> outcome T.
Variable lookup_Set : T -> string -> V -> outcome T.
Variable lookup_Exists : T -> string -> outcome bool.
Variable lookup_Create : T -> string -> outcome T.
Variable fs_Get : gmap string flags.pflag_Flag -> string -> string -> outcome V.
Variable StringValue : string -> V.
Variable snake : string -> string.
Variable range_index : gmap string index.Item -> list (string * index.Item).
Variable range_flags : gmap string flags.Flag -> list (string * flags.Flag).

(** X26.  With nothing configured, [Load] returns the defaults: no options,
    no CONFIG variable, no file "config.*" found, an empty environment and
    a type whose index can be built give the record as the default setter
    leaves it, and an empty file name. *)
Theorem Load_nothing_configured (w : config.World) (cfg0 : T) :
  config.Getenv w "CONFIG" = "" ->
  config.search w [] "config" config.extensions = Ok (EmptyString, config.UnknownFileType) ->
  config.Environ w = [] ->
  root_conflict ty = false ->
  defaults_Set zero = Ok cfg0 ->
  config.Load zero ty defaults_Set json_Unmarshal yaml_Unmarshal lookup_Set
    lookup_Exists lookup_Create fs_Get StringValue snake range_index range_flags w []
  = config.Loaded cfg0 EmptyString.
Proof.
  intros Henv Hsearch Hnone Hconf Hdef.
  destruct (New_no_conflict snake [] ty Hconf) as [idx Hidx].
  assert (config.resolve_file w (config.apply_options [])
          = Ok (config.mkConfigOptions EmptyString config.UnknownFileType "config" []
                  false ∅ None config.extensions [])) as Hfile.
  { unfold config.resolve_file, config.findConfigFile. cbn. rewrite Henv. cbn.
    by rewrite Hsearch. }
  unfold config.Load. rewrite Hfile. cbn [config.try]. rewrite Hdef. cbn [config.try].
  unfold config.resolve_index. cbn [config.Index config.Replacer].
  match goal with
  | |- context [(size ?m =? 0)%nat] => change (size m =? 0)%nat with true
  end.
  rewrite Hidx. cbn [mbind outcome_bind config.try].
  unfold config.file_layer, config.env_layer, config.flag_layer, config.WithIndex.
  cbn [config.File config.Name config.Flags config.Strict config.Index String.length
       Nat.ltb Nat.leb].
  unfold env.Set_, env.resolve_options, config.env_options.
  cbn [config.Name config.Strict config.Index].
  assert (env.Index (env.apply_options
            [env.WithName "config"; env.WithStrict false; env.WithIndex idx]) = idx)
    as Hidx' by done.
  assert (env.Replacer (env.apply_options
            [env.WithName "config"; env.WithStrict false; env.WithIndex idx]) = [])
    as Hrepl by done.
  rewrite Hidx', Hrepl, Hnone.
  destruct (size idx =? 0)%nat; [rewrite Hidx|]; done.
Qed.

End load_nothing.

Lemma Load_nothing_configured_witness :
  examples.test_Load (examples.test_world []) []
  = config.Loaded
      {[ "host" := "localhost"; "port" := "8080"; "enabled" := "true";
         "sub.name" := "sub-default" ]} EmptyString.
Proof.
  refine (Load_nothing_configured ∅ examples.TestLoadConfig examples.store_defaults
    examples.store_Unmarshal examples.store_Unmarshal examples.store_Set
    examples.store_Exists examples.store_Create examples.store_fs_Get id
    stringy.SnakeCase_ToUpper map_to_list map_to_list (examples.test_world []) _
    _ _ _ _ _); reflexivity.
Defined.
